(** * wal: a segmented write-ahead log

    A shallow embedding of [wal.go] (package [wal]) and the properties of its
    segment naming, framing, writer, retention sweeps and tailing reader.

    Conventions of the embedding.
    - Go's [int64] and [int] are [Z]; conversions that can lose bits
      ([uint32(length)], [int64] additions) are written out.
    - A byte is [Byte.byte]; a buffer is a [list byte].
    - The log directory is a finite map from file names to contents;
      [ioutil.ReadDir] lists its names sorted, as Go's does.
    - [time.Now()] is an explicit argument of every operation that reads it.
    - The Snappy framing codec is a parameter of the development. *)

From Stdlib Require Import ZArith Lia List Ascii String.
From Stdlib Require Strings.Byte.
From stdpp Require Import gmap strings list sorting fin_maps.

Local Open Scope Z_scope.

Abbreviation byte := Byte.byte.

(** ** Bytes and the big-endian length prefix *)

Module Bytes.

Definition to_Z (b : byte) : Z := Z.of_N (Byte.to_N b).

(** Go's [byte(v)]: the low eight bits of [v]. *)
Definition of_Z (v : Z) : byte :=
  match Byte.of_N (Z.to_N (v mod 256)) with
  | Some b => b
  | None => Byte.x00
  end.

End Bytes.

(** [uint32(v)]: truncation to 32 bits. *)
Definition uint32 (v : Z) : Z := v mod 2 ^ 32.

(** [int64(v)]: two's complement wrap-around to 64 bits. *)
Definition int64 (v : Z) : Z := (v + 2 ^ 63) mod 2 ^ 64 - 2 ^ 63.

(** [binary.BigEndian.PutUint32(lenBuf, v)] on a fresh four-byte buffer. *)
Definition PutUint32 (v : Z) : list byte :=
  [ Bytes.of_Z (Z.shiftr v 24); Bytes.of_Z (Z.shiftr v 16);
    Bytes.of_Z (Z.shiftr v 8); Bytes.of_Z v ].

(** [binary.BigEndian.Uint32(b)]; the source only calls it on four bytes. *)
Definition Uint32 (b : list byte) : Z :=
  match b with
  | [b0; b1; b2; b3] =>
      Z.lor (Z.lor (Z.lor (Bytes.to_Z b3) (Z.shiftl (Bytes.to_Z b2) 8))
                   (Z.shiftl (Bytes.to_Z b1) 16))
            (Z.shiftl (Bytes.to_Z b0) 24)
  | _ => 0
  end.

Definition sentinel : Z := 0.
Definition defaultFileBuffer : Z := 65536.
Definition compressedSuffix : string := ".snappy".
Definition defaultMaxSegmentSize : Z := 104857600.
(** [sentinelBytes = make([]byte, 4)] *)
Definition sentinelBytes : list byte := [Byte.x00; Byte.x00; Byte.x00; Byte.x00].

(** ** Segment naming *)

(** [tsToFileSequence(ts)]: [ts.UnixNano() / 1000]; Go's integer division
    truncates towards zero. The argument is the [UnixNano] reading. *)
Definition tsToFileSequence (unixNano : Z) : Z := Z.quot unixNano 1000.

(** [newFileSequence()], given the reading of [time.Now()]. *)
Definition newFileSequence (now : Z) : Z := tsToFileSequence now.

Definition digit (d : Z) : ascii := ascii_of_N (Z.to_N (48 + d)).

(** The [w] low-order decimal digits of [n], most significant first. *)
Fixpoint pad_digits (w : nat) (n : Z) : string :=
  match w with
  | O => EmptyString
  | S w' => String (digit ((n / 10 ^ Z.of_nat w') mod 10)) (pad_digits w' n)
  end.

(** [sequenceToFilename(seq)]: [fmt.Sprintf("%019d", seq)] for an [int64].
    The zero padding counts the sign, and a value of more digits than the
    padding is printed in full (19 digits are enough for any [int64]). *)
Definition sequenceToFilename (seq : Z) : string :=
  if 0 <=? seq then pad_digits 19 seq
  else if - seq <? 10 ^ 18 then String "-" (pad_digits 18 (- seq))
  else String "-" (pad_digits 19 (- seq)).

(** The file part of [filepath.Split]: what follows the last ['/']. *)
Fixpoint after_slash (s : string) : option string :=
  match s with
  | EmptyString => None
  | String c s' =>
      match after_slash s' with
      | Some t => Some t
      | None => if Ascii.eqb c "/" then Some s' else None
      end
  end.

Definition Split_file (s : string) : string :=
  match after_slash s with Some t => t | None => s end.

(** [strings.HasSuffix] and [strings.TrimSuffix]. *)
Fixpoint HasSuffix (s suffix : string) : bool :=
  String.eqb s suffix ||
  match s with
  | EmptyString => false
  | String _ s' => HasSuffix s' suffix
  end.

Definition TrimSuffix (s suffix : string) : string :=
  if HasSuffix s suffix
  then String.substring 0 (String.length s - String.length suffix) s
  else s.

Definition digit_val (c : ascii) : option Z :=
  let n := Z.of_N (N_of_ascii c) in
  if (48 <=? n) && (n <=? 57) then Some (n - 48) else None.

Fixpoint parse_digits (acc : Z) (s : string) : option Z :=
  match s with
  | EmptyString => Some acc
  | String c s' =>
      match digit_val c with
      | Some d => parse_digits (10 * acc + d) s'
      | None => None
      end
  end.

(** [strconv.ParseInt(s, 10, 64)]; [None] is any of its errors (syntax or
    range). *)
Definition ParseInt (s : string) : option Z :=
  match s with
  | EmptyString => None
  | String c rest =>
      let neg := Ascii.eqb c "-" in
      let ds := if Ascii.eqb c "+" || neg then rest else s in
      match ds with
      | EmptyString => None
      | _ =>
          match parse_digits 0 ds with
          | None => None
          | Some un =>
              if neg then (if un <=? 2 ^ 63 then Some (- un) else None)
              else (if un <? 2 ^ 63 then Some un else None)
          end
      end
  end.

(** [filenameToSequence(filename)]: an unparseable name yields 0. *)
Definition filenameToSequence (filename : string) : Z :=
  let filePart := Split_file filename in
  let filePart := TrimSuffix filePart compressedSuffix in
  match ParseInt filePart with
  | Some seq => seq
  | None => 0
  end.

Definition is_digit (c : ascii) : bool :=
  let n := Z.of_N (N_of_ascii c) in (48 <=? n) && (n <=? 57).

Fixpoint all_digits (s : string) : bool :=
  match s with
  | EmptyString => true
  | String c s' => is_digit c && all_digits s'
  end.

(** A canonical segment name: the 19 digits of a sequence in
    [0, 2^63), compressed or not. *)
Definition segment_name (seq : Z) (snappy : bool) : string :=
  if snappy then sequenceToFilename seq +:+ compressedSuffix
  else sequenceToFilename seq.

Definition canonicalb (name : string) : bool :=
  let seq := filenameToSequence name in
  (0 <=? seq)
  && (String.eqb name (segment_name seq false)
      || String.eqb name (segment_name seq true)).

(** ** The log directory and the shared file handle *)

(** The directory [dir] of the log: file names and their contents. It is
    flat and holds regular files; an operation on a file fails only when the
    file is absent. *)
Abbreviation Dir := (gmap string (list byte)).

(** [ioutil.ReadDir(dir)]: the names, sorted. *)
Definition ReadDir (fs : Dir) : list string :=
  merge_sort String.le (elements (dom fs)).

(** The directory holds segment files only, as the writer and
    [CompressBefore] name them. *)
Definition canonical_dir (fs : Dir) : Prop :=
  forallb canonicalb (ReadDir fs) = true.

(** The sequences of the files of the directory, in the order of the
    listing. *)
Definition sequences (fs : Dir) : list Z :=
  map filenameToSequence (ReadDir fs).

Inductive error : Type :=
| ErrNotExist                              (* os.IsNotExist(err) *)
| EOF                                      (* io.EOF *)
| ErrCorrupt                               (* an error of the Snappy reader *)
| Errorf (msg : string) (cause : error).   (* fmt.Errorf("msg: %v", cause) *)

(** [os.Remove(filepath.Join(dir, name))] *)
Definition os_Remove (name : string) (fs : Dir) : option Dir :=
  match fs !! name with
  | Some _ => Some (delete name fs)
  | None => None
  end.

(** A write through a handle opened with [O_APPEND]. A handle whose name was
    removed from the directory writes to a file no listing shows. *)
Definition append_file (name : option string) (data : list byte) (fs : Dir) : Dir :=
  match name with
  | Some path =>
      match fs !! path with
      | Some old => <[path := old ++ data]> fs
      | None => fs
      end
  | None => fs
  end.

(** [type filebased struct]: [file] is the path of the open file ([None] for
    a nil [*os.File]); [dir] is the directory above and [fileFlags] is the
    [create] argument of [openFile]. *)
Record filebased : Type := mkFilebased {
  file : option string;
  compressed : bool;
  fileSequence : Z;
  position : Z
}.

(** [fb.filename()], relative to [dir]. *)
Definition filename (fb : filebased) : string :=
  sequenceToFilename (fileSequence fb).

(** [fb.openFile()]. [create] tells [O_CREATE|O_APPEND|O_WRONLY] (the writer)
    from [O_RDONLY] (a reader). *)
Definition openFile (create : bool) (fb : filebased) (fs : Dir)
  : filebased * Dir * option error :=
  let name := filename fb in
  match fs !! name with
  | Some _ =>
      (mkFilebased (Some name) false (fileSequence fb) (position fb), fs, None)
  | None =>
      if create then
        (mkFilebased (Some name) false (fileSequence fb) (position fb),
         <[name := []]> fs, None)
      else
        (* Try compressed version *)
        match fs !! (name +:+ compressedSuffix) with
        | Some _ =>
            (mkFilebased (Some (name +:+ compressedSuffix)) true
                         (fileSequence fb) (position fb), fs, None)
        | None =>
            (mkFilebased None true (fileSequence fb) (position fb), fs,
             Some ErrNotExist)
        end
  end.

(** ** The writer *)

(** [type WAL struct]: [writer] holds the bytes buffered in the
    [bufio.Writer] and not yet written to [file]. *)
Record WAL : Type := mkWAL {
  wal_fb : filebased;
  syncImmediate : bool;
  writer : list byte
}.

(** [bufio.Writer.Write(p)] with a buffer of [defaultFileBuffer] bytes: the
    bytes handed to the file, and the bytes left in the buffer. *)
Definition bufio_Write (buffered p : list byte) : list byte * list byte :=
  let available := defaultFileBuffer - Z.of_nat (length buffered) in
  if Z.of_nat (length p) <=? available then ([], buffered ++ p)
  else
    match buffered with
    | [] => (p, [])   (* large write, empty buffer: written directly *)
    | _ =>
        let p1 := take (Z.to_nat available) p in
        let p2 := drop (Z.to_nat available) p in
        if Z.of_nat (length p2) <=? defaultFileBuffer
        then (buffered ++ p1, p2)
        else (buffered ++ p1 ++ p2, [])
    end.

(** [wal.writer.Write(p)]: the count returned, the writer and the directory. *)
Definition writer_Write (wal : WAL) (fs : Dir) (p : list byte) : Z * WAL * Dir :=
  let '(out, buffered) := bufio_Write (writer wal) p in
  (Z.of_nat (length p),
   mkWAL (wal_fb wal) (syncImmediate wal) buffered,
   append_file (file (wal_fb wal)) out fs).

(** [wal.writer.Flush()] *)
Definition writer_Flush (wal : WAL) (fs : Dir) : WAL * Dir :=
  (mkWAL (wal_fb wal) (syncImmediate wal) [],
   append_file (file (wal_fb wal)) (writer wal) fs).

(** [wal.doSync()]: flush, then [file.Sync()]. *)
Definition doSync (wal : WAL) (fs : Dir) : WAL * Dir := writer_Flush wal fs.

(** [wal.position += int64(n)] *)
Definition add_position (wal : WAL) (n : Z) : WAL :=
  let fb := wal_fb wal in
  mkWAL (mkFilebased (file fb) (compressed fb) (fileSequence fb)
                     (int64 (position fb + n)))
        (syncImmediate wal) (writer wal).

(** [wal.advance()], [now] being the reading of the clock. *)
Definition WAL_advance (now : Z) (wal : WAL) (fs : Dir)
  : WAL * Dir * option error :=
  let fb := wal_fb wal in
  let fb := mkFilebased (file fb) (compressed fb) (newFileSequence now) 0 in
  let '(fb, fs, err) := openFile true fb fs in
  match err with
  | None => (mkWAL fb (syncImmediate wal) [], fs, None)
  | Some e => (mkWAL fb (syncImmediate wal) (writer wal), fs, Some e)
  end.

(** [appendSentinels(dir)] *)
Definition appendSentinels (fs : Dir) : Dir :=
  foldl (fun fs name =>
           if HasSuffix name compressedSuffix then fs   (* ignore compressed files *)
           else append_file (Some name) sentinelBytes fs)
        fs (ReadDir fs).

(** [Open(dir, syncInterval)] *)
Definition Open (now : Z) (syncInterval : Z) (fs : Dir)
  : option WAL * Dir * option error :=
  let fs := appendSentinels fs in
  let wal := mkWAL (mkFilebased None false 0 0) false [] in
  let '(wal, fs, err) := WAL_advance now wal fs in
  match err with
  | Some e => (None, fs, Some e)
  | None =>
      (Some (mkWAL (wal_fb wal) (syncInterval <=? 0) (writer wal)), fs, None)
  end.

(** [length += len(b)] over [bufs] *)
Definition total_length (bufs : list (list byte)) : Z :=
  foldl (fun length b => length + Z.of_nat (List.length b)) 0 bufs.

(** The loop of [Write] over [bufs]: each buffer goes to the buffered
    writer, and [n] is the count of the last call. *)
Definition write_bufs (st : Z * WAL * Dir) (bufs : list (list byte))
  : Z * WAL * Dir :=
  foldl (fun '(_, wal, fs) b =>
           let '(n, wal, fs) := writer_Write wal fs b in
           (n, add_position wal n, fs))
        st bufs.

(** [Write], from the length prefix to the optional sync: the frame is
    handed to the buffered writer. *)
Definition Write_frame (wal : WAL) (fs : Dir) (bufs : list (list byte))
  : Z * WAL * Dir :=
  let length := total_length bufs in
  let lenBuf := PutUint32 (uint32 length) in
  let '(n, wal, fs) := writer_Write wal fs lenBuf in
  let wal := add_position wal n in
  let '(n, wal, fs) := write_bufs (n, wal, fs) bufs in
  let '(wal, fs) := if syncImmediate wal then doSync wal fs else (wal, fs) in
  (n, wal, fs).

(** [Write], once the position has reached [maxSegmentSize]: sentinel,
    flush, advance. *)
Definition Write_rollover (now : Z) (wal : WAL) (fs : Dir)
  : WAL * Dir * option error :=
  (* Write sentinel length to mark end of file *)
  let '(_, wal, fs) := writer_Write wal fs sentinelBytes in
  let '(wal, fs) := writer_Flush wal fs in
  WAL_advance now wal fs.

Section Writer.

(** [maxSegmentSize] is a package variable (104857600 unless changed). *)
Variable maxSegmentSize : Z.

(** [wal.Write(bufs...)]: the pair returned, the writer and the directory.
    [now] is what [time.Now()] reads if the call gets to [advance]. *)
Definition Write (now : Z) (wal : WAL) (fs : Dir) (bufs : list (list byte))
  : (Z * option error) * WAL * Dir :=
  let length := total_length bufs in
  if length =? 0 then ((0, None), wal, fs)
  else
    let '(n, wal, fs) := Write_frame wal fs bufs in
    if maxSegmentSize <=? position (wal_fb wal) then
      let '(wal, fs, err) := Write_rollover now wal fs in
      match err with
      | Some e => ((n, Some (Errorf "Unable to advance to next file" e)), wal, fs)
      | None => ((n, None), wal, fs)
      end
    else ((n, None), wal, fs).


(** A writer's lifetime after [Open]: successive calls of [Write], each with
    the reading of the clock it would get. *)
Definition run_writes (st : WAL * Dir) (calls : list (Z * list (list byte)))
  : WAL * Dir :=
  foldl (fun '(wal, fs) '(now, bufs) =>
           let '(_, wal, fs) := Write now wal fs bufs in (wal, fs))
        st calls.



End Writer.

(** [wal.Close()] *)
Definition WAL_Close (wal : WAL) (fs : Dir) : WAL * Dir := writer_Flush wal fs.

(** [wal.hasMovedBeyond(fileSequence)] *)
Definition hasMovedBeyond (wal : WAL) (seq : Z) : bool :=
  seq <? fileSequence (wal_fb wal).

(** ** Offsets *)

(** Modelled from the spec: the type [Offset] and [newOffset] are declared
    outside [wal.go]. The spec describes an offset as an immutable pair
    [(fileSequence, position)] with the accessors [FileSequence()] and
    [Position()]. *)
Record Offset : Type := newOffset {
  FileSequence : Z;
  Position : Z
}.

(** ** Retention *)

(** The loop of [TruncateBefore] over the sorted listing. *)
Fixpoint truncate_loop (cutoff : string) (files : list string) (fs : Dir)
  : Dir * option error :=
  match files with
  | [] => (fs, None)
  | name :: rest =>
      (* i == len(files)-1 || file.Name() >= cutoff *)
      if bool_decide (rest = []) || String.leb cutoff name then (fs, None)
      else
        match os_Remove name fs with
        | None => (fs, Some ErrNotExist)
        | Some fs => truncate_loop cutoff rest fs
        end
  end.

(** [wal.TruncateBefore(o)] *)
Definition TruncateBefore (o : Offset) (fs : Dir) : Dir * option error :=
  let files := ReadDir fs in
  let cutoff := sequenceToFilename (FileSequence o) in
  truncate_loop cutoff files fs.

(** [wal.TruncateBeforeTime(ts)] *)
Definition TruncateBeforeTime (ts : Z) (fs : Dir) : Dir * option error :=
  TruncateBefore (newOffset (tsToFileSequence ts) 0) fs.

Section Snappy.

(** The Snappy framing format of [github.com/golang/snappy]:
    [snappy_encode] is what a [snappy.Writer] emits for a stream that is
    closed, [snappy_decode] what a [snappy.Reader] delivers from a file: the
    bytes decoded, and whether decoding then stops on an error instead of
    the end of the stream. *)
Variable snappy_encode : list byte -> list byte.
Variable snappy_decode : list byte -> list byte * bool.

(** The loop of [CompressBefore] over the sorted listing. *)
Fixpoint compress_loop (cutoff : string) (files : list string) (fs : Dir)
  : Dir * option error :=
  match files with
  | [] => (fs, None)
  | name :: rest =>
      if bool_decide (rest = []) || String.leb cutoff name then (fs, None)
      else
        let infile := name in
        let outfile := infile +:+ compressedSuffix in
        if HasSuffix name compressedSuffix then
          (* Already compressed *)
          compress_loop cutoff rest fs
        else
          match fs !! infile with
          | None =>
              (fs, Some (Errorf "Unable to open input file for compression"
                                ErrNotExist))
          | Some data =>
              (* O_CREATE|O_APPEND|O_WRONLY *)
              let old := default [] (fs !! outfile) in
              let fs := <[outfile := old ++ snappy_encode data]> fs in
              match os_Remove infile fs with
              | None =>
                  (fs, Some (Errorf "Unable to remove uncompressed file"
                                    ErrNotExist))
              | Some fs => compress_loop cutoff rest fs
              end
          end
  end.

(** [wal.CompressBefore(o)] *)
Definition CompressBefore (o : Offset) (fs : Dir) : Dir * option error :=
  let files := ReadDir fs in
  let cutoff := sequenceToFilename (FileSequence o) in
  compress_loop cutoff files fs.

(** [wal.CompressBeforeTime(ts)] *)
Definition CompressBeforeTime (ts : Z) (fs : Dir) : Dir * option error :=
  CompressBefore (newOffset (tsToFileSequence ts) 0) fs.

(** ** The reader *)

(** [type Reader struct]: [consumed] is the state of [r.reader], the number
    of logical bytes it has delivered since the file was opened. The field
    [wal] is the argument [wal] of [Read_step]. *)
Record Reader : Type := mkReader {
  r_fb : filebased;
  consumed : nat
}.

(** The logical byte stream behind [r.reader]: the bytes of the open file,
    decoded when the file is a compressed one, and whether the stream ends
    on an error. *)
Definition stream (r : Reader) (fs : Dir) : list byte * bool :=
  match file (r_fb r) with
  | None => ([], true)
  | Some path =>
      match fs !! path with
      | None => ([], false)
      | Some data =>
          if compressed (r_fb r) then snappy_decode data else (data, false)
      end
  end.

Inductive io_result : Type :=
| io_ok (bs : list byte)   (* n = len(bs) > 0, err == nil *)
| io_EOF                   (* n == 0, err == io.EOF *)
| io_err.                  (* n == 0, another error *)

(** [r.reader.Read(p)] with [want = len(p) > 0]. An [io.Reader] may deliver
    fewer bytes than asked for; [chunk] is how many this call is willing to
    deliver (at least one). *)
Definition reader_Read (r : Reader) (fs : Dir) (want chunk : nat)
  : io_result * Reader :=
  let '(data, bad) := stream r fs in
  let rest := drop (consumed r) data in
  match rest with
  | [] => (if bad then io_err else io_EOF, r)
  | _ =>
      let n := Nat.min (Nat.max 1 chunk) (Nat.min want (length rest)) in
      (io_ok (take n rest), mkReader (r_fb r) (consumed r + n))
  end.

(** [r.position += int64(n)] *)
Definition r_add_position (r : Reader) (n : nat) : Reader :=
  let fb := r_fb r in
  mkReader (mkFilebased (file fb) (compressed fb) (fileSequence fb)
                        (int64 (position fb + Z.of_nat n)))
           (consumed r).

(** [io.CopyN(ioutil.Discard, r.reader, n)] *)
Definition CopyN_discard (r : Reader) (fs : Dir) (n : Z) : Reader * option error :=
  let '(data, bad) := stream r fs in
  let rest := drop (consumed r) data in
  if n <=? Z.of_nat (length rest)
  then (mkReader (r_fb r) (consumed r + Z.to_nat n), None)
  else (mkReader (r_fb r) (consumed r + length rest),
        Some (if bad then ErrCorrupt else EOF)).

(** [r.open()] *)
Definition Reader_open (r : Reader) (fs : Dir) : Reader * option error :=
  let '(fb, _, err) := openFile false (r_fb r) fs in
  match err with
  | Some e => (mkReader fb (consumed r), Some e)
  | None =>
      let r := mkReader fb 0 in
      if 0 <? position fb then
        (* Read to the correct offset *)
        CopyN_discard r fs (position fb)
      else (r, None)
  end.

(** The scan of [advance] over one listing: the first file of another
    sequence whose name is above the cutoff. *)
Fixpoint advance_scan (cutoff : string) (current : Z) (files : list string)
  : option Z :=
  match files with
  | [] => None
  | name :: rest =>
      let seq := filenameToSequence name in
      if seq =? current then advance_scan cutoff current rest
      else if String.ltb cutoff name then Some seq
      else advance_scan cutoff current rest
  end.

Inductive advance_result : Type :=
| adv_ok (r : Reader)
| adv_err (e : error) (r : Reader)
| adv_sleep.                 (* no newer file: time.Sleep, list again *)

(** One round of the loop of [r.advance()]. *)
Definition Reader_advance (r : Reader) (fs : Dir) : advance_result :=
  let files := ReadDir fs in
  let cutoff := sequenceToFilename (fileSequence (r_fb r)) in
  match advance_scan cutoff (fileSequence (r_fb r)) files with
  | Some seq =>
      let fb := r_fb r in
      let r := mkReader (mkFilebased (file fb) (compressed fb) seq 0) (consumed r) in
      match Reader_open r fs with
      | (r, None) => adv_ok r
      | (r, Some e) => adv_err e r
      end
  | None => adv_sleep
  end.

(** A reader at the start of the segment of sequence [s], which it has open
    raw or, when [z], compressed. *)
Definition reader_at (s : Z) (z : bool) : Reader :=
  mkReader (mkFilebased (Some (segment_name s z)) z s 0) 0.

(** No file is longer than an [int64] can count, compressed or decoded. *)
Definition dir_bounded (fs : Dir) : Prop :=
  forallb (fun '(_, data) =>
             (Z.of_nat (length data) <? 2 ^ 63)
             && (Z.of_nat (length (fst (snappy_decode data))) <? 2 ^ 63))
          (map_to_list fs) = true.

(** What holds of the fields of every reader: the sequence is that of a
    canonical name, and the position does not run ahead of the bytes read. *)
Definition reader_ok (r : Reader) : Prop :=
  0 <= fileSequence (r_fb r) < 2 ^ 63
  /\ - 2 ^ 63 <= position (r_fb r) <= Z.of_nat (consumed r).

(** The lexicographic order of offsets. *)
Definition offset_lt (a b : Offset) : Prop :=
  FileSequence a < FileSequence b
  \/ (FileSequence a = FileSequence b /\ Position a < Position b).

Definition offset_le (a b : Offset) : Prop :=
  FileSequence a < FileSequence b
  \/ (FileSequence a = FileSequence b /\ Position a <= Position b).

(** The legacy rescaling of [NewReader]: [offsetString[0] != '0']. *)
Definition legacy_offset (offset : Offset) : Offset :=
  match sequenceToFilename (FileSequence offset) with
  | String c _ =>
      if Ascii.eqb c "0" then offset
      else newOffset (Z.quot (FileSequence offset) 1000) (Position offset)
  | EmptyString => offset
  end.

(** The loop of [NewReader] over the listing: the first file at or above
    the cutoff is opened, and the loop is left. *)
Fixpoint NewReader_scan (offset : Offset) (cutoff : string)
  (files : list string) (r : Reader) (fs : Dir) : Reader * option error :=
  match files with
  | [] => (r, None)
  | name :: rest =>
      if String.leb cutoff name then
        (* Found exist or more recent WAL file *)
        let seq := filenameToSequence name in
        let pos := if seq =? FileSequence offset
                   then Position offset   (* exact match *)
                   else 0 in              (* newer file, start at beginning *)
        let fb := r_fb r in
        let r := mkReader (mkFilebased (file fb) (compressed fb) seq pos)
                          (consumed r) in
        match Reader_open r fs with
        | (r, Some e) =>
            (r, Some (Errorf "Unable to open existing log file" e))
        | (r, None) => (r, None)
        end
      else NewReader_scan offset cutoff rest r fs
  end.

Inductive NewReader_result : Type :=
| nr_ok (r : Reader)
| nr_err (e : error)
| nr_sleep.          (* inside [advance], no file to open yet *)

(** [wal.NewReader(offset)] on the directory as it is; [None] is the nil
    offset. *)
Definition NewReader (offset : option Offset) (fs : Dir) : NewReader_result :=
  let r := mkReader (mkFilebased None false 0 0) 0 in
  let '(r, err) :=
    match offset with
    | None => (r, None)
    | Some offset =>
        let offset := legacy_offset offset in
        let files := ReadDir fs in
        let cutoff := sequenceToFilename (FileSequence offset) in
        NewReader_scan offset cutoff files r fs
    end in
  match err with
  | Some e => nr_err e
  | None =>
      match file (r_fb r) with
      | Some _ => nr_ok r
      | None =>
          (* Didn't find WAL file, advance *)
          match Reader_advance r fs with
          | adv_ok r => nr_ok r
          | adv_err e _ => nr_err (Errorf "Unable to advance initially" e)
          | adv_sleep => nr_sleep
          end
      end
  end.

(** [r.Offset()] *)
Definition Reader_Offset (r : Reader) : Offset :=
  newOffset (fileSequence (r_fb r)) (position (r_fb r)).

(** Where a call of [Read] stands between two calls of [r.reader.Read] or
    two listings of the directory. *)
Inductive Read_pc : Type :=
| at_length (lenBuf : list byte)
    (* reading the length; [lenBuf] is [lenBuf[:read]] *)
| at_advance
    (* inside [r.advance()]; on success the call goes on at the length *)
| at_data (length : Z) (b : list byte).
    (* reading the data; [b] is [b[:read]] *)


(** The loop variables of [Read] against the stream of the open file: the
    bytes kept are the last ones read, and the length in use is positive and
    is what the four bytes before the data encode. *)
Definition pc_framed (fs : Dir) (pc : Read_pc) (r : Reader) : Prop :=
  let data := fst (stream r fs) in
  match pc with
  | at_length lenBuf =>
      (length lenBuf < 4)%nat
      /\ exists pre, take (consumed r) data = pre ++ lenBuf
  | at_advance => True
  | at_data len b =>
      Z.of_nat (length b) < len
      /\ exists pre hdr, take (consumed r) data = pre ++ hdr ++ b
                         /\ length hdr = 4%nat /\ Uint32 hdr = len
  end.

Inductive step_result : Type :=
| st_continue (pc : Read_pc) (r : Reader)
| st_sleep                                   (* time.Sleep, same state *)
| st_return (b : list byte) (r : Reader)     (* return b, nil *)
| st_fail (e : error) (r : Reader).          (* return nil, err *)

(** One turn of the loops of [r.Read()]: one call of [r.reader.Read], or one
    listing inside [r.advance()]. [wal] is the writer as it is at that
    moment. *)
Definition Read_step (wal : WAL) (fs : Dir) (chunk : nat)
  (pc : Read_pc) (r : Reader) : step_result :=
  match pc with
  | at_length lenBuf =>
      match reader_Read r fs (4 - length lenBuf) chunk with
      | (io_EOF, _) => st_sleep
      | (io_err, r) =>
          (* logged; length is still 0, so the reader advances *)
          st_continue at_advance r
      | (io_ok bs, r) =>
          let lenBuf := lenBuf ++ bs in
          let r := r_add_position r (length bs) in
          if (length lenBuf =? 4)%nat then
            let length := Uint32 lenBuf in
            if sentinel <? length then st_continue (at_data length []) r
            else st_continue at_advance r
          else st_continue (at_length lenBuf) r
      end
  | at_advance =>
      match Reader_advance r fs with
      | adv_ok r => st_continue (at_length []) r
      | adv_err e r => st_fail e r
      | adv_sleep => st_sleep
      end
  | at_data length b =>
      match reader_Read r fs (Z.to_nat length - List.length b) chunk with
      | (io_EOF, r) =>
          if hasMovedBeyond wal (fileSequence (r_fb r))
          then st_continue at_advance r   (* assumed corrupted *)
          else st_sleep
      | (io_err, r) => st_continue (at_length []) r   (* continue top *)
      | (io_ok bs, r) =>
          let b := b ++ bs in
          let r := r_add_position r (List.length bs) in
          if Z.of_nat (List.length b) =? length then st_return b r
          else st_continue (at_data length b) r
      end
  end.

Inductive Read_result : Type :=
| rd_ok (b : list byte) (r : Reader)
| rd_err (e : error) (r : Reader)
| rd_blocked (pc : Read_pc) (r : Reader).
    (* asleep: on this directory and writer the call never returns *)

(** [Read] run from [pc] against a directory and a writer that do not
    change meanwhile; [chunks i] is the willingness of the [i]-th call of
    [r.reader.Read]. [None]: more than [fuel] turns are needed. *)
Fixpoint Read_from (fuel : nat) (chunks : nat -> nat) (wal : WAL) (fs : Dir)
  (pc : Read_pc) (r : Reader) : option Read_result :=
  match fuel with
  | O => None
  | S fuel =>
      match Read_step wal fs (chunks O) pc r with
      | st_continue pc r =>
          Read_from fuel (fun i => chunks (S i)) wal fs pc r
      | st_sleep => Some (rd_blocked pc r)
      | st_return b r => Some (rd_ok b r)
      | st_fail e r => Some (rd_err e r)
      end
  end.

(** [r.Read()] *)
Definition Read (fuel : nat) (chunks : nat -> nat) (wal : WAL) (fs : Dir)
  (r : Reader) : option Read_result :=
  Read_from fuel chunks wal fs (at_length []) r.

(** [n] calls of [r.Read()] in a row, each with [fuel] turns and its own
    [chunks i]: the records returned and the reader after them, if every
    call returns a record. *)
Fixpoint Read_many (n fuel : nat) (chunks : nat -> nat -> nat) (wal : WAL)
  (fs : Dir) (r : Reader) : option (list (list byte) * Reader) :=
  match n with
  | O => Some ([], r)
  | S n =>
      match Read fuel (chunks O) wal fs r with
      | Some (rd_ok b r) =>
          match Read_many n fuel (fun i => chunks (S i)) wal fs r with
          | Some (bs, r) => Some (b :: bs, r)
          | None => None
          end
      | _ => None
      end
  end.

(** The logical bytes of the segment of sequence [s] as a reader that opens
    it finds them: the raw file if there is one, else the compressed file
    decoded. *)
Definition logical (fs : Dir) (s : Z) : list byte * bool :=
  match fs !! segment_name s false with
  | Some data => (data, false)
  | None =>
      match fs !! segment_name s true with
      | Some data => snappy_decode data
      | None => ([], false)
      end
  end.

(** Two readers, each on its directory, that stand at the same place of the
    same logical stream. *)
Definition same_view (fs fs' : Dir) (r r' : Reader) : Prop :=
  fileSequence (r_fb r) = fileSequence (r_fb r')
  /\ position (r_fb r) = position (r_fb r')
  /\ consumed r = consumed r'
  /\ 0 <= fileSequence (r_fb r) < 2 ^ 63
  /\ stream r fs = stream r' fs'.

(** The results of one turn of [Read] on the two sides. *)
Definition step_same (fs fs' : Dir) (a b : step_result) : Prop :=
  match a, b with
  | st_continue pc r, st_continue pc' r' =>
      pc = pc' /\ same_view fs fs' r r'
  | st_sleep, st_sleep => True
  | st_return x r, st_return x' r' => x = x' /\ same_view fs fs' r r'
  | _, _ => False
  end.

(** The results of a call of [Read] on the two sides. *)
Definition result_same (fs fs' : Dir)
  (a b : option Read_result) : Prop :=
  match a, b with
  | Some (rd_ok x r), Some (rd_ok x' r') =>
      x = x' /\ same_view fs fs' r r'
  | Some (rd_blocked pc r), Some (rd_blocked pc' r') =>
      pc = pc' /\ same_view fs fs' r r'
  | None, None => True
  | _, _ => False
  end.

(** The results of [NewReader] on the two sides. *)
Definition NewReader_same (fs fs' : Dir)
  (a b : NewReader_result) : Prop :=
  match a, b with
  | nr_ok r, nr_ok r' => same_view fs fs' r r'
  | nr_err e, nr_err e' => e = e'
  | nr_sleep, nr_sleep => True
  | _, _ => False
  end.

(** Two directories that hold the same log: the same sequences, and for each
    the same logical bytes. *)
Definition same_log (fs fs' : Dir) : Prop :=
  canonical_dir fs /\ canonical_dir fs'
  /\ (forall s, s ∈ sequences fs <-> s ∈ sequences fs')
  /\ (forall s, logical fs s = logical fs' s).

End Snappy.

(** No raw segment has a compressed twin. *)
Definition no_twins (fs : Dir) : Prop :=
  forallb (fun name =>
             HasSuffix name compressedSuffix
             || negb (bool_decide (is_Some (fs !! (name +:+ compressedSuffix)))))
          (ReadDir fs) = true.

(** The file [name] the writer has open holds, together with the bytes
    still buffered, the bytes [content]. *)
Definition holds (wal : WAL) (fs : Dir) (name : string)
  (content : list byte) : Prop :=
  file (wal_fb wal) = Some name
  /\ exists flushed, fs !! name = Some flushed /\ flushed ++ writer wal = content.

(** A step of the writer that leaves every other file, the sequence and the
    sync mode as they are. *)
Definition same_but (wal : WAL) (fs : Dir) (wal' : WAL)
  (fs' : Dir) (name : string) : Prop :=
  fileSequence (wal_fb wal') = fileSequence (wal_fb wal)
  /\ syncImmediate wal' = syncImmediate wal
  /\ forall x, x <> name -> fs' !! x = fs !! x.

(** ** The log as a list of segments *)

(** A segment of the log: its sequence and the records written to it. *)
Record segment : Type := mkSegment {
  seg_seq : Z;
  seg_records : list (list byte)
}.

(** A record as [Write] frames it: four bytes of length, then the payload. *)
Definition frame (rec : list byte) : list byte :=
  PutUint32 (uint32 (Z.of_nat (length rec))) ++ rec.

Definition frames (recs : list (list byte)) : list byte :=
  concat (map frame recs).

Definition records_of (segs : list segment) : list (list byte) :=
  concat (map seg_records segs).

(** The bytes of a segment once everything written to it has reached the
    file: its frames and, after the rollover, the sentinel. *)
Definition ideal (closed : bool) (seg : segment) : list byte :=
  frames (seg_records seg) ++ (if closed then sentinelBytes else []).

(** The writer [wal] and the directory [fs] hold the log made of the
    segments [closed], oldest first, and of the active segment [cur]. *)
Definition log_inv (closed : list segment) (cur : segment) (wal : WAL) (fs : Dir)
  : Prop :=
  file (wal_fb wal) = Some (sequenceToFilename (seg_seq cur))
  /\ fileSequence (wal_fb wal) = seg_seq cur
  /\ StronglySorted Z.lt (map seg_seq (closed ++ [cur]))
  /\ Forall (fun s => 0 < s < 2 ^ 63) (map seg_seq (closed ++ [cur]))
  /\ Forall (fun seg => fs !! sequenceToFilename (seg_seq seg)
                         = Some (ideal true seg)) closed
  /\ (exists flushed,
        fs !! sequenceToFilename (seg_seq cur) = Some flushed
        /\ flushed ++ writer wal = frames (seg_records cur))
  /\ (forall name, is_Some (fs !! name) ->
        exists seg, seg ∈ closed ++ [cur]
                    /\ name = sequenceToFilename (seg_seq seg))
  /\ Forall (fun rec => 0 < Z.of_nat (length rec) < 2 ^ 32)
            (records_of (closed ++ [cur])).

(** The reader [r], at [pc] inside a call of [Read], stands in the [i]-th
    segment of the log, of which it has yet to return the records [here]. *)
Definition reader_in (closed : list segment) (cur : segment)
  (i : nat) (here : list (list byte)) (pc : Read_pc) (r : Reader) : Prop :=
  exists seg : segment,
    (closed ++ [cur]) !! i = Some seg
    /\ r_fb r = mkFilebased (Some (sequenceToFilename (seg_seq seg))) false
                            (seg_seq seg) (position (r_fb r))
    /\ (consumed r <= length (ideal (bool_decide (i < length closed)%nat) seg))%nat
    /\ let tail := if bool_decide (i < length closed)%nat
                   then sentinelBytes else [] in
       let rest := drop (consumed r)
                        (ideal (bool_decide (i < length closed)%nat) seg) in
       match pc with
       | at_length lenBuf =>
           (length lenBuf < 4)%nat /\ lenBuf ++ rest = frames here ++ tail
       | at_advance =>
           (i < length closed)%nat /\ rest = [] /\ here = []
       | at_data len b =>
           exists rec others,
             here = rec :: others /\ len = Z.of_nat (length rec)
             /\ (length b < length rec)%nat
             /\ b ++ rest = rec ++ frames others ++ tail
       end.

(** The records of the log such a reader has not returned yet, in order. *)
Definition pending_of (closed : list segment) (cur : segment)
  (i : nat) (here : list (list byte)) : list (list byte) :=
  here ++ records_of (drop (S i) (closed ++ [cur])).

(** A bound on the turns of [Read] it takes such a reader to get to the end
    of the log: the bytes ahead of it, and one turn of [advance] for each
    later segment. *)
Definition turns_left (closed : list segment) (cur : segment)
  (i : nat) (r : Reader) : nat :=
  (length (ideal (bool_decide (i < length closed)%nat)
                 (default cur ((closed ++ [cur]) !! i)))
   - consumed r)
  + length (concat (map (ideal true) (drop (S i) (closed ++ [cur]))))
  + length (drop (S i) (closed ++ [cur])).

(** How a call of [Write] with payload records [new] (none or one) changes
    the log: the records go to the active segment, which then stays active
    or is closed and followed by a new, empty active segment. *)
Definition log_grows (closed : list segment) (cur : segment)
  (new : list (list byte)) (next : Z)
  (closed' : list segment) (cur' : segment) : Prop :=
  let cur1 := mkSegment (seg_seq cur) (seg_records cur ++ new) in
  (closed' = closed /\ cur' = cur1)
  \/ (closed' = closed ++ [cur1] /\ cur' = mkSegment next []).

(** ** Writer and reader side by side *)

(** What can happen next: a call of [Write] (with the reading of the clock
    it would get), a sync of the writer (the background loop), or one turn of
    the reader inside [Read]. *)
Inductive event : Type :=
| ev_Write (now : Z) (bufs : list (list byte))
| ev_sync
| ev_Read_turn (chunk : nat).

(** The writer, the directory and one reader that calls [Read] again and
    again; [sys_records] are the records its calls have returned. *)
Record system : Type := mkSystem {
  sys_wal : WAL;
  sys_fs : Dir;
  sys_pc : Read_pc;
  sys_reader : Reader;
  sys_records : list (list byte);
  sys_err : option error
}.




(** A stand-in for the Snappy codec in the examples: a marker byte, then the
    bytes as they are. *)
Definition stored_encode (data : list byte) : list byte := Byte.xff :: data.

Definition stored_decode (data : list byte) : list byte * bool :=
  match data with
  | [] => ([], false)
  | marker :: rest =>
      if Byte.eqb marker Byte.xff then (rest, false) else ([], true)
  end.


Section System.

Variable snappy_decode : list byte -> list byte * bool.
Variable maxSegmentSize : Z.

(** One event. A call of [Read] that has returned is followed by the next
    call; a call that returned an error ends the reader. *)
Definition sys_step (s : system) (e : event) : system :=
  match e with
  | ev_Write now bufs =>
      let '(_, wal, fs) := Write maxSegmentSize now (sys_wal s) (sys_fs s) bufs in
      mkSystem wal fs (sys_pc s) (sys_reader s) (sys_records s) (sys_err s)
  | ev_sync =>
      let '(wal, fs) := doSync (sys_wal s) (sys_fs s) in
      mkSystem wal fs (sys_pc s) (sys_reader s) (sys_records s) (sys_err s)
  | ev_Read_turn chunk =>
      match sys_err s with
      | Some _ => s
      | None =>
          match Read_step snappy_decode (sys_wal s) (sys_fs s) chunk
                          (sys_pc s) (sys_reader s) with
          | st_continue pc r =>
              mkSystem (sys_wal s) (sys_fs s) pc r (sys_records s) None
          | st_sleep => s
          | st_return b r =>
              mkSystem (sys_wal s) (sys_fs s) (at_length []) r
                       (sys_records s ++ [b]) None
          | st_fail e r =>
              mkSystem (sys_wal s) (sys_fs s) (sys_pc s) r (sys_records s) (Some e)
          end
      end
  end.

Definition sys_run (s : system) (evs : list event) : system :=
  foldl sys_step s evs.

(** The start: the writer opens an empty directory, and a reader is made
    with a nil offset before anything is written. *)
Definition sys_init (now0 syncInterval : Z) : option system :=
  match Open now0 syncInterval ∅ with
  | (Some wal, fs, _) =>
      match NewReader snappy_decode None fs with
      | nr_ok r => Some (mkSystem wal fs (at_length []) r [] None)
      | _ => None
      end
  | _ => None
  end.

End System.


(** ** Small logs for the examples *)

Definition hello : list byte :=
  [Byte.x68; Byte.x65; Byte.x6c; Byte.x6c; Byte.x6f].

Definition world : list byte :=
  [Byte.x77; Byte.x6f; Byte.x72; Byte.x6c; Byte.x64].

(** Two segments: a closed one with the record [hello], and the active one
    with the record [world]; the writer behind them has flushed. *)
Definition two_segments : Dir :=
  <[sequenceToFilename 5000 := frame hello ++ sentinelBytes]>
    (<[sequenceToFilename 9000 := frame world]> ∅).

Definition two_segments_writer : WAL :=
  mkWAL (mkFilebased (Some (sequenceToFilename 9000)) false 9000 9) true [].


(** A reader in the first segment that has read [n] bytes of it. *)
Definition reader_in_first (n : nat) : Reader :=
  mkReader (mkFilebased (Some (sequenceToFilename 5000)) false 5000 (Z.of_nat n)) n.

(** A call of [r.reader.Read] that gives all the bytes it is asked for. *)
Definition whole_reads : nat -> nat := fun _ => 4096%nat.


(** Two calls of [Write] with the reader at work in between, a sync and a
    turn of the reader; with segments of eight bytes both calls roll over. *)
Definition rolling_events : list event :=
  [ev_Write 6000000 [hello]; ev_Read_turn 3; ev_Write 7000000 [world];
   ev_sync; ev_Read_turn 4096].

(** ** What the retention loops pick *)

(** The names the loop of [CompressBefore] compresses, as it goes through
    the listing: it stops at the last name and at the first name at or above
    the cutoff, and passes over the names of compressed files. *)
Fixpoint compress_picks (cutoff : string) (files : list string) : list string :=
  match files with
  | [] => []
  | name :: rest =>
      if bool_decide (rest = []) || String.leb cutoff name then []
      else if HasSuffix name compressedSuffix then compress_picks cutoff rest
      else name :: compress_picks cutoff rest
  end.

(** The same as a test on a name of the directory [fs]: a raw file below
    the cutoff that is not the last of the listing. *)
Definition compressible (cutoff : string) (fs : Dir) (name : string) : bool :=
  bool_decide (is_Some (fs !! name))
  && String.ltb name cutoff
  && negb (bool_decide (last (ReadDir fs) = Some name))
  && negb (HasSuffix name compressedSuffix).

(** ** A reader settled in a segment *)

(** The reader [r] has the file of a segment of [fs] open, the raw one if
    there is one, its position counts the bytes it has consumed of it, and
    its sequence is one that [NewReader] does not rescale. *)
Definition reader_settled (snappy_decode : list byte -> list byte * bool)
  (fs : Dir) (r : Reader) : Prop :=
  exists s z,
    r_fb r = mkFilebased (Some (segment_name s z)) z s (Z.of_nat (consumed r))
    /\ 0 <= s < 10 ^ 18
    /\ is_Some (fs !! segment_name s z)
    /\ (z = true -> fs !! segment_name s false = None)
    /\ (consumed r <= length (fst (stream snappy_decode r fs)))%nat.

Lemma Bytes_to_Z_range b : 0 <= Bytes.to_Z b < 256.
Proof.
  unfold Bytes.to_Z. pose proof (Byte.to_N_bounded b) as H. lia.
Qed.

Lemma Bytes_to_of_Z v : Bytes.to_Z (Bytes.of_Z v) = v mod 256.
Proof.
  unfold Bytes.to_Z, Bytes.of_Z.
  assert (Hr : 0 <= v mod 256 < 256) by (apply Z.mod_pos_bound; lia).
  destruct (Byte.of_N (Z.to_N (v mod 256))) as [b|] eqn:E.
  - apply Byte.to_of_N in E. rewrite E. lia.
  - apply Byte.of_N_None_iff in E. lia.
Qed.

Lemma Bytes_of_to_Z b : Bytes.of_Z (Bytes.to_Z b) = b.
Proof.
  unfold Bytes.of_Z, Bytes.to_Z. pose proof (Bytes_to_Z_range b) as Hr. unfold Bytes.to_Z in Hr.
  rewrite Z.mod_small by lia. rewrite N2Z.id, Byte.of_to_N. reflexivity.
Qed.

Lemma int64_small v : - 2 ^ 63 <= v < 2 ^ 63 -> int64 v = v.
Proof. intros H. unfold int64. rewrite Z.mod_small; lia. Qed.

Lemma uint32_small v : 0 <= v < 2 ^ 32 -> uint32 v = v.
Proof. intros H. unfold uint32. apply Z.mod_small. lia. Qed.

Lemma lor_shiftl_add a b k :
  0 <= k -> 0 <= a < 2 ^ k -> Z.lor a (Z.shiftl b k) = a + b * 2 ^ k.
Proof.
  intros Hk Ha. rewrite <- Z.shiftl_mul_pow2 by lia.
  symmetry. apply Z.add_nocarry_lor.
  apply Z.bits_inj'. intros n Hn. rewrite Z.land_spec, Z.bits_0.
  destruct (Z.ltb_spec n k).
  - rewrite Z.shiftl_spec_low by lia. apply andb_false_r.
  - destruct (Z.eq_dec a 0) as [->|Hne]; [rewrite Z.bits_0; reflexivity|].
    rewrite Z.bits_above_log2; [reflexivity|lia|].
    assert (Z.log2 a < k) by (apply Z.log2_lt_pow2; lia). lia.
Qed.

Lemma Uint32_eq b0 b1 b2 b3 :
  Uint32 [b0; b1; b2; b3] =
  Bytes.to_Z b3 + Bytes.to_Z b2 * 2 ^ 8 + Bytes.to_Z b1 * 2 ^ 16
  + Bytes.to_Z b0 * 2 ^ 24.
Proof.
  pose proof (Bytes_to_Z_range b0). pose proof (Bytes_to_Z_range b1).
  pose proof (Bytes_to_Z_range b2). pose proof (Bytes_to_Z_range b3).
  unfold Uint32.
  rewrite (lor_shiftl_add (Bytes.to_Z b3)) by lia.
  rewrite (lor_shiftl_add (_ + _)) by lia.
  rewrite (lor_shiftl_add (_ + _)) by lia.
  reflexivity.
Qed.


(** Decoding an encoded length gives the length back, truncated to 32 bits. *)
Lemma Uint32_PutUint32 v : Uint32 (PutUint32 v) = uint32 v.
Proof.
  unfold PutUint32. rewrite Uint32_eq, !Bytes_to_of_Z.
  rewrite !Z.shiftr_div_pow2 by lia. unfold uint32.
  change (2 ^ 32) with (2 ^ 8 * (2 ^ 8 * (2 ^ 8 * 2 ^ 8))).
  rewrite !Z.rem_mul_r by lia.
  rewrite !Z.div_div by lia.
  change (2 ^ 8 * 2 ^ 8) with (2 ^ 16). change (2 ^ 16 * 2 ^ 8) with (2 ^ 24).
  change (2 ^ 8) with 256. lia.
Qed.

Lemma PutUint32_length v : length (PutUint32 v) = 4%nat.
Proof. reflexivity. Qed.

Example sequenceToFilename_42 :
  sequenceToFilename 42 = "0000000000000000042"%string.
Proof. reflexivity. Qed.

Example sequenceToFilename_neg :
  sequenceToFilename (-5) = "-000000000000000005"%string.
Proof. reflexivity. Qed.

Example sequenceToFilename_min :
  sequenceToFilename (- 2 ^ 63) = "-9223372036854775808"%string.
Proof. reflexivity. Qed.

Example filenameToSequence_snappy :
  filenameToSequence "0000001234567890123.snappy" = 1234567890123.
Proof. reflexivity. Qed.

Example filenameToSequence_junk : filenameToSequence "notes.txt" = 0.
Proof. reflexivity. Qed.

Example filenameToSequence_big : filenameToSequence "9999999999999999999" = 0.
Proof. reflexivity. Qed.

Lemma N_of_digit d : 0 <= d <= 9 -> Z.of_N (N_of_ascii (digit d)) = 48 + d.
Proof.
  intros Hd. unfold digit. rewrite N_ascii_embedding; lia.
Qed.

Lemma digit_val_digit d : 0 <= d <= 9 -> digit_val (digit d) = Some d.
Proof.
  intros Hd. unfold digit_val. cbv zeta. rewrite N_of_digit by lia.
  destruct (Z.leb_spec 48 (48 + d)); [|lia].
  destruct (Z.leb_spec (48 + d) 57); [|lia].
  simpl. f_equal. lia.
Qed.

Lemma is_digit_digit d : 0 <= d <= 9 -> is_digit (digit d) = true.
Proof.
  intros Hd. unfold is_digit. cbv zeta. rewrite N_of_digit by lia.
  apply andb_true_intro. split; apply Z.leb_le; lia.
Qed.

Lemma mod10_range n : 0 <= n mod 10 <= 9.
Proof. pose proof (Z.mod_pos_bound n 10). lia. Qed.

Lemma pad_digits_length w n : String.length (pad_digits w n) = w.
Proof. induction w as [|w IH]; simpl; [reflexivity|]. now rewrite IH. Qed.

Lemma pad_digits_all_digits w n : all_digits (pad_digits w n) = true.
Proof.
  induction w as [|w IH]; simpl; [reflexivity|].
  rewrite is_digit_digit by apply mod10_range. exact IH.
Qed.

Lemma parse_digits_pad w : forall acc n,
  parse_digits acc (pad_digits w n) = Some (acc * 10 ^ Z.of_nat w + n mod 10 ^ Z.of_nat w).
Proof.
  induction w as [|w IH]; intros acc n.
  - simpl. rewrite Z.mod_1_r. f_equal. lia.
  - cbn [pad_digits parse_digits]. rewrite digit_val_digit by apply mod10_range.
    rewrite IH. f_equal.
    rewrite Nat2Z.inj_succ, Z.pow_succ_r by lia.
    rewrite (Z.mul_comm 10 (10 ^ Z.of_nat w)).
    assert (0 < 10 ^ Z.of_nat w) by (apply Z.pow_pos_nonneg; lia).
    rewrite Z.rem_mul_r by lia. lia.
Qed.

Lemma pad_digits_compare w : forall a b,
  String.compare (pad_digits w a) (pad_digits w b)
  = Z.compare (a mod 10 ^ Z.of_nat w) (b mod 10 ^ Z.of_nat w).
Proof.
  induction w as [|w IH]; intros a b.
  - simpl. rewrite !Z.mod_1_r. reflexivity.
  - cbn [pad_digits String.compare].
    set (P := 10 ^ Z.of_nat w).
    assert (HP : 0 < P) by (apply Z.pow_pos_nonneg; lia).
    rewrite Nat2Z.inj_succ, Z.pow_succ_r by lia. fold P.
    rewrite (Z.mul_comm 10 P), !Z.rem_mul_r by lia.
    pose proof (mod10_range (a / P)) as Ha. pose proof (mod10_range (b / P)) as Hb.
    pose proof (Z.mod_pos_bound a P HP) as Hla.
    pose proof (Z.mod_pos_bound b P HP) as Hlb.
    set (da := (a / P) mod 10) in *. set (db := (b / P) mod 10) in *.
    unfold Ascii.compare.
    rewrite <- N2Z.inj_compare, !N_of_digit by lia.
    destruct (Z.compare_spec (48 + da) (48 + db)) as [E|E|E].
    + rewrite IH. fold P. assert (da = db) as -> by lia.
      destruct (Z.compare_spec (a mod P) (b mod P));
        symmetry; [apply Z.compare_eq_iff | apply Z.compare_lt_iff | apply Z.compare_gt_iff]; lia.
    + symmetry. apply Z.compare_lt_iff. nia.
    + symmetry. apply Z.compare_gt_iff. nia.
Qed.

Lemma app_String c s t : String c s +:+ t = String c (s +:+ t).
Proof. reflexivity. Qed.

Lemma string_app_empty_r s : s +:+ EmptyString = s.
Proof. induction s as [|c s IH]; [reflexivity|]. rewrite app_String, IH. reflexivity. Qed.

Lemma string_length_app s t :
  String.length (s +:+ t) = (String.length s + String.length t)%nat.
Proof. induction s as [|c s IH]; [reflexivity|]. rewrite app_String. simpl. now rewrite IH. Qed.

Lemma substring_app_l s t : String.substring 0 (String.length s) (s +:+ t) = s.
Proof.
  induction s as [|c s IH].
  - simpl. destruct t; reflexivity.
  - rewrite app_String. simpl. now rewrite IH.
Qed.

Lemma is_digit_neq c (d : ascii) : is_digit c = true -> is_digit d = false -> Ascii.eqb c d = false.
Proof.
  intros Hc Hd. destruct (Ascii.eqb_spec c d) as [->|]; [congruence|reflexivity].
Qed.

Lemma HasSuffix_app s suffix : HasSuffix (s +:+ suffix) suffix = true.
Proof.
  induction s as [|c s IH].
  - destruct suffix; simpl; rewrite ?Ascii.eqb_refl, ?String.eqb_refl; reflexivity.
  - rewrite app_String. cbn [HasSuffix]. rewrite IH. apply orb_true_r.
Qed.

Lemma TrimSuffix_app s suffix : TrimSuffix (s +:+ suffix) suffix = s.
Proof.
  unfold TrimSuffix. rewrite HasSuffix_app, string_length_app.
  replace (String.length s + String.length suffix - String.length suffix)%nat
    with (String.length s) by lia.
  apply substring_app_l.
Qed.

Lemma HasSuffix_digits s : all_digits s = true -> HasSuffix s compressedSuffix = false.
Proof.
  induction s as [|c s IH]; intros H; [reflexivity|].
  simpl in H. apply andb_prop in H as [Hc Hs].
  cbn [HasSuffix]. rewrite (IH Hs), orb_false_r.
  unfold compressedSuffix. cbn [String.eqb].
  rewrite (is_digit_neq c "."%char Hc eq_refl). reflexivity.
Qed.

Lemma TrimSuffix_digits s : all_digits s = true -> TrimSuffix s compressedSuffix = s.
Proof. intros H. unfold TrimSuffix. now rewrite HasSuffix_digits. Qed.

Lemma after_slash_digits s t :
  all_digits s = true -> after_slash (s +:+ t) = after_slash t.
Proof.
  induction s as [|c s IH]; intros H; [reflexivity|].
  simpl in H. apply andb_prop in H as [Hc Hs].
  rewrite app_String. cbn [after_slash]. rewrite (IH Hs).
  rewrite (is_digit_neq c "/"%char Hc eq_refl).
  destruct (after_slash t); reflexivity.
Qed.

Lemma Split_file_digits s : all_digits s = true -> Split_file s = s.
Proof.
  intros H. unfold Split_file.
  rewrite <- (string_app_empty_r s) at 1. rewrite after_slash_digits by exact H. reflexivity.
Qed.

Lemma Split_file_digits_snappy s :
  all_digits s = true -> Split_file (s +:+ compressedSuffix) = s +:+ compressedSuffix.
Proof.
  intros H. unfold Split_file. rewrite after_slash_digits by exact H. reflexivity.
Qed.

Lemma ParseInt_digits s :
  all_digits s = true -> s <> EmptyString ->
  ParseInt s = match parse_digits 0 s with
               | Some un => if un <? 2 ^ 63 then Some un else None
               | None => None
               end.
Proof.
  intros H Hne. destruct s as [|c s]; [congruence|].
  simpl in H. apply andb_prop in H as [Hc Hs].
  unfold ParseInt.
  rewrite (is_digit_neq c "-"%char Hc eq_refl), (is_digit_neq c "+"%char Hc eq_refl).
  reflexivity.
Qed.

Lemma sequenceToFilename_nonneg seq :
  0 <= seq -> sequenceToFilename seq = pad_digits 19 seq.
Proof. intros H. unfold sequenceToFilename. destruct (Z.leb_spec 0 seq); [reflexivity|lia]. Qed.

Lemma ParseInt_pad19 seq : 0 <= seq < 2 ^ 63 -> ParseInt (pad_digits 19 seq) = Some seq.
Proof.
  intros H. rewrite ParseInt_digits.
  - rewrite parse_digits_pad. rewrite Z.mod_small by lia.
    rewrite Z.mul_0_l, Z.add_0_l.
    destruct (Z.ltb_spec seq (2 ^ 63)); [reflexivity|lia].
  - apply pad_digits_all_digits.
  - discriminate.
Qed.

(** Parsing a canonical name gives the sequence back. *)
Lemma filenameToSequence_sequenceToFilename seq :
  0 <= seq < 2 ^ 63 -> filenameToSequence (sequenceToFilename seq) = seq.
Proof.
  intros H. rewrite sequenceToFilename_nonneg by lia. unfold filenameToSequence.
  rewrite Split_file_digits, TrimSuffix_digits by apply pad_digits_all_digits.
  now rewrite ParseInt_pad19.
Qed.

Lemma filenameToSequence_compressed seq :
  0 <= seq < 2 ^ 63 ->
  filenameToSequence (sequenceToFilename seq +:+ compressedSuffix) = seq.
Proof.
  intros H. rewrite sequenceToFilename_nonneg by lia. unfold filenameToSequence.
  rewrite Split_file_digits_snappy by apply pad_digits_all_digits.
  rewrite TrimSuffix_app. now rewrite ParseInt_pad19.
Qed.

Lemma sequenceToFilename_compare a b :
  0 <= a < 2 ^ 63 -> 0 <= b < 2 ^ 63 ->
  String.compare (sequenceToFilename a) (sequenceToFilename b) = Z.compare a b.
Proof.
  intros Ha Hb. rewrite !sequenceToFilename_nonneg by lia.
  rewrite pad_digits_compare. rewrite !Z.mod_small by lia. reflexivity.
Qed.

Lemma compare_app_neq x y : forall u v,
  String.length x = String.length y -> String.compare x y <> Eq ->
  String.compare (x +:+ u) (y +:+ v) = String.compare x y.
Proof.
  revert y. induction x as [|c x IH]; intros [|d y] u v Hl Hne; simpl in Hl; try discriminate.
  - simpl in Hne. congruence.
  - rewrite !app_String. cbn [String.compare] in *.
    destruct (Ascii.compare c d); try reflexivity.
    apply IH; [lia|exact Hne].
Qed.

Lemma compare_app_same x : forall u v,
  String.compare (x +:+ u) (x +:+ v) = String.compare u v.
Proof.
  induction x as [|c x IH]; intros u v; [reflexivity|].
  rewrite !app_String. cbn [String.compare].
  assert (Ascii.compare c c = Eq) as ->.
  { unfold Ascii.compare. apply N.compare_refl. }
  apply IH.
Qed.

Lemma writer_Write_n wal fs p : fst (fst (writer_Write wal fs p)) = Z.of_nat (length p).
Proof. unfold writer_Write. destruct (bufio_Write (writer wal) p). reflexivity. Qed.

Lemma write_bufs_n st bufs :
  fst (fst (write_bufs st bufs)) =
  match bufs with [] => fst (fst st) | _ => Z.of_nat (length (List.last bufs [])) end.
Proof.
  revert st. induction bufs as [|b bufs IH]; intros [[n wal] fs]; [reflexivity|].
  unfold write_bufs in *. cbn [foldl]. rewrite IH.
  destruct bufs as [|b' bufs]; [|reflexivity].
  pose proof (writer_Write_n wal fs b) as H.
  destruct (writer_Write wal fs b) as [[n' wal'] fs']. exact H.
Qed.

Lemma total_length_from acc bufs :
  foldl (fun length (b : list byte) => length + Z.of_nat (List.length b)) acc bufs
  = acc + total_length bufs.
Proof.
  unfold total_length. revert acc. induction bufs as [|b bufs IH]; intros acc; cbn [foldl].
  - lia.
  - rewrite IH, (IH (0 + _)). lia.
Qed.

Lemma total_length_cons b bufs :
  total_length (b :: bufs) = Z.of_nat (length b) + total_length bufs.
Proof. unfold total_length at 1. cbn [foldl]. rewrite total_length_from. lia. Qed.

Lemma total_length_concat bufs : total_length bufs = Z.of_nat (length (concat bufs)).
Proof.
  induction bufs as [|b bufs IH]; [reflexivity|].
  rewrite total_length_cons, IH. cbn [concat]. rewrite length_app. lia.
Qed.

Lemma total_length_nonneg bufs : 0 <= total_length bufs.
Proof. rewrite total_length_concat. lia. Qed.

Lemma last_length_le bufs : Z.of_nat (length (List.last bufs [])) <= total_length bufs.
Proof.
  induction bufs as [|b bufs IH]; [simpl; reflexivity|].
  rewrite total_length_cons. destruct bufs as [|b' bufs].
  - simpl. unfold total_length. simpl. lia.
  - change (List.last (b :: b' :: bufs) []) with (List.last (b' :: bufs) []). lia.
Qed.

Lemma Write_frame_n wal fs bufs :
  fst (fst (Write_frame wal fs bufs)) =
  match bufs with
  | [] => 4
  | _ => Z.of_nat (length (List.last bufs []))
  end.
Proof.
  unfold Write_frame.
  pose proof (writer_Write_n wal fs (PutUint32 (uint32 (total_length bufs)))) as H0.
  destruct (writer_Write wal fs (PutUint32 (uint32 (total_length bufs))))
    as [[n0 wal0] fs0].
  pose proof (write_bufs_n (n0, add_position wal0 n0, fs0) bufs) as Hl.
  destruct (write_bufs (n0, add_position wal0 n0, fs0) bufs) as [[n1 wal1] fs1].
  destruct (if syncImmediate wal1 then doSync wal1 fs1 else (wal1, fs1)).
  cbn [fst] in *. rewrite Hl. destruct bufs; [exact H0|reflexivity].
Qed.

(** C8. A successful [Write] of buffers whose total length is positive
    returns the length of the last buffer, which is less than the size of
    the frame written (four bytes of length prefix plus the payload). *)
Theorem Write_returns_last_buffer maxSegmentSize now wal fs bufs n wal' fs' :
  0 < total_length bufs ->
  Write maxSegmentSize now wal fs bufs = ((n, None), wal', fs') ->
  n = Z.of_nat (length (List.last bufs [])) /\ n < 4 + total_length bufs.
Proof.
  intros Hlen HW.
  assert (Hn : n = Z.of_nat (length (List.last bufs []))).
  { unfold Write in HW.
    destruct (Z.eqb_spec (total_length bufs) 0) as [E|_]; [lia|].
    pose proof (Write_frame_n wal fs bufs) as Hl.
    destruct (Write_frame wal fs bufs) as [[n1 wal1] fs1]. cbn [fst] in Hl.
    assert (Hbufs : bufs <> [])
      by (intros ->; unfold total_length in Hlen; simpl in Hlen; lia).
    destruct bufs as [|b bufs]; [congruence|].
    destruct (maxSegmentSize <=? position (wal_fb wal1)).
    - destruct (Write_rollover now wal1 fs1) as [[wal5 fs5] [e|]]; congruence.
    - congruence. }
  split; [exact Hn|]. pose proof (last_length_le bufs). lia.
Qed.

(** *** Sequences of the writer's segments *)









(** *** The listing *)

Lemma ReadDir_elem_of (fs : gmap string (list byte)) name :
  name ∈ ReadDir fs <-> is_Some (fs !! name).
Proof.
  unfold ReadDir. rewrite merge_sort_Permutation, elem_of_elements.
  apply elem_of_dom.
Qed.

Lemma ReadDir_NoDup (fs : gmap string (list byte)) : NoDup (ReadDir fs).
Proof.
  unfold ReadDir. rewrite merge_sort_Permutation. apply NoDup_elements.
Qed.

Lemma ReadDir_sorted (fs : gmap string (list byte)) :
  StronglySorted String.le (ReadDir fs).
Proof. apply StronglySorted_merge_sort; apply _. Qed.

Lemma ReadDir_length (fs : gmap string (list byte)) : length (ReadDir fs) = size fs.
Proof.
  unfold ReadDir. rewrite merge_sort_Permutation.
  rewrite <- size_dom. reflexivity.
Qed.

Lemma ltb_negb_leb a b : String.ltb a b = negb (String.leb b a).
Proof.
  unfold String.ltb, String.leb. rewrite (String.compare_antisym b a).
  destruct (String.compare a b); reflexivity.
Qed.

Lemma le_leb a b : String.le a b <-> String.leb a b = true.
Proof. unfold String.le. apply Is_true_true. Qed.

Lemma last_cons_ne {A} (x : A) l : l <> [] -> last (x :: l) = last l.
Proof. destruct l; [congruence|reflexivity]. Qed.

Lemma truncate_loop_spec cutoff files : forall (fs : gmap string (list byte)),
  StronglySorted String.le files -> NoDup files ->
  (forall name, name ∈ files -> is_Some (fs !! name)) ->
  exists fs', truncate_loop cutoff files fs = (fs', None) /\
    forall name,
      fs' !! name =
      if bool_decide (name ∈ files) && String.ltb name cutoff
         && negb (bool_decide (last files = Some name))
      then None else fs !! name.
Proof.
  induction files as [|f rest IH]; intros fs Hs Hnd Hin.
  - exists fs. split; [reflexivity|]. intros name.
    rewrite bool_decide_eq_false_2; [reflexivity|]. apply not_elem_of_nil.
  - apply StronglySorted_inv in Hs as [Hs Hall].
    apply NoDup_cons in Hnd as [Hf Hnd].
    cbn [truncate_loop].
    destruct (bool_decide (rest = []) || String.leb cutoff f) eqn:Hbrk.
    + exists fs. split; [reflexivity|]. intros name.
      destruct (bool_decide (name ∈ f :: rest) && String.ltb name cutoff
                && negb (bool_decide (last (f :: rest) = Some name))) eqn:E;
        [|reflexivity].
      exfalso. apply andb_prop in E as [E Hl]. apply andb_prop in E as [Hm Hlt].
      apply bool_decide_eq_true_1 in Hm. apply negb_true_iff in Hl.
      apply bool_decide_eq_false_1 in Hl.
      apply orb_prop in Hbrk as [Hr|Hc].
      * apply bool_decide_eq_true_1 in Hr. subst rest.
        apply list_elem_of_singleton in Hm. subst name. apply Hl. reflexivity.
      * rewrite ltb_negb_leb in Hlt. apply negb_true_iff in Hlt.
        assert (Hle : String.le cutoff name).
        { apply elem_of_cons in Hm as [->|Hm].
          - apply le_leb. exact Hc.
          - etrans; [apply le_leb; exact Hc|].
            rewrite Forall_forall in Hall. apply Hall. exact Hm. }
        apply le_leb in Hle. congruence.
    + apply orb_false_elim in Hbrk as [Hr Hc].
      apply bool_decide_eq_false_1 in Hr.
      assert (Hff : is_Some (fs !! f)) by (apply Hin; left).
      unfold os_Remove. destruct Hff as [data Hdata]. rewrite Hdata.
      destruct (IH (delete f fs) Hs Hnd) as (fs' & Hrun & Hlook).
      { intros name Hm. rewrite lookup_delete_ne by (intros ->; contradiction).
        apply Hin. right. exact Hm. }
      exists fs'. split; [exact Hrun|]. intros name. rewrite Hlook.
      rewrite (last_cons_ne f rest Hr).
      destruct (decide (name = f)) as [->|Hne].
      * rewrite (bool_decide_eq_false_2 (f ∈ rest)) by exact Hf.
        rewrite (bool_decide_eq_true_2 (f ∈ f :: rest)) by left.
        rewrite ltb_negb_leb, Hc.
        rewrite (bool_decide_eq_false_2 (last rest = Some f)).
        { cbn. apply lookup_delete_eq. }
        intros Hl. apply Hf. apply last_Some_elem_of. exact Hl.
      * rewrite lookup_delete_ne by congruence.
        assert (Hiff : bool_decide (name ∈ rest) = bool_decide (name ∈ f :: rest)).
        { apply bool_decide_ext. rewrite elem_of_cons. split; [auto|].
          intros [?|?]; [congruence|assumption]. }
        rewrite Hiff. reflexivity.
Qed.

Lemma StronglySorted_last_max (l : list string) m :
  StronglySorted String.le l -> last l = Some m ->
  forall x, x ∈ l -> String.le x m.
Proof.
  induction l as [|a l IH]; intros Hs Hl x Hx; [discriminate|].
  apply StronglySorted_inv in Hs as [Hs Hall].
  destruct l as [|b l].
  - simpl in Hl. injection Hl as <-. apply list_elem_of_singleton in Hx as ->. reflexivity.
  - change (last (a :: b :: l)) with (last (b :: l)) in Hl.
    apply elem_of_cons in Hx as [->|Hx].
    + rewrite Forall_forall in Hall. apply Hall.
      apply last_Some_elem_of. exact Hl.
    + apply IH; assumption.
Qed.

(** C4. [TruncateBefore(offset)] succeeds and removes exactly the files whose
    name is lexicographically below [sequenceToFilename(offset.FileSequence())],
    except the last file of the sorted listing, which is the highest-named
    one and always stays. A file named like the cutoff stays, and a
    directory of at most one file is left as it is. *)
Theorem TruncateBefore_removes_below_cutoff (o : Offset) (fs : gmap string (list byte)) :
  let cutoff := sequenceToFilename (FileSequence o) in
  exists fs',
    TruncateBefore o fs = (fs', None) /\
    (forall name,
       fs' !! name =
       if String.ltb name cutoff
          && negb (bool_decide (last (ReadDir fs) = Some name))
       then None else fs !! name) /\
    (forall m, last (ReadDir fs) = Some m ->
       fs' !! m = fs !! m /\ is_Some (fs !! m) /\
       forall name, is_Some (fs !! name) -> String.leb name m = true) /\
    fs' !! cutoff = fs !! cutoff /\
    (size fs <= 1 -> fs' = fs)%nat.
Proof.
  intros cutoff. unfold TruncateBefore. fold cutoff.
  destruct (truncate_loop_spec cutoff (ReadDir fs) fs (ReadDir_sorted fs)
              (ReadDir_NoDup fs)) as (fs' & Hrun & Hlook).
  { intros name. apply ReadDir_elem_of. }
  assert (Hlook' : forall name,
       fs' !! name =
       if String.ltb name cutoff
          && negb (bool_decide (last (ReadDir fs) = Some name))
       then None else fs !! name).
  { intros name. rewrite Hlook.
    destruct (decide (name ∈ ReadDir fs)) as [Hm|Hm].
    - rewrite (bool_decide_eq_true_2 _ Hm). reflexivity.
    - rewrite (bool_decide_eq_false_2 _ Hm). cbn.
      assert (fs !! name = None) as ->.
      { apply eq_None_not_Some. intros H. apply Hm, ReadDir_elem_of, H. }
      destruct (_ && _); reflexivity. }
  exists fs'. split; [exact Hrun|]. split; [exact Hlook'|]. split; [|split].
  - intros m Hm. split; [|split].
    + rewrite Hlook'. rewrite (bool_decide_eq_true_2 _ Hm).
      rewrite andb_false_r. reflexivity.
    + apply ReadDir_elem_of. apply last_Some_elem_of. exact Hm.
    + intros name Hname. apply le_leb.
      apply (StronglySorted_last_max (ReadDir fs)); [apply ReadDir_sorted|exact Hm|].
      apply ReadDir_elem_of. exact Hname.
  - rewrite Hlook'. rewrite ltb_negb_leb.
    assert (String.leb cutoff cutoff = true) as ->; [|reflexivity].
    apply le_leb. reflexivity.
  - intros Hsz. apply map_eq. intros name. rewrite Hlook'.
    destruct (String.ltb name cutoff
              && negb (bool_decide (last (ReadDir fs) = Some name))) eqn:E;
      [|reflexivity].
    apply andb_prop in E as [_ E]. apply negb_true_iff in E.
    apply bool_decide_eq_false_1 in E.
    symmetry. apply eq_None_not_Some. intros Hs.
    apply ReadDir_elem_of in Hs.
    pose proof (ReadDir_length fs) as Hlen.
    destruct (ReadDir fs) as [|a [|b l]].
    + inversion Hs.
    + apply list_elem_of_singleton in Hs as ->. apply E. reflexivity.
    + simpl in Hlen. lia.
Qed.

Example TruncateBefore_keeps_last :
  ReadDir (fst (TruncateBefore (newOffset 9 0)
     (<[sequenceToFilename 3 := []]> (<[sequenceToFilename 5 := []]>
        (<[sequenceToFilename 7 := []]> ∅)))))
  = [sequenceToFilename 7].
Proof. vm_compute. reflexivity. Qed.

(** *** Canonical names and their order *)

Lemma parse_digits_nonneg s : forall acc v,
  0 <= acc -> parse_digits acc s = Some v -> 0 <= v.
Proof.
  induction s as [|d s IH]; intros acc v Hacc; simpl.
  - intros [= <-]. exact Hacc.
  - unfold digit_val. cbv zeta.
    destruct ((48 <=? Z.of_N (N_of_ascii d)) && (Z.of_N (N_of_ascii d) <=? 57)) eqn:Hd;
      [|discriminate].
    apply andb_prop in Hd as [H1 H2]. apply IH. lia.
Qed.

Lemma ParseInt_range s v : ParseInt s = Some v -> - 2 ^ 63 <= v < 2 ^ 63.
Proof.
  unfold ParseInt. destruct s as [|c rest]; [discriminate|].
  destruct (if (Ascii.eqb c "+" || Ascii.eqb c "-")%bool then rest else String c rest)
    as [|c' rest']; [discriminate|].
  destruct (parse_digits 0 (String c' rest')) as [un|] eqn:E; [|discriminate].
  apply parse_digits_nonneg in E; [|lia].
  destruct (Ascii.eqb c "-").
  - destruct (Z.leb_spec un (2 ^ 63)); [|discriminate]. intros [= <-]. lia.
  - destruct (Z.ltb_spec un (2 ^ 63)); [|discriminate]. intros [= <-]. lia.
Qed.

Lemma filenameToSequence_range name :
  - 2 ^ 63 <= filenameToSequence name < 2 ^ 63.
Proof.
  unfold filenameToSequence.
  destruct (ParseInt _) as [v|] eqn:E; [apply (ParseInt_range _ _ E)|lia].
Qed.

Lemma canonicalb_spec name :
  canonicalb name = true <->
  exists seq snappy, 0 <= seq < 2 ^ 63 /\ name = segment_name seq snappy.
Proof.
  split.
  - unfold canonicalb. cbv zeta. intros H. apply andb_prop in H as [H0 H].
    apply Z.leb_le in H0. pose proof (filenameToSequence_range name).
    apply orb_prop in H as [H|H]; apply String.eqb_eq in H;
      eexists _, _; (split; [|exact H]); lia.
  - intros (seq & snappy & Hr & ->). unfold canonicalb. cbv zeta.
    assert (Hs : filenameToSequence (segment_name seq snappy) = seq).
    { destruct snappy; [apply filenameToSequence_compressed|
                        apply filenameToSequence_sequenceToFilename]; exact Hr. }
    rewrite Hs. apply andb_true_intro. split; [apply Z.leb_le; lia|].
    destruct snappy; rewrite String.eqb_refl; [apply orb_true_r|reflexivity].
Qed.

Lemma filenameToSequence_segment_name seq snappy :
  0 <= seq < 2 ^ 63 -> filenameToSequence (segment_name seq snappy) = seq.
Proof.
  intros Hr. destruct snappy;
    [apply filenameToSequence_compressed|apply filenameToSequence_sequenceToFilename];
    exact Hr.
Qed.

Lemma sequenceToFilename_length seq :
  0 <= seq -> String.length (sequenceToFilename seq) = 19%nat.
Proof. intros H. rewrite sequenceToFilename_nonneg by exact H. apply pad_digits_length. Qed.

Lemma segment_name_app seq snappy :
  segment_name seq snappy
  = sequenceToFilename seq +:+ (if snappy then compressedSuffix else EmptyString).
Proof. destruct snappy; [reflexivity|]. symmetry. apply string_app_empty_r. Qed.

(** Names compare like their sequences; at equal sequences the raw name
    comes first. *)
Lemma segment_name_compare a za b zb :
  0 <= a < 2 ^ 63 -> 0 <= b < 2 ^ 63 ->
  String.compare (segment_name a za) (segment_name b zb) =
  match Z.compare a b with
  | Eq => String.compare (if za then compressedSuffix else EmptyString)
                         (if zb then compressedSuffix else EmptyString)
  | c => c
  end.
Proof.
  intros Ha Hb. rewrite !segment_name_app.
  destruct (Z.compare_spec a b) as [->|Hlt|Hgt].
  - apply compare_app_same.
  - rewrite compare_app_neq.
    + rewrite sequenceToFilename_compare by lia. apply Z.compare_lt_iff. exact Hlt.
    + rewrite !sequenceToFilename_length by lia. reflexivity.
    + rewrite sequenceToFilename_compare by lia.
      rewrite (proj2 (Z.compare_lt_iff a b) Hlt). discriminate.
  - rewrite compare_app_neq.
    + rewrite sequenceToFilename_compare by lia. apply Z.compare_gt_iff. exact Hgt.
    + rewrite !sequenceToFilename_length by lia. reflexivity.
    + rewrite sequenceToFilename_compare by lia.
      rewrite (proj2 (Z.compare_gt_iff a b) Hgt). discriminate.
Qed.

(** [name >= cutoff] in [NewReader]. *)
Lemma cutoff_leb_segment_name c s z :
  0 <= c < 2 ^ 63 -> 0 <= s < 2 ^ 63 ->
  String.leb (sequenceToFilename c) (segment_name s z) = (c <=? s).
Proof.
  intros Hc Hs. change (sequenceToFilename c) with (segment_name c false).
  unfold String.leb. rewrite segment_name_compare by lia.
  destruct (Z.compare_spec c s) as [->|Hlt|Hgt].
  - rewrite Z.leb_refl. destruct z; reflexivity.
  - symmetry. apply Z.leb_le. lia.
  - symmetry. apply Z.leb_gt. lia.
Qed.

(** [name > cutoff] in the reader's [advance], for a file of another
    sequence. *)
Lemma cutoff_ltb_segment_name c s z :
  0 <= c < 2 ^ 63 -> 0 <= s < 2 ^ 63 -> s <> c ->
  String.ltb (sequenceToFilename c) (segment_name s z) = (c <? s).
Proof.
  intros Hc Hs Hne. change (sequenceToFilename c) with (segment_name c false).
  unfold String.ltb. rewrite segment_name_compare by lia.
  destruct (Z.compare_spec c s) as [->|Hlt|Hgt].
  - congruence.
  - symmetry. apply Z.ltb_lt. lia.
  - symmetry. apply Z.ltb_ge. lia.
Qed.

Lemma segment_name_le a za b zb :
  0 <= a < 2 ^ 63 -> 0 <= b < 2 ^ 63 ->
  String.le (segment_name a za) (segment_name b zb) -> a <= b.
Proof.
  intros Ha Hb H. apply le_leb in H. unfold String.leb in H.
  rewrite segment_name_compare in H by lia.
  destruct (Z.compare_spec a b); [lia|lia|discriminate].
Qed.

Lemma canonical_dir_elem (fs : gmap string (list byte)) name :
  canonical_dir fs -> is_Some (fs !! name) -> canonicalb name = true.
Proof.
  unfold canonical_dir. rewrite forallb_forall. intros H Hs.
  apply H. apply list_elem_of_In. apply ReadDir_elem_of. exact Hs.
Qed.

Lemma canonical_dir_intro (fs : gmap string (list byte)) :
  (forall name, is_Some (fs !! name) -> canonicalb name = true) -> canonical_dir fs.
Proof.
  intros H. unfold canonical_dir. apply forallb_forall. intros name Hin.
  apply H. apply ReadDir_elem_of. apply list_elem_of_In. exact Hin.
Qed.

(** *** The scans of the listing in a canonical directory *)

Lemma canonical_sequence name :
  canonicalb name = true ->
  exists z, 0 <= filenameToSequence name < 2 ^ 63
            /\ name = segment_name (filenameToSequence name) z.
Proof.
  intros H. apply canonicalb_spec in H as (seq & z & Hr & ->).
  exists z. rewrite filenameToSequence_segment_name by exact Hr. split; [exact Hr|reflexivity].
Qed.

Lemma advance_scan_find cur files :
  0 <= cur < 2 ^ 63 -> forallb canonicalb files = true ->
  advance_scan (sequenceToFilename cur) cur files
  = List.find (fun s => cur <? s) (map filenameToSequence files).
Proof.
  intros Hc. induction files as [|name files IH]; intros Hall; [reflexivity|].
  cbn [forallb] in Hall. apply andb_prop in Hall as [Hn Hall].
  cbn [advance_scan map List.find]. rewrite (IH Hall).
  destruct (canonical_sequence name Hn) as (z & Hr & Hname).
  destruct (Z.eqb_spec (filenameToSequence name) cur) as [E|E].
  - rewrite E, Z.ltb_irrefl. reflexivity.
  - assert (String.ltb (sequenceToFilename cur) name
            = (cur <? filenameToSequence name)) as ->; [|reflexivity].
    revert Hr Hname E. generalize (filenameToSequence name). intros s Hr -> E.
    apply cutoff_ltb_segment_name; assumption.
Qed.

Lemma sequences_sorted (fs : gmap string (list byte)) :
  canonical_dir fs -> StronglySorted Z.le (sequences fs).
Proof.
  unfold canonical_dir, sequences. pose proof (ReadDir_sorted fs) as Hs.
  induction Hs as [|name files Hs IH Hall]; intros Hc; [constructor|].
  cbn [forallb] in Hc. apply andb_prop in Hc as [Hn Hc].
  cbn [map]. constructor; [apply IH; exact Hc|].
  rewrite Forall_forall in Hall. apply Forall_forall. intros s Hs'.
  apply list_elem_of_fmap in Hs' as (other & -> & Ho).
  rewrite forallb_forall in Hc.
  assert (Hoc : canonicalb other = true) by (apply Hc, list_elem_of_In, Ho).
  destruct (canonical_sequence name Hn) as (z1 & Hr1 & Hn1).
  destruct (canonical_sequence other Hoc) as (z2 & Hr2 & Hn2).
  apply (segment_name_le _ z1 _ z2); [lia|lia|].
  rewrite <- Hn1, <- Hn2. apply Hall. exact Ho.
Qed.

Lemma find_sorted_least (p : Z -> bool) (l : list Z) cur :
  (forall s, p s = (cur <? s)) -> StronglySorted Z.le l ->
  match List.find p l with
  | Some s => s ∈ l /\ cur < s /\ forall x, x ∈ l -> cur < x -> s <= x
  | None => forall x, x ∈ l -> x <= cur
  end.
Proof.
  intros Hp Hs. induction Hs as [|a l Hs IH Hall].
  - simpl. intros x Hx. inversion Hx.
  - cbn [List.find]. rewrite Hp. destruct (Z.ltb_spec cur a) as [Hlt|Hge].
    + split; [left|]. split; [exact Hlt|]. intros x Hx _.
      apply elem_of_cons in Hx as [->|Hx]; [lia|].
      rewrite Forall_forall in Hall. apply Hall. exact Hx.
    + destruct (List.find p l) as [s|].
      * destruct IH as (H1 & H2 & H3). split; [right; exact H1|]. split; [exact H2|].
        intros x Hx Hcx. apply elem_of_cons in Hx as [->|Hx]; [lia|].
        apply H3; assumption.
      * intros x Hx. apply elem_of_cons in Hx as [->|Hx]; [lia|apply IH; exact Hx].
Qed.

Lemma sequences_elem_of (fs : gmap string (list byte)) s :
  canonical_dir fs ->
  s ∈ sequences fs <->
  0 <= s < 2 ^ 63 /\ exists z, is_Some (fs !! segment_name s z).
Proof.
  intros Hc. unfold sequences. rewrite list_elem_of_fmap. split.
  - intros (name & -> & Hin). apply ReadDir_elem_of in Hin.
    pose proof (canonical_dir_elem fs name Hc Hin) as Hn.
    destruct (canonical_sequence name Hn) as (z & Hr & Hname).
    split; [exact Hr|]. exists z. rewrite <- Hname. exact Hin.
  - intros (Hr & z & Hs). exists (segment_name s z). split.
    + symmetry. apply filenameToSequence_segment_name. exact Hr.
    + apply ReadDir_elem_of. exact Hs.
Qed.

Section ReaderOpen.

Variable snappy_decode : list byte -> list byte * bool.

(** *** Opening a segment *)

Lemma Reader_open_start r (fs : gmap string (list byte)) s z :
  fileSequence (r_fb r) = s -> position (r_fb r) = 0 ->
  is_Some (fs !! segment_name s z) ->
  exists z', Reader_open snappy_decode r fs = (reader_at s z', None)
             /\ is_Some (fs !! segment_name s z')
             /\ (z' = true -> fs !! segment_name s false = None).
Proof.
  intros Hs Hp Hex. unfold Reader_open, openFile, filename. rewrite Hs, Hp.
  change (sequenceToFilename s) with (segment_name s false).
  change (segment_name s false +:+ compressedSuffix) with (segment_name s true).
  destruct (fs !! segment_name s false) as [d|] eqn:E1.
  - exists false. split; [reflexivity|]. split; [eauto|discriminate].
  - destruct (fs !! segment_name s true) as [d|] eqn:E2.
    + exists true. split; [reflexivity|]. split; [eauto|reflexivity].
    + destruct z; rewrite ?E1, ?E2 in Hex; destruct Hex; discriminate.
Qed.

(** In a canonical directory [advance] does not fail: it opens, at its
    start, the segment of the least sequence above the reader's, or finds
    none and sleeps. *)
Lemma Reader_advance_canonical r (fs : gmap string (list byte)) :
  canonical_dir fs -> 0 <= fileSequence (r_fb r) < 2 ^ 63 ->
  match Reader_advance snappy_decode r fs with
  | adv_ok r' =>
      exists s z, r' = reader_at s z
        /\ fileSequence (r_fb r) < s < 2 ^ 63
        /\ s ∈ sequences fs
        /\ (forall x, x ∈ sequences fs -> fileSequence (r_fb r) < x -> s <= x)
        /\ is_Some (fs !! segment_name s z)
        /\ (z = true -> fs !! segment_name s false = None)
  | adv_err _ _ => False
  | adv_sleep => forall x, x ∈ sequences fs -> x <= fileSequence (r_fb r)
  end.
Proof.
  intros Hc Hr. unfold Reader_advance.
  rewrite advance_scan_find by assumption.
  pose proof (find_sorted_least (fun s => fileSequence (r_fb r) <? s) (sequences fs)
                (fileSequence (r_fb r)) (fun _ => eq_refl) (sequences_sorted fs Hc)) as Hf.
  fold (sequences fs).
  destruct (List.find _ (sequences fs)) as [s|]; [|exact Hf].
  destruct Hf as (Hin & Hlt & Hleast).
  pose proof (proj1 (sequences_elem_of fs s Hc) Hin) as (Hsr & z & Hex).
  set (r1 := mkReader _ _).
  destruct (Reader_open_start r1 fs s z eq_refl eq_refl Hex) as (z' & Ho & Hex' & Hraw).
  rewrite Ho. exists s, z'. repeat split; try assumption; lia.
Qed.

End ReaderOpen.

Section Offsets.

Variable snappy_decode : list byte -> list byte * bool.

(** *** Reads move the offset forward *)

Lemma reader_Read_ok r (fs : gmap string (list byte)) want chunk bs r1 :
  reader_Read snappy_decode r fs want chunk = (io_ok bs, r1) ->
  (1 <= want)%nat ->
  r_fb r1 = r_fb r
  /\ consumed r1 = (consumed r + length bs)%nat
  /\ (1 <= length bs <= want)%nat
  /\ bs = take (length bs) (drop (consumed r) (fst (stream snappy_decode r fs)))
  /\ (consumed r1 <= length (fst (stream snappy_decode r fs)))%nat.
Proof.
  unfold reader_Read. destruct (stream snappy_decode r fs) as [data bad]. cbn [fst].
  destruct (drop (consumed r) data) as [|x rest] eqn:E.
  - destruct bad; discriminate.
  - set (n := Nat.min (Nat.max 1 chunk) (Nat.min want (length (x :: rest)))).
    intros [= <- <-] Hw.
    assert (Hn : (1 <= n <= want)%nat /\ (n <= length (x :: rest))%nat)
      by (unfold n; simpl; lia).
    assert (Hl : length (take n (x :: rest)) = n) by (rewrite length_take; lia).
    rewrite Hl. unfold r_fb at 1. unfold consumed at 1 4.
    repeat split; try lia.
    assert (Hd : length (x :: rest) = (length data - consumed r)%nat)
      by (rewrite <- E; apply length_drop).
    lia.
Qed.

Lemma reader_Read_not_ok r (fs : gmap string (list byte)) want chunk res r1 :
  reader_Read snappy_decode r fs want chunk = (res, r1) ->
  (forall bs, res <> io_ok bs) -> r1 = r.
Proof.
  unfold reader_Read. destruct (stream snappy_decode r fs) as [data bad].
  destruct (drop (consumed r) data).
  - intros [= _ <-] _. reflexivity.
  - intros [= <- _] H. exfalso. eapply H. reflexivity.
Qed.

Lemma dir_bounded_lookup (fs : gmap string (list byte)) name data :
  dir_bounded snappy_decode fs -> fs !! name = Some data ->
  Z.of_nat (length data) < 2 ^ 63
  /\ Z.of_nat (length (fst (snappy_decode data))) < 2 ^ 63.
Proof.
  unfold dir_bounded. rewrite forallb_forall. intros H Hl.
  specialize (H (name, data)). cbn in H.
  assert (Hin : In (name, data) (map_to_list fs))
    by (apply list_elem_of_In, elem_of_map_to_list, Hl).
  apply H in Hin. apply andb_prop in Hin as [H1 H2].
  apply Z.ltb_lt in H1, H2. split; assumption.
Qed.

Lemma stream_bounded r (fs : gmap string (list byte)) :
  dir_bounded snappy_decode fs ->
  Z.of_nat (length (fst (stream snappy_decode r fs))) < 2 ^ 63.
Proof.
  intros Hb. unfold stream. destruct (file (r_fb r)) as [path|]; [|simpl; lia].
  destruct (fs !! path) as [data|] eqn:E; [|simpl; lia].
  destruct (dir_bounded_lookup fs path data Hb E) as [H1 H2].
  destruct (compressed (r_fb r)); [exact H2|exact H1].
Qed.





Lemma offset_le_trans a b c : offset_le a b -> offset_le b c -> offset_le a c.
Proof. unfold offset_le. lia. Qed.

Lemma offset_lt_trans a b c : offset_lt a b -> offset_lt b c -> offset_lt a c.
Proof. unfold offset_lt. lia. Qed.




End Offsets.

Section Recovery.

Variable snappy_decode : list byte -> list byte * bool.

(** *** Recovery from a record cut short *)


End Recovery.

Section NewReaderFacts.

Variable snappy_decode : list byte -> list byte * bool.

(** *** Where [NewReader] starts *)

Lemma NewReader_scan_none o cutoff files r (fs : gmap string (list byte)) :
  (forall name, name ∈ files -> String.leb cutoff name = false) ->
  NewReader_scan snappy_decode o cutoff files r fs = (r, None).
Proof.
  induction files as [|name files IH]; intros H; [reflexivity|].
  cbn [NewReader_scan]. rewrite (H name) by left.
  apply IH. intros n Hn. apply H. right. exact Hn.
Qed.

(** The loop of [NewReader] in a canonical directory: it opens the segment
    of the least sequence at or above the offset's. *)
Lemma NewReader_scan_find o files r (fs : gmap string (list byte)) :
  0 <= FileSequence o < 2 ^ 63 -> forallb canonicalb files = true ->
  NewReader_scan snappy_decode o (sequenceToFilename (FileSequence o)) files r fs =
  match List.find (fun s => FileSequence o <=? s) (map filenameToSequence files) with
  | None => (r, None)
  | Some seq =>
      let pos := if seq =? FileSequence o then Position o else 0 in
      let fb := r_fb r in
      match Reader_open snappy_decode
              (mkReader (mkFilebased (file fb) (compressed fb) seq pos) (consumed r)) fs with
      | (r, Some e) => (r, Some (Errorf "Unable to open existing log file" e))
      | (r, None) => (r, None)
      end
  end.
Proof.
  intros Ho. induction files as [|name files IH]; intros Hall; [reflexivity|].
  cbn [forallb] in Hall. apply andb_prop in Hall as [Hn Hall].
  cbn [NewReader_scan map List.find]. rewrite (IH Hall).
  destruct (canonical_sequence name Hn) as (z & Hr & Hname).
  assert (String.leb (sequenceToFilename (FileSequence o)) name
          = (FileSequence o <=? filenameToSequence name)) as ->;
    [|destruct (FileSequence o <=? filenameToSequence name); reflexivity].
  revert Hr Hname. generalize (filenameToSequence name). intros s Hr ->.
  apply cutoff_leb_segment_name; assumption.
Qed.

Lemma find_sorted_least_le (l : list Z) c :
  StronglySorted Z.le l ->
  match List.find (fun s => c <=? s) l with
  | Some s => s ∈ l /\ c <= s /\ forall x, x ∈ l -> c <= x -> s <= x
  | None => forall x, x ∈ l -> x < c
  end.
Proof.
  intros Hs.
  pose proof (find_sorted_least (fun s => c <=? s) l (c - 1)) as H.
  destruct (List.find (fun s => c <=? s) l) as [s|].
  - destruct H as (H1 & H2 & H3); [|exact Hs|].
    { intros x. destruct (Z.leb_spec c x), (Z.ltb_spec (c - 1) x); lia || reflexivity. }
    split; [exact H1|]. split; [lia|]. intros x Hx Hcx. apply H3; [exact Hx|lia].
  - intros x Hx. 
    assert (x <= c - 1); [|lia]. apply H; [|exact Hs|exact Hx].
    intros y. destruct (Z.leb_spec c y), (Z.ltb_spec (c - 1) y); lia || reflexivity.
Qed.



(** With a nil offset, or when no file is at or above the cutoff, the
    reader advances from sequence 0: it opens the oldest segment of positive
    sequence at its start, and sleeps only while there is none. *)
Lemma NewReader_nil_oldest (fs : gmap string (list byte)) :
  canonical_dir fs ->
  match NewReader snappy_decode None fs with
  | nr_ok r =>
      exists s z, r = reader_at s z /\ 0 < s /\ s ∈ sequences fs
        /\ (forall x, x ∈ sequences fs -> 0 < x -> s <= x)
        /\ is_Some (fs !! segment_name s z)
  | nr_err _ => False
  | nr_sleep => forall x, x ∈ sequences fs -> x <= 0
  end.
Proof.
  intros Hc. unfold NewReader. cbn [r_fb file].
  set (r0 := mkReader _ _).
  pose proof (Reader_advance_canonical snappy_decode r0 fs Hc ltac:(simpl; lia)) as Ha.
  destruct (Reader_advance snappy_decode r0 fs) as [r'| |]; [|contradiction|exact Ha].
  destruct Ha as (s & z & -> & Hs & Hin & Hleast & Hex & _).
  exists s, z. cbn in Hs. repeat split; try assumption; lia.
Qed.


Lemma Reader_open_fields r (fs : gmap string (list byte)) r' :
  Reader_open snappy_decode r fs = (r', None) ->
  fileSequence (r_fb r') = fileSequence (r_fb r)
  /\ position (r_fb r') = position (r_fb r)
  /\ is_Some (file (r_fb r'))
  /\ consumed r' = (if 0 <? position (r_fb r)
                    then Z.to_nat (position (r_fb r)) else 0%nat).
Proof.
  unfold Reader_open.
  assert (Ho : forall fb fs1 err, openFile false (r_fb r) fs = (fb, fs1, err) ->
            fileSequence fb = fileSequence (r_fb r) /\ position fb = position (r_fb r)
            /\ (err = None -> is_Some (file fb))).
  { unfold openFile. intros fb fs1 err.
    destruct (fs !! filename (r_fb r));
      [|destruct (fs !! (filename (r_fb r) +:+ compressedSuffix))];
      intros [= <- _ <-]; cbn; repeat split; eauto; discriminate. }
  destruct (openFile false (r_fb r) fs) as [[fb fs1] [e|]] eqn:E; [discriminate|].
  destruct (Ho _ _ _ eq_refl) as (H1 & H2 & H3). rewrite H2.
  destruct (Z.ltb_spec 0 (position (r_fb r))) as [Hp|Hp].
  - unfold CopyN_discard. destruct (stream snappy_decode _ fs) as [data bad].
    destruct (_ <=? _); [|discriminate].
    intros [= <-]. cbn. rewrite H1, H2. repeat split; auto.
  - intros [= <-]. cbn. rewrite H1, H2. repeat split; auto.
Qed.

Lemma NewReader_scan_ok o cutoff files r (fs : gmap string (list byte)) r' :
  forallb canonicalb files = true -> - 2 ^ 63 <= Position o ->
  NewReader_scan snappy_decode o cutoff files r fs = (r', None) ->
  r' = r \/ (reader_ok r' /\ is_Some (file (r_fb r'))).
Proof.
  intros Hall Hp. induction files as [|name files IH]; cbn [NewReader_scan].
  - intros [= <-]. left. reflexivity.
  - cbn [forallb] in Hall. apply andb_prop in Hall as [Hn Hall].
    destruct (String.leb cutoff name); [|apply IH; exact Hall].
    set (r1 := mkReader _ _).
    destruct (Reader_open snappy_decode r1 fs) as [r2 [e|]] eqn:E; [discriminate|].
    intros [= <-]. right.
    destruct (Reader_open_fields r1 fs r2 E) as (H1 & H2 & H3 & H4).
    split; [|exact H3]. unfold reader_ok. rewrite H1, H2, H4. cbn.
    destruct (canonical_sequence name Hn) as (z & Hr & _).
    split; [exact Hr|].
    destruct (filenameToSequence name =? FileSequence o);
      destruct (Z.ltb_spec 0 (Position o)); simpl; lia.
Qed.

(** Every reader [NewReader] returns in a directory of segment files has
    well-formed fields. *)
Lemma NewReader_reader_ok o (fs : gmap string (list byte)) r :
  canonical_dir fs ->
  (forall off, o = Some off -> - 2 ^ 63 <= Position off) ->
  NewReader snappy_decode o fs = nr_ok r -> reader_ok r.
Proof.
  intros Hc Hp. unfold NewReader.
  set (r0 := mkReader (mkFilebased None false 0 0) 0).
  assert (Hadv : match Reader_advance snappy_decode r0 fs with
                 | adv_ok r1 => nr_ok r1
                 | adv_err e _ => nr_err (Errorf "Unable to advance initially" e)
                 | adv_sleep => nr_sleep
                 end = nr_ok r -> reader_ok r).
  { pose proof (Reader_advance_canonical snappy_decode r0 fs Hc ltac:(simpl; lia)) as Ha.
    destruct (Reader_advance snappy_decode r0 fs) as [r1| |]; try discriminate.
    intros [= <-]. destruct Ha as (s & z & -> & Hs & _).
    unfold reader_ok, reader_at. cbn in *. lia. }
  destruct o as [off|]; [|exact Hadv].
  destruct (NewReader_scan snappy_decode (legacy_offset off) _ (ReadDir fs) r0 fs)
    as [r1 [e|]] eqn:E; [discriminate|].
  apply NewReader_scan_ok in E.
  - destruct E as [->|[Hok Hf]]; [exact Hadv|].
    destruct Hf as [path Hf]. rewrite Hf. intros [= <-]. exact Hok.
  - exact Hc.
  - specialize (Hp off eq_refl). unfold legacy_offset.
    destruct (sequenceToFilename (FileSequence off)) as [|ch ?]; [exact Hp|].
    destruct (Ascii.eqb ch "0"); exact Hp.
Qed.

End NewReaderFacts.

Section Framing.

Variable snappy_decode : list byte -> list byte * bool.

(** *** What a call of [Read] returns *)

Lemma stream_r_add_position r (fs : gmap string (list byte)) n :
  stream snappy_decode (r_add_position r n) fs = stream snappy_decode r fs.
Proof. reflexivity. Qed.

Lemma reader_Read_take r (fs : gmap string (list byte)) want chunk bs r1 :
  reader_Read snappy_decode r fs want chunk = (io_ok bs, r1) ->
  (1 <= want)%nat ->
  stream snappy_decode r1 fs = stream snappy_decode r fs
  /\ take (consumed r1) (fst (stream snappy_decode r fs))
     = take (consumed r) (fst (stream snappy_decode r fs)) ++ bs.
Proof.
  intros HR Hw.
  destruct (reader_Read_ok snappy_decode r fs want chunk bs r1 HR Hw)
    as (Hfb & Hc & Hn & Hbs & Hle).
  split.
  - unfold stream. rewrite Hfb. reflexivity.
  - rewrite Hc. rewrite Hbs at 2. symmetry. apply take_take_drop.
Qed.

Lemma Read_step_framed wal (fs : gmap string (list byte)) chunk pc r :
  pc_framed snappy_decode fs pc r ->
  match Read_step snappy_decode wal fs chunk pc r with
  | st_continue pc' r' => pc_framed snappy_decode fs pc' r'
  | st_return b r' =>
      0 < Z.of_nat (length b)
      /\ exists pre hdr,
           take (consumed r') (fst (stream snappy_decode r' fs)) = pre ++ hdr ++ b
           /\ length hdr = 4%nat /\ Uint32 hdr = Z.of_nat (length b)
  | _ => True
  end.
Proof.
  intros Hpc. destruct pc as [lenBuf| |len b]; cbn [Read_step pc_framed] in *.
  - destruct Hpc as [Hl (pre & Hpre)].
    destruct (reader_Read snappy_decode r fs (4 - length lenBuf) chunk)
      as [[bs| |] r1] eqn:HR.
    + assert (Hw : (1 <= 4 - length lenBuf)%nat) by lia.
      destruct (reader_Read_take r fs _ chunk bs r1 HR Hw) as [Hst Htk].
      destruct (reader_Read_ok snappy_decode r fs _ chunk bs r1 HR Hw) as (_ & _ & Hn & _).
      assert (Htk' : take (consumed (r_add_position r1 (length bs)))
                       (fst (stream snappy_decode (r_add_position r1 (length bs)) fs))
                     = pre ++ (lenBuf ++ bs)).
      { rewrite stream_r_add_position, Hst. cbn [r_add_position consumed].
        rewrite Htk, Hpre. symmetry. apply app_assoc. }
      destruct (Nat.eqb_spec (length (lenBuf ++ bs)) 4) as [E|E].
      * destruct (Z.ltb_spec sentinel (Uint32 (lenBuf ++ bs))) as [Hpos|Hz];
          cbn [pc_framed]; [|exact I].
        split; [unfold sentinel in Hpos; simpl; lia|].
        exists pre, (lenBuf ++ bs). rewrite app_nil_r. auto.
      * cbn [pc_framed]. split; [rewrite length_app in *; lia|].
        exists pre. exact Htk'.
    + exact I.
    + exact I.
  - destruct (Reader_advance snappy_decode r fs) as [r'| |] eqn:EA; try exact I.
    cbn [pc_framed]. split; [simpl; lia|].
    exists (take (consumed r') (fst (stream snappy_decode r' fs))).
    symmetry. apply app_nil_r.
  - destruct Hpc as [Hl (pre & hdr & Hpre & Hh & Hu)].
    destruct (reader_Read snappy_decode r fs (Z.to_nat len - length b) chunk)
      as [[bs| |] r1] eqn:HR.
    + assert (Hw : (1 <= Z.to_nat len - length b)%nat) by lia.
      destruct (reader_Read_take r fs _ chunk bs r1 HR Hw) as [Hst Htk].
      destruct (reader_Read_ok snappy_decode r fs _ chunk bs r1 HR Hw) as (_ & _ & Hn & _).
      assert (Htk' : take (consumed (r_add_position r1 (length bs)))
                       (fst (stream snappy_decode (r_add_position r1 (length bs)) fs))
                     = pre ++ hdr ++ (b ++ bs)).
      { rewrite stream_r_add_position, Hst. cbn [r_add_position consumed].
        rewrite Htk, Hpre. rewrite <- !app_assoc. reflexivity. }
      destruct (Z.eqb_spec (Z.of_nat (length (b ++ bs))) len) as [E|E].
      * split; [lia|]. exists pre, hdr. rewrite E. auto.
      * cbn [pc_framed]. split; [rewrite length_app in *; lia|].
        exists pre, hdr. auto.
    + rewrite (reader_Read_not_ok snappy_decode r fs _ chunk _ r1 HR) by discriminate.
      destruct (hasMovedBeyond wal (fileSequence (r_fb r))); exact I.
    + rewrite (reader_Read_not_ok snappy_decode r fs _ chunk _ r1 HR) by discriminate.
      cbn [pc_framed]. split; [simpl; lia|].
      exists (take (consumed r) (fst (stream snappy_decode r fs))).
      symmetry. apply app_nil_r.
Qed.

Lemma Read_from_framed fuel : forall chunks wal (fs : gmap string (list byte)) pc r b r',
  pc_framed snappy_decode fs pc r ->
  Read_from snappy_decode fuel chunks wal fs pc r = Some (rd_ok b r') ->
  0 < Z.of_nat (length b)
  /\ exists pre hdr,
       take (consumed r') (fst (stream snappy_decode r' fs)) = pre ++ hdr ++ b
       /\ length hdr = 4%nat /\ Uint32 hdr = Z.of_nat (length b).
Proof.
  induction fuel as [|fuel IH]; intros chunks wal fs pc r b r' Hpc HR; [discriminate|].
  cbn [Read_from] in HR.
  pose proof (Read_step_framed wal fs (chunks O) pc r Hpc) as Hstep.
  destruct (Read_step snappy_decode wal fs (chunks O) pc r) as [pc1 r1| |b1 r1|e r1].
  - eapply IH; eassumption.
  - discriminate.
  - injection HR as <- <-. exact Hstep.
  - discriminate.
Qed.

(** C9. A call of [Read] that returns a record returns a non-empty one: its
    length is positive and is what the four bytes read just before it
    encode, big-endian. Four length bytes that encode 0 send the reader to
    [advance]; they are never returned as a record. *)
Theorem Read_never_returns_empty_record fuel chunks wal
    (fs : gmap string (list byte)) r b r' :
  Read snappy_decode fuel chunks wal fs r = Some (rd_ok b r') ->
  (0 < length b)%nat
  /\ (exists pre hdr,
        take (consumed r') (fst (stream snappy_decode r' fs)) = pre ++ hdr ++ b
        /\ length hdr = 4%nat /\ Uint32 hdr = Z.of_nat (length b))
  /\ (forall wal0 fs0 chunk lenBuf r0 bs r1,
        reader_Read snappy_decode r0 fs0 (4 - length lenBuf) chunk = (io_ok bs, r1) ->
        length (lenBuf ++ bs) = 4%nat -> Uint32 (lenBuf ++ bs) = 0 ->
        Read_step snappy_decode wal0 fs0 chunk (at_length lenBuf) r0
        = st_continue at_advance (r_add_position r1 (length bs))).
Proof.
  intros HR. unfold Read in HR.
  destruct (Read_from_framed fuel chunks wal fs (at_length []) r b r') as [Hpos Hfr].
  - cbn [pc_framed]. split; [simpl; lia|].
    exists (take (consumed r) (fst (stream snappy_decode r fs))). symmetry. apply app_nil_r.
  - exact HR.
  - split; [lia|]. split; [exact Hfr|].
    intros wal0 fs0 chunk lenBuf r0 bs r1 HR0 Hlen Hz.
    cbn [Read_step]. rewrite HR0.
    rewrite (proj2 (Nat.eqb_eq _ _) Hlen), Hz. reflexivity.
Qed.

End Framing.

Section SameLog.

Variable snappy_decode : list byte -> list byte * bool.

(** *** Readers on two directories that hold the same log *)

Lemma stream_reader_at (fs : gmap string (list byte)) s z :
  is_Some (fs !! segment_name s z) ->
  (z = true -> fs !! segment_name s false = None) ->
  stream snappy_decode (reader_at s z) fs = logical snappy_decode fs s.
Proof.
  intros [data Hd] Hraw. unfold stream, logical, reader_at. cbn [r_fb file compressed].
  destruct z.
  - rewrite (Hraw eq_refl), Hd. reflexivity.
  - rewrite Hd. reflexivity.
Qed.

Lemma reader_Read_same_view (fs fs' : gmap string (list byte)) r r' want chunk :
  same_view snappy_decode fs fs' r r' ->
  fst (reader_Read snappy_decode r fs want chunk)
  = fst (reader_Read snappy_decode r' fs' want chunk)
  /\ same_view snappy_decode fs fs'
       (snd (reader_Read snappy_decode r fs want chunk))
       (snd (reader_Read snappy_decode r' fs' want chunk)).
Proof.
  intros (Hs & Hp & Hc & Hr & Hst). unfold reader_Read.
  rewrite <- Hst, <- Hc. destruct (stream snappy_decode r fs) as [data bad] eqn:E.
  destruct (drop (consumed r) data) as [|x rest].
  - split; [reflexivity|]. cbn [snd]. unfold same_view. rewrite E. auto.
  - split; [reflexivity|]. cbn [snd]. unfold same_view, stream in *.
    cbn [r_fb consumed]. rewrite Hc at 2. rewrite <- Hst. auto 10.
Qed.

Lemma same_view_add_position (fs fs' : gmap string (list byte)) r r' n :
  same_view snappy_decode fs fs' r r' ->
  same_view snappy_decode fs fs' (r_add_position r n) (r_add_position r' n).
Proof.
  intros (Hs & Hp & Hc & Hr & Hst). unfold same_view, r_add_position, stream in *.
  cbn [r_fb fileSequence position consumed file compressed]. rewrite Hp. auto 10.
Qed.

Lemma Reader_advance_same_view (fs fs' : gmap string (list byte)) r r' :
  same_log snappy_decode fs fs' ->
  fileSequence (r_fb r) = fileSequence (r_fb r') ->
  0 <= fileSequence (r_fb r) < 2 ^ 63 ->
  match Reader_advance snappy_decode r fs, Reader_advance snappy_decode r' fs' with
  | adv_ok r1, adv_ok r1' => same_view snappy_decode fs fs' r1 r1'
  | adv_sleep, adv_sleep => True
  | _, _ => False
  end.
Proof.
  intros (Hc & Hc' & Hseq & Hlog) Hs Hr.
  pose proof (Reader_advance_canonical snappy_decode r fs Hc Hr) as Ha.
  pose proof (Reader_advance_canonical snappy_decode r' fs' Hc' ltac:(rewrite <- Hs; exact Hr)) as Ha'.
  rewrite <- Hs in Ha'.
  destruct (Reader_advance snappy_decode r fs) as [r1| |];
    destruct (Reader_advance snappy_decode r' fs') as [r1'| |]; try contradiction.
  - destruct Ha as (s & z & -> & Hlt & Hin & Hleast & Hex & Hraw).
    destruct Ha' as (s' & z' & -> & Hlt' & Hin' & Hleast' & Hex' & Hraw').
    assert (s = s') as <-.
    { apply Hseq in Hin as Hin2. apply Hseq in Hin' as Hin2'.
      specialize (Hleast s' Hin2'). specialize (Hleast' s Hin2). lia. }
    unfold same_view. rewrite !stream_reader_at by assumption.
    cbn. rewrite Hlog. repeat split; lia.
  - destruct Ha as (s & z & -> & Hlt & Hin & _). apply Hseq in Hin.
    specialize (Ha' _ Hin). lia.
  - destruct Ha' as (s & z & -> & Hlt & Hin & _). apply Hseq in Hin.
    specialize (Ha _ Hin). lia.
  - exact I.
Qed.

Lemma Read_step_same_view wal (fs fs' : gmap string (list byte)) chunk pc r r' :
  same_log snappy_decode fs fs' -> same_view snappy_decode fs fs' r r' ->
  step_same snappy_decode fs fs' (Read_step snappy_decode wal fs chunk pc r)
                   (Read_step snappy_decode wal fs' chunk pc r').
Proof.
  intros Hlog Hv. destruct pc as [lenBuf| |len b]; cbn [Read_step].
  - destruct (reader_Read_same_view fs fs' r r' (4 - length lenBuf) chunk Hv) as [H1 H2].
    destruct (reader_Read snappy_decode r fs (4 - length lenBuf) chunk) as [res r1].
    destruct (reader_Read snappy_decode r' fs' (4 - length lenBuf) chunk) as [res' r1'].
    cbn [fst snd] in *. subst res'. destruct res as [bs| |]; cbn [step_same].
    + pose proof (same_view_add_position fs fs' r1 r1' (length bs) H2) as H3.
      destruct (length (lenBuf ++ bs) =? 4)%nat; [|split; [reflexivity|exact H3]].
      destruct (sentinel <? Uint32 (lenBuf ++ bs)); split; (reflexivity || exact H3).
    + exact I.
    + split; [reflexivity|exact H2].
  - destruct Hv as (Hs & Hp & Hc & Hr & Hst).
    pose proof (Reader_advance_same_view fs fs' r r' Hlog Hs Hr) as Ha.
    destruct (Reader_advance snappy_decode r fs) as [r1| |];
      destruct (Reader_advance snappy_decode r' fs') as [r1'| |]; try contradiction.
    + split; [reflexivity|exact Ha].
    + exact I.
  - destruct (reader_Read_same_view fs fs' r r' (Z.to_nat len - length b) chunk Hv)
      as [H1 H2].
    destruct (reader_Read snappy_decode r fs (Z.to_nat len - length b) chunk) as [res r1].
    destruct (reader_Read snappy_decode r' fs' (Z.to_nat len - length b) chunk) as [res' r1'].
    cbn [fst snd] in *. subst res'. destruct res as [bs| |]; cbn [step_same].
    + pose proof (same_view_add_position fs fs' r1 r1' (length bs) H2) as H3.
      destruct (Z.of_nat (length (b ++ bs)) =? len); split; (reflexivity || exact H3).
    + destruct H2 as (Hs & H2). rewrite <- Hs.
      destruct (hasMovedBeyond wal (fileSequence (r_fb r1))); [|exact I].
      split; [reflexivity|]. split; [exact Hs|exact H2].
    + split; [reflexivity|exact H2].
Qed.

Lemma Read_from_same_view fuel : forall chunks wal (fs fs' : gmap string (list byte)) pc r r',
  same_log snappy_decode fs fs' -> same_view snappy_decode fs fs' r r' ->
  result_same snappy_decode fs fs' (Read_from snappy_decode fuel chunks wal fs pc r)
                     (Read_from snappy_decode fuel chunks wal fs' pc r').
Proof.
  induction fuel as [|fuel IH]; intros chunks wal fs fs' pc r r' Hlog Hv; [exact I|].
  cbn [Read_from].
  pose proof (Read_step_same_view wal fs fs' (chunks O) pc r r' Hlog Hv) as Hs.
  destruct (Read_step snappy_decode wal fs (chunks O) pc r) as [pc1 r1| |x r1|e r1];
    destruct (Read_step snappy_decode wal fs' (chunks O) pc r') as [pc1' r1'| |x' r1'|e' r1'];
    try contradiction; cbn [step_same] in Hs.
  - destruct Hs as [<- Hv1]. apply IH; assumption.
  - cbn. split; [reflexivity|exact Hv].
  - exact Hs.
Qed.

Lemma Read_many_same_view n : forall fuel chunks wal (fs fs' : gmap string (list byte)) r r',
  same_log snappy_decode fs fs' -> same_view snappy_decode fs fs' r r' ->
  fst <$> Read_many snappy_decode n fuel chunks wal fs r
  = fst <$> Read_many snappy_decode n fuel chunks wal fs' r'.
Proof.
  induction n as [|n IH]; intros fuel chunks wal fs fs' r r' Hlog Hv; [reflexivity|].
  cbn [Read_many]. unfold Read.
  pose proof (Read_from_same_view fuel (chunks O) wal fs fs' (at_length []) r r' Hlog Hv) as Hr.
  destruct (Read_from snappy_decode fuel (chunks O) wal fs (at_length []) r) as [[x r1|e r1|pc r1]|];
    destruct (Read_from snappy_decode fuel (chunks O) wal fs' (at_length []) r') as [[x' r1'|e' r1'|pc' r1']|];
    try contradiction; try reflexivity.
  destruct Hr as [<- Hv1].
  specialize (IH fuel (fun i => chunks (S i)) wal fs fs' r1 r1' Hlog Hv1).
  destruct (Read_many snappy_decode n fuel _ wal fs r1) as [[bs r2]|];
    destruct (Read_many snappy_decode n fuel _ wal fs' r1') as [[bs' r2']|];
    cbn in *; congruence.
Qed.

End SameLog.

Section SameLogNewReader.

Variable snappy_decode : list byte -> list byte * bool.

Lemma Reader_open_logical r (fs : gmap string (list byte)) :
  canonical_dir fs -> fileSequence (r_fb r) ∈ sequences fs ->
  exists z,
    let r0 := mkReader (mkFilebased (Some (segment_name (fileSequence (r_fb r)) z)) z
                                    (fileSequence (r_fb r)) (position (r_fb r))) 0 in
    Reader_open snappy_decode r fs
    = (if 0 <? position (r_fb r)
       then CopyN_discard snappy_decode r0 fs (position (r_fb r)) else (r0, None))
    /\ stream snappy_decode r0 fs = logical snappy_decode fs (fileSequence (r_fb r)).
Proof.
  intros Hc Hin. apply sequences_elem_of in Hin as (Hr & z & Hex); [|exact Hc].
  unfold Reader_open, openFile, filename, stream, logical.
  change (sequenceToFilename (fileSequence (r_fb r)))
    with (segment_name (fileSequence (r_fb r)) false).
  change (segment_name (fileSequence (r_fb r)) false +:+ compressedSuffix)
    with (segment_name (fileSequence (r_fb r)) true).
  destruct (fs !! segment_name (fileSequence (r_fb r)) false) as [d|] eqn:E1.
  - exists false. cbn [r_fb file compressed fileSequence position].
    rewrite E1. split; reflexivity.
  - destruct (fs !! segment_name (fileSequence (r_fb r)) true) as [d|] eqn:E2.
    + exists true. cbn [r_fb file compressed fileSequence position].
      rewrite E2. split; reflexivity.
    + destruct z; rewrite ?E1, ?E2 in Hex; destruct Hex; discriminate.
Qed.

Lemma CopyN_discard_same_view (fs fs' : gmap string (list byte)) r r' n :
  same_view snappy_decode fs fs' r r' ->
  snd (CopyN_discard snappy_decode r fs n) = snd (CopyN_discard snappy_decode r' fs' n)
  /\ same_view snappy_decode fs fs' (fst (CopyN_discard snappy_decode r fs n))
                                     (fst (CopyN_discard snappy_decode r' fs' n)).
Proof.
  intros (Hs & Hp & Hc & Hr & Hst). unfold CopyN_discard.
  rewrite <- Hst, <- Hc. destruct (stream snappy_decode r fs) as [data bad] eqn:E.
  destruct (n <=? Z.of_nat (length (drop (consumed r) data))); cbn [fst snd];
    (split; [reflexivity|]); unfold same_view, stream in *; cbn [r_fb consumed];
    rewrite <- Hst; auto 10.
Qed.

Lemma Reader_open_same_view (fs fs' : gmap string (list byte)) r r' :
  same_log snappy_decode fs fs' ->
  fileSequence (r_fb r) = fileSequence (r_fb r') ->
  position (r_fb r) = position (r_fb r') ->
  fileSequence (r_fb r) ∈ sequences fs ->
  snd (Reader_open snappy_decode r fs) = snd (Reader_open snappy_decode r' fs')
  /\ (snd (Reader_open snappy_decode r fs) = None ->
      same_view snappy_decode fs fs' (fst (Reader_open snappy_decode r fs))
                                     (fst (Reader_open snappy_decode r' fs'))
      /\ is_Some (file (r_fb (fst (Reader_open snappy_decode r fs))))
      /\ is_Some (file (r_fb (fst (Reader_open snappy_decode r' fs'))))).
Proof.
  intros (Hc & Hc' & Hseq & Hlog) Hs Hp Hin.
  pose proof (proj1 (sequences_elem_of fs _ Hc) Hin) as [Hr _].
  destruct (Reader_open_logical r fs Hc Hin) as (z & Ho & Hst).
  assert (Hin' : fileSequence (r_fb r') ∈ sequences fs') by (rewrite <- Hs; apply Hseq, Hin).
  destruct (Reader_open_logical r' fs' Hc' Hin') as (z' & Ho' & Hst').
  cbv zeta in *. rewrite Ho, Ho'. rewrite <- Hs, <- Hp in *.
  set (r0 := mkReader (mkFilebased (Some (segment_name _ z)) z _ _) 0) in *.
  set (r0' := mkReader (mkFilebased (Some (segment_name _ z')) z' _ _) 0) in *.
  assert (Hv : same_view snappy_decode fs fs' r0 r0').
  { unfold same_view. rewrite Hst, Hst', Hlog. cbn. auto 10. }
  destruct (0 <? position (r_fb r)).
  - destruct (CopyN_discard_same_view fs fs' r0 r0' (position (r_fb r)) Hv) as [H1 H2].
    split; [exact H1|]. intros _. split; [exact H2|].
    unfold CopyN_discard.
    destruct (stream snappy_decode r0 fs), (stream snappy_decode r0' fs').
    split; [destruct (_ <=? _)|destruct (_ <=? _)]; cbn; eauto.
  - cbn [fst snd]. split; [reflexivity|]. intros _. split; [exact Hv|]. cbn. eauto.
Qed.

Lemma find_same_elements (l l' : list Z) c :
  StronglySorted Z.le l -> StronglySorted Z.le l' ->
  (forall s, s ∈ l <-> s ∈ l') ->
  List.find (fun s => c <=? s) l = List.find (fun s => c <=? s) l'.
Proof.
  intros Hs Hs' Hiff.
  pose proof (find_sorted_least_le l c Hs) as H.
  pose proof (find_sorted_least_le l' c Hs') as H'.
  destruct (List.find _ l) as [s|], (List.find _ l') as [s'|].
  - destruct H as (H1 & H2 & H3), H' as (H1' & H2' & H3').
    f_equal. apply Hiff in H1 as H1l. apply Hiff in H1' as H1l'.
    specialize (H3 _ H1l' H2'). specialize (H3' _ H1l H2). lia.
  - destruct H as (H1 & H2 & _). apply Hiff in H1. specialize (H' _ H1). lia.
  - destruct H' as (H1 & H2 & _). apply Hiff in H1. specialize (H _ H1). lia.
  - reflexivity.
Qed.

Lemma NewReader_same_view offset (fs fs' : gmap string (list byte)) :
  same_log snappy_decode fs fs' ->
  (forall o, offset = Some o -> 0 <= FileSequence (legacy_offset o) < 2 ^ 63) ->
  NewReader_same snappy_decode fs fs' (NewReader snappy_decode offset fs)
                        (NewReader snappy_decode offset fs').
Proof.
  intros Hlog Hoff. pose proof Hlog as (Hc & Hc' & Hseq & Hl).
  set (r0 := mkReader (mkFilebased None false 0 0) 0).
  assert (Hadv : NewReader_same snappy_decode fs fs'
    match Reader_advance snappy_decode r0 fs with
    | adv_ok r1 => nr_ok r1
    | adv_err e _ => nr_err (Errorf "Unable to advance initially" e)
    | adv_sleep => nr_sleep
    end
    match Reader_advance snappy_decode r0 fs' with
    | adv_ok r1 => nr_ok r1
    | adv_err e _ => nr_err (Errorf "Unable to advance initially" e)
    | adv_sleep => nr_sleep
    end).
  { pose proof (Reader_advance_same_view snappy_decode fs fs' r0 r0 Hlog eq_refl
                  ltac:(simpl; lia)) as Ha.
    destruct (Reader_advance snappy_decode r0 fs), (Reader_advance snappy_decode r0 fs');
      try contradiction; exact Ha. }
  unfold NewReader. fold r0.
  destruct offset as [o|]; [|exact Hadv].
  specialize (Hoff o eq_refl).
  rewrite !NewReader_scan_find by assumption. fold (sequences fs) (sequences fs').
  rewrite <- (find_same_elements (sequences fs) (sequences fs') _
                (sequences_sorted fs Hc) (sequences_sorted fs' Hc') Hseq).
  pose proof (find_sorted_least_le (sequences fs) (FileSequence (legacy_offset o))
                (sequences_sorted fs Hc)) as Hf.
  destruct (List.find _ (sequences fs)) as [s|]; [|exact Hadv].
  destruct Hf as (Hin & _). cbv zeta.
  set (r1 := mkReader _ _).
  destruct (Reader_open_same_view fs fs' r1 r1 Hlog eq_refl eq_refl Hin) as [He Hv].
  destruct (Reader_open snappy_decode r1 fs) as [r2 e2],
           (Reader_open snappy_decode r1 fs') as [r2' e2'].
  cbn [fst snd] in *. subst e2'. destruct e2 as [e|]; [reflexivity|].
  destruct (Hv eq_refl) as (Hsv & [p Hp] & [p' Hp']). rewrite Hp, Hp'. exact Hsv.
Qed.

End SameLogNewReader.

Section Compression.

Variable snappy_encode : list byte -> list byte.
Variable snappy_decode : list byte -> list byte * bool.

(** What the Snappy library promises: a stream that was written and closed
    is read back as it was, and ends without an error. *)
Hypothesis snappy_round_trip :
  forall data, snappy_decode (snappy_encode data) = (data, false).

(** *** Compression keeps the log *)

Lemma HasSuffix_app_neq name : HasSuffix name compressedSuffix = false ->
  forall n, name <> n +:+ compressedSuffix.
Proof. intros H n ->. rewrite HasSuffix_app in H. discriminate. Qed.

Lemma app_suffix_inj n m : n +:+ compressedSuffix = m +:+ compressedSuffix -> n = m.
Proof.
  intros H. apply (f_equal (fun s => TrimSuffix s compressedSuffix)) in H.
  rewrite !TrimSuffix_app in H. exact H.
Qed.

Lemma compress_loop_spec cutoff files : forall (fs : gmap string (list byte)),
  NoDup files ->
  (forall n, n ∈ files -> is_Some (fs !! n)) ->
  (forall n, n ∈ files -> HasSuffix n compressedSuffix = false ->
     fs !! (n +:+ compressedSuffix) = None /\ (n +:+ compressedSuffix) ∉ files) ->
  exists fs' (done : list string),
    compress_loop snappy_encode cutoff files fs = (fs', None)
    /\ (forall n, n ∈ done ->
          n ∈ files /\ HasSuffix n compressedSuffix = false /\ fs' !! n = None
          /\ exists d, fs !! n = Some d
                       /\ fs' !! (n +:+ compressedSuffix) = Some (snappy_encode d))
    /\ (forall x, x ∉ done -> (forall n, n ∈ done -> x <> n +:+ compressedSuffix) ->
          fs' !! x = fs !! x).
Proof.
  induction files as [|name rest IH]; intros fs Hnd Hin Htw.
  - exists fs, []. split; [reflexivity|]. split; [intros n Hn; inversion Hn|auto].
  - apply NoDup_cons in Hnd as [Hname Hnd]. cbn [compress_loop].
    destruct (bool_decide (rest = []) || String.leb cutoff name).
    { exists fs, []. split; [reflexivity|]. split; [intros n Hn; inversion Hn|auto]. }
    destruct (HasSuffix name compressedSuffix) eqn:Hsuf.
    { destruct (IH fs Hnd) as (fs' & done & Hrun & Hdone & Hrest).
      - intros n Hn. apply Hin. right. exact Hn.
      - intros n Hn Hs. destruct (Htw n ltac:(right; exact Hn) Hs) as [H1 H2].
        split; [exact H1|]. intros H. apply H2. right. exact H.
      - exists fs', done. split; [exact Hrun|]. split; [|exact Hrest].
        intros n Hn. destruct (Hdone n Hn) as (H1 & H2). split; [right; exact H1|exact H2]. }
    destruct (Hin name ltac:(left)) as [d Hd]. rewrite Hd.
    destruct (Htw name ltac:(left) Hsuf) as [Hout Hout'].
    rewrite Hout. cbn [default app].
    set (out := name +:+ compressedSuffix) in *.
    assert (Hno : name <> out) by (apply HasSuffix_app_neq; exact Hsuf).
    unfold os_Remove. rewrite lookup_insert_ne by congruence. rewrite Hd.
    set (fs1 := delete name (<[out := snappy_encode d]> fs)).
    assert (Hfs1 : forall x, x <> name -> x <> out -> fs1 !! x = fs !! x).
    { intros x H1 H2. unfold fs1. rewrite lookup_delete_ne by congruence.
      apply lookup_insert_ne. congruence. }
    destruct (IH fs1 Hnd) as (fs' & done & Hrun & Hdone & Hrest).
    { intros n Hn. rewrite Hfs1; [apply Hin; right; exact Hn| |].
      - intros ->. contradiction.
      - intros ->. apply Hout'. right. exact Hn. }
    { intros n Hn Hs. destruct (Htw n ltac:(right; exact Hn) Hs) as [H1 H2].
      split; [|intros H; apply H2; right; exact H].
      destruct (decide (n +:+ compressedSuffix = name)) as [E|E].
      - rewrite E. unfold fs1. apply lookup_delete_eq.
      - rewrite Hfs1; [exact H1|exact E|].
        intros E2. apply app_suffix_inj in E2. subst n. contradiction. }
    exists fs', (name :: done). split; [exact Hrun|]. split.
    + intros n Hn. apply elem_of_cons in Hn as [->|Hn].
      * split; [left|]. split; [exact Hsuf|].
        assert (Hnd' : name ∉ done).
        { intros H. apply Hdone in H as [H _]. contradiction. }
        split.
        -- rewrite Hrest; [unfold fs1; apply lookup_delete_eq|exact Hnd'|].
           intros n _. apply HasSuffix_app_neq. exact Hsuf.
        -- exists d. split; [exact Hd|]. fold out. rewrite Hrest.
           ++ unfold fs1. rewrite lookup_delete_ne by congruence. apply lookup_insert_eq.
           ++ intros H. apply Hdone in H as (_ & H & _). unfold out in H.
              rewrite HasSuffix_app in H. discriminate.
           ++ intros n Hn E. apply app_suffix_inj in E. subst n.
              apply Hdone in Hn as [Hn _]. contradiction.
      * destruct (Hdone n Hn) as (H1 & H2 & H3 & d' & H4 & H5).
        split; [right; exact H1|]. split; [exact H2|]. split; [exact H3|].
        exists d'. split; [|exact H5]. rewrite <- H4. symmetry. apply Hfs1.
        -- intros ->. contradiction.
        -- intros ->. unfold out in H2. rewrite HasSuffix_app in H2. discriminate.
    + intros x Hx Hx'. rewrite Hrest.
      * apply Hfs1.
        -- intros ->. apply Hx. left.
        -- apply Hx'. left.
      * intros H. apply Hx. right. exact H.
      * intros n Hn. apply Hx'. right. exact Hn.
Qed.

Lemma HasSuffix_sequenceToFilename s :
  HasSuffix (sequenceToFilename s) compressedSuffix = false.
Proof.
  unfold sequenceToFilename.
  destruct (0 <=? s); [apply HasSuffix_digits, pad_digits_all_digits|].
  destruct (- s <? 10 ^ 18); cbn [HasSuffix];
    rewrite HasSuffix_digits by apply pad_digits_all_digits; reflexivity.
Qed.

Lemma no_twins_elem (fs : gmap string (list byte)) n :
  no_twins fs -> n ∈ ReadDir fs -> HasSuffix n compressedSuffix = false ->
  fs !! (n +:+ compressedSuffix) = None.
Proof.
  unfold no_twins. rewrite forallb_forall. intros H Hn Hs.
  specialize (H n (proj1 (list_elem_of_In _ _) Hn)). rewrite Hs in H. cbn in H.
  apply negb_true_iff, bool_decide_eq_false_1 in H.
  apply eq_None_not_Some. exact H.
Qed.

(** What [CompressBefore] leaves: some raw files [done] are replaced by
    their compressed twins, everything else is as it was. *)
Lemma CompressBefore_spec o (fs : gmap string (list byte)) :
  no_twins fs ->
  exists fs' (done : list string),
    CompressBefore snappy_encode o fs = (fs', None)
    /\ (forall n, n ∈ done ->
          HasSuffix n compressedSuffix = false /\ fs' !! n = None
          /\ exists d, fs !! n = Some d
                       /\ fs' !! (n +:+ compressedSuffix) = Some (snappy_encode d))
    /\ (forall x, x ∉ done -> (forall n, n ∈ done -> x <> n +:+ compressedSuffix) ->
          fs' !! x = fs !! x).
Proof.
  intros Htw. unfold CompressBefore.
  destruct (compress_loop_spec (sequenceToFilename (FileSequence o)) (ReadDir fs) fs)
    as (fs' & done & Hrun & Hdone & Hrest).
  - apply ReadDir_NoDup.
  - intros n. apply ReadDir_elem_of.
  - intros n Hn Hs. pose proof (no_twins_elem fs n Htw Hn Hs) as Hnone.
    split; [exact Hnone|]. intros H. apply ReadDir_elem_of in H.
    rewrite Hnone in H. destruct H. discriminate.
  - exists fs', done. split; [exact Hrun|]. split; [|exact Hrest].
    intros n Hn. destruct (Hdone n Hn) as (_ & H). exact H.
Qed.

Lemma compressed_same_log (fs fs' : gmap string (list byte)) (done : list string) :
  canonical_dir fs -> no_twins fs ->
  (forall n, n ∈ done ->
     HasSuffix n compressedSuffix = false /\ fs' !! n = None
     /\ exists d, fs !! n = Some d
                  /\ fs' !! (n +:+ compressedSuffix) = Some (snappy_encode d)) ->
  (forall x, x ∉ done -> (forall n, n ∈ done -> x <> n +:+ compressedSuffix) ->
     fs' !! x = fs !! x) ->
  same_log snappy_decode fs fs'.
Proof.
  intros Hc Htw Hdone Hrest.
  (* every name is compressed, the twin of a compressed one, or untouched *)
  assert (Hcases : forall x,
    x ∈ done
    \/ (exists n, n ∈ done /\ x = n +:+ compressedSuffix)
    \/ fs' !! x = fs !! x).
  { intros x. destruct (decide (x ∈ done)) as [H|H]; [left; exact H|].
    destruct (decide (Exists (fun n => x = n +:+ compressedSuffix) done)) as [E|E].
    - right. left. apply Exists_exists in E. exact E.
    - right. right. apply Hrest; [exact H|]. intros n Hn Hx. apply E.
      apply Exists_exists. exists n. split; assumption. }
  (* a compressed name is the raw name of a sequence *)
  assert (Hraw : forall n, n ∈ done ->
    exists s, 0 <= s < 2 ^ 63 /\ n = segment_name s false).
  { intros n Hn. destruct (Hdone n Hn) as (Hs & _ & d & Hd & _).
    pose proof (canonical_dir_elem fs n Hc ltac:(rewrite Hd; eauto)) as Hcan.
    destruct (canonical_sequence n Hcan) as ([|] & Hr & Hname).
    - rewrite Hname in Hs. unfold segment_name in Hs. rewrite HasSuffix_app in Hs.
      discriminate.
    - eauto. }
  assert (Hc' : canonical_dir fs').
  { apply canonical_dir_intro. intros x Hx.
    destruct (Hcases x) as [H|[(n & Hn & ->)|H]].
    - destruct (Hdone x H) as (_ & Hnone & _). rewrite Hnone in Hx. destruct Hx. discriminate.
    - destruct (Hraw n Hn) as (s & Hr & ->). apply canonicalb_spec.
      exists s, true. split; [exact Hr|reflexivity].
    - rewrite H in Hx. apply (canonical_dir_elem fs x Hc Hx). }
  split; [exact Hc|]. split; [exact Hc'|]. split.
  - intros s. rewrite (sequences_elem_of fs s Hc), (sequences_elem_of fs' s Hc').
    split; intros (Hr & z & Hex); (split; [exact Hr|]).
    + destruct (Hcases (segment_name s z)) as [H|[(n & Hn & Hx)|H]].
      * destruct (Hdone _ H) as (Hs & _ & d & Hd & Hout).
        destruct z; [unfold segment_name in Hs; rewrite HasSuffix_app in Hs; discriminate|].
        exists true.
        change (segment_name s true) with (segment_name s false +:+ compressedSuffix).
        rewrite Hout. eauto.
      * destruct (Hdone _ Hn) as (Hs & _ & d & Hd & _).
        pose proof (no_twins_elem fs n Htw
                      ltac:(apply ReadDir_elem_of; rewrite Hd; eauto) Hs) as Hnone.
        rewrite <- Hx in Hnone. rewrite Hnone in Hex. destruct Hex. discriminate.
      * exists z. rewrite H. exact Hex.
    + destruct (Hcases (segment_name s z)) as [H|[(n & Hn & Hx)|H]].
      * destruct (Hdone _ H) as (_ & Hnone & _). rewrite Hnone in Hex.
        destruct Hex. discriminate.
      * destruct (Hraw n Hn) as (s' & Hr' & ->).
        destruct (Hdone _ Hn) as (_ & _ & d & Hd & _).
        assert (s = s') as <-.
        { apply (f_equal filenameToSequence) in Hx.
          change (segment_name s' false +:+ compressedSuffix)
            with (segment_name s' true) in Hx.
          rewrite !filenameToSequence_segment_name in Hx by assumption. exact Hx. }
        exists false. rewrite Hd. eauto.
      * exists z. rewrite <- H. exact Hex.
  - intros s. unfold logical.
    change (segment_name s true) with (segment_name s false +:+ compressedSuffix).
    set (raw := segment_name s false).
    assert (Hrs : HasSuffix raw compressedSuffix = false)
      by apply HasSuffix_sequenceToFilename.
    destruct (decide (raw ∈ done)) as [Hd|Hd].
    + destruct (Hdone raw Hd) as (_ & Hnone & d & Hd' & Hout).
      rewrite Hd', Hnone, Hout. symmetry. apply snappy_round_trip.
    + assert (Hsame : fs' !! raw = fs !! raw).
      { apply Hrest; [exact Hd|]. intros n _. apply HasSuffix_app_neq. exact Hrs. }
      rewrite Hsame. destruct (fs !! raw); [reflexivity|].
      assert (Hsame' : fs' !! (raw +:+ compressedSuffix) = fs !! (raw +:+ compressedSuffix)).
      { apply Hrest.
        - intros H. destruct (Hdone _ H) as (Hs & _). rewrite HasSuffix_app in Hs.
          discriminate.
        - intros n Hn E. apply app_suffix_inj in E. subst n. contradiction. }
      rewrite Hsame'. reflexivity.
Qed.

(** C2. In a directory of raw and compressed segments in which no segment
    is there twice, [CompressBefore] succeeds, each raw file it removes has
    a compressed twin that decodes to the very bytes removed, and a new
    reader finds the same log: [NewReader] gives readers at the same place,
    and any number of calls of [Read] return the same records in the same
    order as on the directory before compression. *)
Theorem CompressBefore_transparent (o : Offset) (fs : gmap string (list byte)) :
  canonical_dir fs -> no_twins fs ->
  exists fs',
    CompressBefore snappy_encode o fs = (fs', None)
    /\ (forall name data,
          fs !! name = Some data -> fs' !! name = None ->
          exists packed, fs' !! (name +:+ compressedSuffix) = Some packed
                         /\ snappy_decode packed = (data, false))
    /\ (forall offset,
          (forall off, offset = Some off ->
             0 <= FileSequence (legacy_offset off) < 2 ^ 63) ->
          NewReader_same snappy_decode fs fs'
            (NewReader snappy_decode offset fs) (NewReader snappy_decode offset fs')
          /\ forall r r',
               NewReader snappy_decode offset fs = nr_ok r ->
               NewReader snappy_decode offset fs' = nr_ok r' ->
               forall n fuel chunks wal,
                 fst <$> Read_many snappy_decode n fuel chunks wal fs' r'
                 = fst <$> Read_many snappy_decode n fuel chunks wal fs r).
Proof.
  intros Hc Htw.
  destruct (CompressBefore_spec o fs Htw) as (fs' & done & Hrun & Hdone & Hrest).
  pose proof (compressed_same_log fs fs' done Hc Htw Hdone Hrest) as Hlog.
  exists fs'. split; [exact Hrun|]. split.
  - intros name data Hd Hnone.
    destruct (decide (name ∈ done)) as [H|H].
    + destruct (Hdone name H) as (_ & _ & d & Hd' & Hout).
      exists (snappy_encode d). split; [exact Hout|].
      rewrite snappy_round_trip. congruence.
    + exfalso.
      destruct (decide (Exists (fun n => name = n +:+ compressedSuffix) done)) as [E|E].
      * apply Exists_exists in E as (n & Hn & ->).
        destruct (Hdone n Hn) as (_ & _ & d & _ & Hout). congruence.
      * rewrite Hrest in Hnone; [congruence|exact H|].
        intros n Hn Hx. apply E. apply Exists_exists. exists n. split; assumption.
  - intros offset Hoff.
    pose proof (NewReader_same_view snappy_decode offset fs fs' Hlog Hoff) as Hnr.
    split; [exact Hnr|]. intros r r' Hr Hr'. rewrite Hr, Hr' in Hnr. cbn in Hnr.
    intros n fuel chunks wal. symmetry.
    apply Read_many_same_view; assumption.
Qed.

End Compression.

(** *** What the writer's calls do to the active file *)

Lemma bufio_Write_app buffered p :
  fst (bufio_Write buffered p) ++ snd (bufio_Write buffered p) = buffered ++ p.
Proof.
  unfold bufio_Write.
  destruct (Z.of_nat (length p) <=? defaultFileBuffer - Z.of_nat (length buffered));
    [reflexivity|].
  destruct buffered as [|x buffered]; [cbn; apply app_nil_r|].
  set (k := Z.to_nat _).
  destruct (Z.of_nat (length (drop k p)) <=? defaultFileBuffer); cbn [fst snd].
  - rewrite <- app_assoc, take_drop. reflexivity.
  - rewrite app_nil_r, take_drop. reflexivity.
Qed.

Lemma append_file_holds (fs : gmap string (list byte)) name flushed out :
  fs !! name = Some flushed ->
  append_file (Some name) out fs !! name = Some (flushed ++ out)
  /\ forall x, x <> name -> append_file (Some name) out fs !! x = fs !! x.
Proof.
  intros H. unfold append_file. rewrite H. split.
  - apply lookup_insert_eq.
  - intros x Hx. apply lookup_insert_ne. congruence.
Qed.

Lemma writer_Write_holds wal (fs : gmap string (list byte)) name content p :
  holds wal fs name content ->
  let '(n, wal', fs') := writer_Write wal fs p in
  n = Z.of_nat (length p)
  /\ holds wal' fs' name (content ++ p)
  /\ same_but wal fs wal' fs' name
  /\ position (wal_fb wal') = position (wal_fb wal).
Proof.
  intros (Hf & flushed & Hl & Hc). unfold writer_Write.
  pose proof (bufio_Write_app (writer wal) p) as Hb.
  destruct (bufio_Write (writer wal) p) as [out buffered]. cbn [fst snd] in Hb.
  rewrite Hf. destruct (append_file_holds fs name flushed out Hl) as [H1 H2].
  split; [reflexivity|]. split; [|split; [|reflexivity]].
  - split; [exact Hf|]. exists (flushed ++ out). split; [exact H1|].
    cbn [writer]. rewrite <- app_assoc, Hb, app_assoc, Hc. reflexivity.
  - split; [reflexivity|]. split; [reflexivity|exact H2].
Qed.

Lemma add_position_holds wal (fs : gmap string (list byte)) name content n :
  holds wal fs name content -> holds (add_position wal n) fs name content.
Proof. intros H. exact H. Qed.

Lemma writer_Flush_holds wal (fs : gmap string (list byte)) name content :
  holds wal fs name content ->
  let '(wal', fs') := writer_Flush wal fs in
  fs' !! name = Some content /\ writer wal' = []
  /\ holds wal' fs' name content
  /\ same_but wal fs wal' fs' name
  /\ position (wal_fb wal') = position (wal_fb wal).
Proof.
  intros (Hf & flushed & Hl & Hc). unfold writer_Flush. rewrite Hf.
  destruct (append_file_holds fs name flushed (writer wal) Hl) as [H1 H2].
  rewrite Hc in H1. split; [exact H1|]. split; [reflexivity|].
  split; [|split; [|reflexivity]].
  - split; [exact Hf|]. exists content. split; [exact H1|apply app_nil_r].
  - split; [reflexivity|]. split; [reflexivity|exact H2].
Qed.

Lemma same_but_trans wal (fs : gmap string (list byte)) wal1 fs1 wal2 fs2 name :
  same_but wal fs wal1 fs1 name -> same_but wal1 fs1 wal2 fs2 name ->
  same_but wal fs wal2 fs2 name.
Proof.
  intros (A1 & A2 & A3) (B1 & B2 & B3). split; [congruence|]. split; [congruence|].
  intros x Hx. rewrite B3, A3 by exact Hx. reflexivity.
Qed.

Lemma same_but_add_position wal (fs : gmap string (list byte)) wal1 fs1 name n :
  same_but wal fs wal1 fs1 name -> same_but wal fs (add_position wal1 n) fs1 name.
Proof. intros H. exact H. Qed.

Lemma write_bufs_holds bufs : forall n wal (fs : gmap string (list byte)) name content,
  holds wal fs name content ->
  let '(n', wal', fs') := write_bufs (n, wal, fs) bufs in
  holds wal' fs' name (content ++ concat bufs)
  /\ same_but wal fs wal' fs' name.
Proof.
  induction bufs as [|b bufs IH]; intros n wal fs name content H.
  - cbn. rewrite app_nil_r. split; [exact H|]. split; [reflexivity|]. split; reflexivity.
  - unfold write_bufs. cbn [foldl]. fold (write_bufs).
    pose proof (writer_Write_holds wal fs name content b H) as Hw.
    destruct (writer_Write wal fs b) as [[n1 wal1] fs1].
    destruct Hw as (_ & H1 & S1 & _).
    specialize (IH n1 (add_position wal1 n1) fs1 name (content ++ b)
                  (add_position_holds _ _ _ _ _ H1)).
    change (foldl _ (n1, add_position wal1 n1, fs1) bufs)
      with (write_bufs (n1, add_position wal1 n1, fs1) bufs).
    destruct (write_bufs (n1, add_position wal1 n1, fs1) bufs) as [[n2 wal2] fs2].
    destruct IH as [H2 S2]. cbn [concat]. rewrite app_assoc. split; [exact H2|].
    eapply same_but_trans; [|exact S2]. apply same_but_add_position. exact S1.
Qed.

Lemma uint32_total_length bufs :
  PutUint32 (uint32 (total_length bufs)) ++ concat bufs = frame (concat bufs).
Proof. unfold frame. rewrite total_length_concat. reflexivity. Qed.

(** [Write], up to the sync, appends the frame of the payload. *)
Lemma Write_frame_holds wal (fs : gmap string (list byte)) name content bufs :
  holds wal fs name content ->
  let '(n, wal', fs') := Write_frame wal fs bufs in
  holds wal' fs' name (content ++ frame (concat bufs))
  /\ same_but wal fs wal' fs' name.
Proof.
  intros H. unfold Write_frame.
  pose proof (writer_Write_holds wal fs name content
                (PutUint32 (uint32 (total_length bufs))) H) as Hw.
  destruct (writer_Write wal fs _) as [[n0 wal0] fs0].
  destruct Hw as (_ & H0 & S0 & _).
  pose proof (write_bufs_holds bufs n0 (add_position wal0 n0) fs0 name _
                (add_position_holds _ _ _ _ _ H0)) as Hb.
  destruct (write_bufs (n0, add_position wal0 n0, fs0) bufs) as [[n1 wal1] fs1].
  destruct Hb as [H1 S1].
  rewrite <- app_assoc, uint32_total_length in H1.
  assert (S01 : same_but wal fs wal1 fs1 name).
  { eapply same_but_trans; [|exact S1]. apply same_but_add_position. exact S0. }
  destruct (syncImmediate wal1).
  - unfold doSync. pose proof (writer_Flush_holds wal1 fs1 name _ H1) as Hf.
    destruct (writer_Flush wal1 fs1) as [wal2 fs2].
    destruct Hf as (_ & _ & H2 & S2 & _). split; [exact H2|].
    eapply same_but_trans; eassumption.
  - split; assumption.
Qed.

(** *** The writer keeps the log *)

Lemma sequenceToFilename_inj a b :
  0 <= a < 2 ^ 63 -> 0 <= b < 2 ^ 63 ->
  sequenceToFilename a = sequenceToFilename b -> a = b.
Proof.
  intros Ha Hb H. apply (f_equal filenameToSequence) in H.
  rewrite !filenameToSequence_sequenceToFilename in H by assumption. exact H.
Qed.

Lemma frames_app recs new : frames (recs ++ new) = frames recs ++ frames new.
Proof. unfold frames. rewrite map_app, concat_app. reflexivity. Qed.

Lemma frames_cons rec recs : frames (rec :: recs) = frame rec ++ frames recs.
Proof. reflexivity. Qed.

Lemma frames_one rec : frames [rec] = frame rec.
Proof. unfold frames. cbn [map concat]. apply app_nil_r. Qed.

Lemma records_of_app a b : records_of (a ++ b) = records_of a ++ records_of b.
Proof. unfold records_of. rewrite map_app, concat_app. reflexivity. Qed.

Lemma records_of_one seg : records_of [seg] = seg_records seg.
Proof. unfold records_of. cbn [map concat]. apply app_nil_r. Qed.

Lemma WAL_advance_fresh now wal (fs : gmap string (list byte)) :
  fs !! sequenceToFilename (newFileSequence now) = None ->
  WAL_advance now wal fs
  = (mkWAL (mkFilebased (Some (sequenceToFilename (newFileSequence now))) false
                        (newFileSequence now) 0)
           (syncImmediate wal) [],
     <[sequenceToFilename (newFileSequence now) := []]> fs, None).
Proof.
  intros H. unfold WAL_advance, openFile, filename. cbn [fileSequence position].
  rewrite H. reflexivity.
Qed.

Lemma closed_below_cur closed cur :
  StronglySorted Z.lt (map seg_seq (closed ++ [cur])) ->
  forall seg, seg ∈ closed -> seg_seq seg < seg_seq cur.
Proof.
  intros Hs seg Hin. rewrite map_app in Hs.
  apply (StronglySorted_app_1_elem_of _ _ _ _ _ Hs).
  - apply list_elem_of_fmap. eauto.
  - left.
Qed.

(** The log after these records have gone to the active segment. *)
Lemma log_inv_append closed cur wal (fs : gmap string (list byte)) wal' fs' new :
  log_inv closed cur wal fs ->
  holds wal' fs' (sequenceToFilename (seg_seq cur))
        (frames (seg_records cur) ++ frames new) ->
  same_but wal fs wal' fs' (sequenceToFilename (seg_seq cur)) ->
  Forall (fun rec => 0 < Z.of_nat (length rec) < 2 ^ 32) new ->
  log_inv closed (mkSegment (seg_seq cur) (seg_records cur ++ new)) wal' fs'.
Proof.
  intros (Hfile & Hseq & Hsort & Hrange & Hclosed & Hcur & Hdom & Hrecs)
         (Hf' & Hfl') (Hs1 & Hs2 & Hs3) Hnew.
  assert (Hmap : map seg_seq (closed ++ [mkSegment (seg_seq cur) (seg_records cur ++ new)])
                 = map seg_seq (closed ++ [cur])) by (rewrite !map_app; reflexivity).
  unfold log_inv. cbn [seg_seq seg_records]. rewrite Hmap.
  split; [exact Hf'|]. split; [congruence|]. split; [exact Hsort|]. split; [exact Hrange|].
  split; [|split; [|split]].
  - assert (Hrin : forall seg, seg ∈ closed ++ [cur] -> 0 < seg_seq seg < 2 ^ 63).
    { intros seg Hin. rewrite Forall_forall in Hrange. apply Hrange.
      apply list_elem_of_fmap. eauto. }
    rewrite Forall_forall in Hclosed. apply Forall_forall.
    intros seg Hin. rewrite Hs3; [apply Hclosed, Hin|].
    intros E. apply sequenceToFilename_inj in E.
    + pose proof (closed_below_cur closed cur Hsort seg Hin). lia.
    + specialize (Hrin seg ltac:(apply elem_of_app; left; exact Hin)). lia.
    + specialize (Hrin cur ltac:(apply elem_of_app; right; left)). lia.
  - rewrite frames_app. exact Hfl'.
  - intros name Hn.
    destruct (decide (name = sequenceToFilename (seg_seq cur))) as [->|Hne].
    + eexists. split; [apply elem_of_app; right; left|reflexivity].
    + rewrite Hs3 in Hn by exact Hne. destruct (Hdom name Hn) as (seg & Hin & ->).
      apply elem_of_app in Hin as [Hin|Hin].
      * exists seg. split; [apply elem_of_app; left; exact Hin|reflexivity].
      * apply list_elem_of_singleton in Hin. subst seg. contradiction.
  - rewrite records_of_app, records_of_one in *. cbn [seg_records].
    apply Forall_app in Hrecs as [H1 H2].
    apply Forall_app. split; [exact H1|]. apply Forall_app. split; assumption.
Qed.

(** The log after the rollover to a segment of a greater sequence. *)
Lemma log_inv_roll closed cur wal (fs : gmap string (list byte)) now :
  log_inv closed cur wal fs ->
  seg_seq cur < newFileSequence now < 2 ^ 63 ->
  let '(wal', fs', err) := Write_rollover now wal fs in
  err = None
  /\ log_inv (closed ++ [cur]) (mkSegment (newFileSequence now) []) wal' fs'.
Proof.
  intros Hinv Hnow. pose proof Hinv as
    (Hfile & Hseq & Hsort & Hrange & Hclosed & Hcur & Hdom & Hrecs).
  set (name := sequenceToFilename (seg_seq cur)) in *.
  assert (Hh : holds wal fs name (frames (seg_records cur))) by (split; assumption).
  unfold Write_rollover.
  pose proof (writer_Write_holds wal fs name _ sentinelBytes Hh) as Hw.
  destruct (writer_Write wal fs sentinelBytes) as [[n1 wal1] fs1].
  destruct Hw as (_ & H1 & S1 & _).
  pose proof (writer_Flush_holds wal1 fs1 name _ H1) as Hf.
  destruct (writer_Flush wal1 fs1) as [wal2 fs2].
  destruct Hf as (Hcontent & _ & _ & S2 & _).
  pose proof (same_but_trans _ _ _ _ _ _ _ S1 S2) as (_ & _ & Hother).
  set (next := newFileSequence now) in *.
  assert (Hrin : forall seg, seg ∈ closed ++ [cur] -> 0 < seg_seq seg < 2 ^ 63).
  { intros seg Hin. rewrite Forall_forall in Hrange. apply Hrange.
    apply list_elem_of_fmap. eauto. }
  assert (Hbelow : forall seg, seg ∈ closed ++ [cur] -> seg_seq seg <= seg_seq cur).
  { intros seg Hin. apply elem_of_app in Hin as [Hin|Hin].
    - pose proof (closed_below_cur closed cur Hsort seg Hin). lia.
    - apply list_elem_of_singleton in Hin. subst. lia. }
  assert (Hdom2 : forall x, is_Some (fs2 !! x) ->
            exists seg, seg ∈ closed ++ [cur] /\ x = sequenceToFilename (seg_seq seg)).
  { intros x Hx. destruct (decide (x = name)) as [->|Hne].
    - exists cur. split; [apply elem_of_app; right; left|reflexivity].
    - rewrite Hother in Hx by exact Hne. apply Hdom. exact Hx. }
  assert (Hfresh : fs2 !! sequenceToFilename next = None).
  { apply eq_None_not_Some. intros Hx. destruct (Hdom2 _ Hx) as (seg & Hin & E).
    apply sequenceToFilename_inj in E.
    - specialize (Hbelow seg Hin). lia.
    - specialize (Hrin cur ltac:(apply elem_of_app; right; left)). lia.
    - specialize (Hrin seg Hin). lia. }
  rewrite (WAL_advance_fresh now wal2 fs2 Hfresh). fold next.
  split; [reflexivity|].
  assert (Hneq : forall seg, seg ∈ closed ++ [cur] ->
            sequenceToFilename (seg_seq seg) <> sequenceToFilename next).
  { intros seg Hin E. apply sequenceToFilename_inj in E.
    - specialize (Hbelow seg Hin). lia.
    - specialize (Hrin seg Hin). lia.
    - specialize (Hrin cur ltac:(apply elem_of_app; right; left)). lia. }
  unfold log_inv. cbn [wal_fb file fileSequence writer seg_seq seg_records].
  split; [reflexivity|]. split; [reflexivity|]. split; [|split; [|split; [|split; [|split]]]].
  - rewrite map_app. apply StronglySorted_app_2; [|exact Hsort|repeat constructor].
    intros a b Ha Hb. apply list_elem_of_singleton in Hb. subst b.
    apply list_elem_of_fmap in Ha as (seg & -> & Hin). specialize (Hbelow seg Hin).
    cbn. lia.
  - rewrite map_app. apply Forall_app. split; [exact Hrange|].
    constructor; [|constructor].
    specialize (Hrin cur ltac:(apply elem_of_app; right; left)). cbn [seg_seq]. lia.
  - apply Forall_app. split.
    + rewrite Forall_forall in Hclosed. apply Forall_forall. intros seg Hin.
      assert (Hin' : seg ∈ closed ++ [cur]) by (apply elem_of_app; left; exact Hin).
      rewrite lookup_insert_ne by (intros E; apply (Hneq seg Hin'); congruence).
      rewrite Hother; [apply Hclosed, Hin|].
      intros E. apply sequenceToFilename_inj in E.
      * pose proof (closed_below_cur closed cur Hsort seg Hin). lia.
      * specialize (Hrin seg Hin'). lia.
      * specialize (Hrin cur ltac:(apply elem_of_app; right; left)). lia.
    + constructor; [|constructor].
      rewrite lookup_insert_ne
        by (intros E; apply (Hneq cur ltac:(apply elem_of_app; right; left)); congruence).
      exact Hcontent.
  - exists []. split; [apply lookup_insert_eq|reflexivity].
  - intros x Hx. destruct (decide (x = sequenceToFilename next)) as [->|Hne].
    + eexists. split; [apply elem_of_app; right; left|reflexivity].
    + rewrite lookup_insert_ne in Hx by congruence.
      destruct (Hdom2 x Hx) as (seg & Hin & ->).
      exists seg. split; [apply elem_of_app; left; exact Hin|reflexivity].
  - rewrite records_of_app, records_of_one. cbn [seg_records]. rewrite app_nil_r.
    exact Hrecs.
Qed.

Lemma segment_app_nil cur :
  mkSegment (seg_seq cur) (seg_records cur ++ []) = cur.
Proof. destruct cur. cbn. rewrite app_nil_r. reflexivity. Qed.

(** A call of [Write] with a clock reading above the active sequence and a
    payload that fits the length prefix succeeds and keeps the log. *)
Lemma Write_log_inv maxSegmentSize now closed cur wal (fs : gmap string (list byte)) bufs :
  log_inv closed cur wal fs ->
  seg_seq cur < newFileSequence now < 2 ^ 63 ->
  total_length bufs < 2 ^ 32 ->
  exists n wal' fs' closed' cur',
    Write maxSegmentSize now wal fs bufs = ((n, None), wal', fs')
    /\ log_inv closed' cur' wal' fs'
    /\ log_grows closed cur
         (if total_length bufs =? 0 then [] else [concat bufs])
         (newFileSequence now) closed' cur'.
Proof.
  intros Hinv Hnow Hlen. pose proof Hinv as
    (Hfile & Hseq & Hsort & Hrange & Hclosed & Hcur & Hdom & Hrecs).
  unfold Write. destruct (Z.eqb_spec (total_length bufs) 0) as [Hz|Hnz].
  - exists 0, wal, fs, closed, (mkSegment (seg_seq cur) (seg_records cur ++ [])).
    split; [reflexivity|]. split; [|left; split; reflexivity].
    rewrite segment_app_nil. exact Hinv.
  - set (name := sequenceToFilename (seg_seq cur)) in *.
    assert (Hh : holds wal fs name (frames (seg_records cur))) by (split; assumption).
    pose proof (Write_frame_holds wal fs name _ bufs Hh) as Hw.
    destruct (Write_frame wal fs bufs) as [[n wal1] fs1]. destruct Hw as [H1 S1].
    rewrite <- frames_one in H1.
    assert (Hnew : Forall (fun rec => 0 < Z.of_nat (length rec) < 2 ^ 32) [concat bufs]).
    { constructor; [|constructor]. rewrite <- total_length_concat.
      pose proof (total_length_nonneg bufs). lia. }
    pose proof (log_inv_append closed cur wal fs wal1 fs1 [concat bufs] Hinv H1 S1 Hnew)
      as Hinv1.
    set (cur1 := mkSegment (seg_seq cur) (seg_records cur ++ [concat bufs])) in *.
    destruct (maxSegmentSize <=? position (wal_fb wal1)).
    + pose proof (log_inv_roll closed cur1 wal1 fs1 now Hinv1 Hnow) as Hr.
      destruct (Write_rollover now wal1 fs1) as [[wal2 fs2] err].
      destruct Hr as [-> Hinv2].
      exists n, wal2, fs2, (closed ++ [cur1]), (mkSegment (newFileSequence now) []).
      split; [reflexivity|]. split; [exact Hinv2|]. right. split; reflexivity.
    + exists n, wal1, fs1, closed, cur1.
      split; [reflexivity|]. split; [exact Hinv1|]. left. split; reflexivity.
Qed.

(** A sync keeps the log and empties the buffer. *)
Lemma doSync_log_inv closed cur wal (fs : gmap string (list byte)) :
  log_inv closed cur wal fs ->
  let '(wal', fs') := doSync wal fs in
  log_inv closed cur wal' fs' /\ writer wal' = [].
Proof.
  intros Hinv. pose proof Hinv as
    (Hfile & Hseq & Hsort & Hrange & Hclosed & Hcur & Hdom & Hrecs).
  set (name := sequenceToFilename (seg_seq cur)) in *.
  assert (Hh : holds wal fs name (frames (seg_records cur))) by (split; assumption).
  unfold doSync. pose proof (writer_Flush_holds wal fs name _ Hh) as Hf.
  destruct (writer_Flush wal fs) as [wal1 fs1].
  destruct Hf as (_ & Hw & H1 & S1 & _). split; [|exact Hw].
  rewrite <- (segment_app_nil cur).
  apply (log_inv_append closed cur wal fs wal1 fs1 []); try assumption.
  - cbn. rewrite app_nil_r. exact H1.
  - constructor.
Qed.

(** [Open] on an empty directory starts the log with one empty segment. *)
Lemma Open_log_inv now0 syncInterval :
  0 < newFileSequence now0 < 2 ^ 63 ->
  exists wal fs,
    Open now0 syncInterval ∅ = (Some wal, fs, None)
    /\ log_inv [] (mkSegment (newFileSequence now0) []) wal fs.
Proof.
  intros Hnow. unfold Open.
  assert (Hs : appendSentinels (∅ : gmap string (list byte)) = ∅) by reflexivity.
  rewrite Hs. rewrite WAL_advance_fresh by apply lookup_empty.
  eexists _, _. split; [reflexivity|].
  unfold log_inv. cbn [wal_fb file fileSequence writer seg_seq seg_records app map].
  split; [reflexivity|]. split; [reflexivity|].
  split; [repeat constructor|]. split; [repeat constructor; lia|].
  split; [constructor|]. split; [|split].
  - exists []. split; [apply lookup_insert_eq|reflexivity].
  - intros name Hn. eexists. split; [left|].
    destruct (decide (name = sequenceToFilename (newFileSequence now0))) as [->|Hne];
      [reflexivity|].
    rewrite lookup_insert_ne, lookup_empty in Hn by congruence.
    destruct Hn. discriminate.
  - constructor.
Qed.

(** *** The directory of a log *)

Lemma log_seq_range (closed : list segment) (cur : segment) wal (fs : gmap string (list byte)) seg :
  log_inv closed cur wal fs -> seg ∈ closed ++ [cur] -> 0 < seg_seq seg < 2 ^ 63.
Proof.
  intros (_ & _ & _ & Hrange & _) Hin. rewrite Forall_forall in Hrange.
  apply Hrange. apply list_elem_of_fmap. eauto.
Qed.

Lemma log_lookup_cases (closed : list segment) (cur : segment) (i : nat) seg :
  (closed ++ [cur]) !! i = Some seg ->
  ((i < length closed)%nat /\ closed !! i = Some seg)
  \/ (i = length closed /\ seg = cur).
Proof.
  intros H. destruct (Nat.lt_ge_cases i (length closed)) as [Hlt|Hge].
  - left. split; [exact Hlt|]. rewrite lookup_app_l in H by exact Hlt. exact H.
  - right. rewrite lookup_app_r in H by exact Hge.
    destruct (i - length closed)%nat as [|k] eqn:E.
    + cbn in H. injection H as <-. split; [lia|reflexivity].
    + change ([cur] !! S k) with (([] : list segment) !! k) in H.
      rewrite lookup_nil in H. discriminate.
Qed.

(** What the reader sees of its segment is a prefix of the segment's bytes:
    all of them once the segment is closed, and for the active segment what
    has left the writer's buffer. *)
Lemma log_visible (closed : list segment) (cur : segment) wal (fs : gmap string (list byte)) (i : nat) seg :
  log_inv closed cur wal fs -> (closed ++ [cur]) !! i = Some seg ->
  exists vis more,
    fs !! sequenceToFilename (seg_seq seg) = Some vis
    /\ ideal (bool_decide (i < length closed)%nat) seg = vis ++ more
    /\ ((i < length closed)%nat -> more = [])
    /\ (writer wal = [] -> more = []).
Proof.
  intros (_ & _ & _ & _ & Hclosed & (flushed & Hfl & Hcur) & _) Hi.
  destruct (log_lookup_cases closed cur i seg Hi) as [[Hlt Hl]|[-> ->]].
  - rewrite bool_decide_eq_true_2 by exact Hlt.
    rewrite Forall_forall in Hclosed.
    exists (ideal true seg), []. rewrite app_nil_r.
    split; [apply Hclosed; apply list_elem_of_lookup; eauto|]. auto.
  - rewrite bool_decide_eq_false_2 by lia.
    exists flushed, (writer wal). split; [exact Hfl|].
    unfold ideal. rewrite app_nil_r. split; [symmetry; exact Hcur|].
    split; [lia|auto].
Qed.

Lemma log_inv_canonical (closed : list segment) (cur : segment) wal (fs : gmap string (list byte)) :
  log_inv closed cur wal fs -> canonical_dir fs.
Proof.
  intros Hinv. apply canonical_dir_intro. intros name Hn.
  pose proof Hinv as (_ & _ & _ & _ & _ & _ & Hdom & _).
  destruct (Hdom name Hn) as (seg & Hin & ->).
  pose proof (log_seq_range _ _ _ _ seg Hinv Hin).
  apply canonicalb_spec. exists (seg_seq seg), false. split; [lia|reflexivity].
Qed.

Lemma log_file_exists (closed : list segment) (cur : segment) wal (fs : gmap string (list byte)) seg :
  log_inv closed cur wal fs -> seg ∈ closed ++ [cur] ->
  is_Some (fs !! sequenceToFilename (seg_seq seg)).
Proof.
  intros Hinv Hin. apply list_elem_of_lookup in Hin as [i Hi].
  destruct (log_visible closed cur wal fs i seg Hinv Hi) as (vis & _ & H & _).
  rewrite H. eauto.
Qed.

Lemma log_sequences (closed : list segment) (cur : segment) wal (fs : gmap string (list byte)) s :
  log_inv closed cur wal fs ->
  s ∈ sequences fs <-> exists seg, seg ∈ closed ++ [cur] /\ seg_seq seg = s.
Proof.
  intros Hinv. pose proof (log_inv_canonical _ _ _ _ Hinv) as Hc.
  rewrite (sequences_elem_of fs s Hc). split.
  - intros (Hr & z & Hex). pose proof Hinv as (_ & _ & _ & _ & _ & _ & Hdom & _).
    destruct (Hdom _ Hex) as (seg & Hin & E). exists seg. split; [exact Hin|].
    pose proof (log_seq_range _ _ _ _ seg Hinv Hin).
    apply (f_equal filenameToSequence) in E.
    rewrite filenameToSequence_segment_name in E by exact Hr.
    rewrite filenameToSequence_sequenceToFilename in E by lia. congruence.
  - intros (seg & Hin & <-). pose proof (log_seq_range _ _ _ _ seg Hinv Hin).
    split; [lia|]. exists false. apply (log_file_exists _ _ _ _ _ Hinv Hin).
Qed.

(** Sequences grow along the log. *)
Lemma log_seq_lt (closed : list segment) (cur : segment) wal (fs : gmap string (list byte)) (i j : nat) a b :
  log_inv closed cur wal fs ->
  (closed ++ [cur]) !! i = Some a -> (closed ++ [cur]) !! j = Some b ->
  (i < j)%nat -> seg_seq a < seg_seq b.
Proof.
  intros (_ & _ & Hsort & _) Hi Hj Hlt.
  revert i j Hi Hj Hlt. generalize (closed ++ [cur]) Hsort. clear.
  intros l Hs. induction l as [|x l IH]; intros i j Hi Hj Hlt.
  - rewrite lookup_nil in Hi. discriminate.
  - cbn [map] in Hs. apply StronglySorted_inv in Hs as [Hs Hall].
    destruct j as [|j]; [lia|]. cbn in Hj. destruct i as [|i].
    + cbn in Hi. injection Hi as <-. rewrite Forall_forall in Hall. apply Hall.
      apply list_elem_of_fmap. exists b. split; [reflexivity|].
      apply list_elem_of_lookup. eauto.
    + cbn in Hi. apply (IH Hs i j); [assumption|assumption|lia].
Qed.

Lemma log_seq_index (closed : list segment) (cur : segment) wal (fs : gmap string (list byte)) (i j : nat) a b :
  log_inv closed cur wal fs ->
  (closed ++ [cur]) !! i = Some a -> (closed ++ [cur]) !! j = Some b ->
  seg_seq a < seg_seq b -> (i < j)%nat.
Proof.
  intros Hinv Hi Hj Hlt. destruct (Nat.lt_trichotomy i j) as [H|[H|H]]; [exact H| |].
  - subst j. rewrite Hi in Hj. injection Hj as <-. lia.
  - pose proof (log_seq_lt _ _ _ _ j i b a Hinv Hj Hi H). lia.
Qed.

Section ReaderOnLog.

Variable snappy_decode : list byte -> list byte * bool.

(** *** The reader on the log *)

Lemma frame_length rec : length (frame rec) = (4 + length rec)%nat.
Proof. unfold frame. rewrite length_app. reflexivity. Qed.

Lemma Uint32_frame_prefix n :
  0 <= n < 2 ^ 32 -> Uint32 (PutUint32 (uint32 n)) = n.
Proof.
  intros H. rewrite Uint32_PutUint32. rewrite !uint32_small; try lia.
  rewrite uint32_small; lia.
Qed.

Lemma stream_raw r (fs : gmap string (list byte)) name s vis :
  r_fb r = mkFilebased (Some name) false s (position (r_fb r)) ->
  fs !! name = Some vis ->
  stream snappy_decode r fs = (vis, false).
Proof. intros Hr Hv. unfold stream. rewrite Hr. cbn. rewrite Hv. reflexivity. Qed.

(** A call of [r.reader.Read] by a reader that stands in a segment of the
    log: it delivers the next bytes of the segment, or finds none yet. *)
Lemma reader_Read_log (closed : list segment) (cur : segment) wal
    (fs : gmap string (list byte)) (i : nat) seg r want chunk :
  log_inv closed cur wal fs ->
  (closed ++ [cur]) !! i = Some seg ->
  r_fb r = mkFilebased (Some (sequenceToFilename (seg_seq seg))) false
                       (seg_seq seg) (position (r_fb r)) ->
  (1 <= want)%nat ->
  let bytes := ideal (bool_decide (i < length closed)%nat) seg in
  match reader_Read snappy_decode r fs want chunk with
  | (io_ok bs, r1) =>
      r_fb r1 = r_fb r
      /\ consumed r1 = (consumed r + length bs)%nat
      /\ (1 <= length bs <= want)%nat
      /\ (consumed r1 <= length bytes)%nat
      /\ drop (consumed r) bytes = bs ++ drop (consumed r1) bytes
  | (io_EOF, r1) =>
      r1 = r
      /\ ((i < length closed)%nat \/ writer wal = [] -> drop (consumed r) bytes = [])
  | (io_err, _) => False
  end.
Proof.
  intros Hinv Hi Hr Hw bytes.
  destruct (log_visible closed cur wal fs i seg Hinv Hi) as (vis & more & Hv & Hid & Hm1 & Hm2).
  fold bytes in Hid.
  pose proof (stream_raw r fs _ _ vis Hr Hv) as Hst.
  destruct (reader_Read snappy_decode r fs want chunk) as [[bs| |] r1] eqn:HR.
  - destruct (reader_Read_ok snappy_decode r fs want chunk bs r1 HR Hw)
      as (Hfb & Hc & Hn & Hbs & Hle).
    rewrite Hst in Hbs, Hle. cbn [fst] in Hbs, Hle.
    split; [exact Hfb|]. split; [exact Hc|]. split; [exact Hn|].
    split; [rewrite Hid, length_app; lia|].
    rewrite Hid. rewrite !drop_app_le by lia. rewrite app_assoc. f_equal.
    rewrite Hc, Hbs at 1. rewrite <- drop_drop. symmetry. apply take_drop.
  - unfold reader_Read in HR. rewrite Hst in HR.
    destruct (drop (consumed r) vis) as [|x rest] eqn:E; [|discriminate].
    injection HR as <-. split; [reflexivity|]. intros Hcl.
    assert (more = []) as -> by (destruct Hcl; auto).
    rewrite Hid, app_nil_r. exact E.
  - unfold reader_Read in HR. rewrite Hst in HR.
    destruct (drop (consumed r) vis); discriminate.
Qed.

Lemma pending_of_cons (closed : list segment) (cur : segment) i rec here :
  pending_of closed cur i (rec :: here) = rec :: pending_of closed cur i here.
Proof. reflexivity. Qed.

Lemma turns_left_read (closed : list segment) (cur : segment) (i : nat) seg r r1 :
  (closed ++ [cur]) !! i = Some seg ->
  (consumed r < consumed r1)%nat ->
  (consumed r1 <= length (ideal (bool_decide (i < length closed)%nat) seg))%nat ->
  (turns_left closed cur i r1 < turns_left closed cur i r)%nat.
Proof. intros Hi H1 H2. unfold turns_left. rewrite Hi. cbn [default from_option id]. lia. Qed.

Lemma ideal_length_le b seg : (length (ideal b seg) <= length (ideal true seg))%nat.
Proof. unfold ideal. rewrite !length_app. destruct b; simpl; lia. Qed.

Lemma turns_left_advance (closed : list segment) (cur : segment) (i : nat) seg' r r' :
  (closed ++ [cur]) !! S i = Some seg' ->
  consumed r' = 0%nat ->
  (turns_left closed cur (S i) r' < turns_left closed cur i r)%nat.
Proof.
  intros Hi Hc. unfold turns_left. rewrite Hi. cbn [default from_option id].
  rewrite (drop_S _ seg' (S i) Hi). cbn [map concat length]. rewrite length_app.
  pose proof (ideal_length_le (bool_decide (S i < length closed)%nat) seg'). lia.
Qed.

Lemma records_of_elem (P : list byte -> Prop) (segs : list segment) seg :
  seg ∈ segs -> Forall P (records_of segs) -> Forall P (seg_records seg).
Proof.
  intros Hin. induction segs as [|a segs IH]; [inversion Hin|].
  unfold records_of. cbn [map concat]. intros H. apply Forall_app in H as [H1 H2].
  apply elem_of_cons in Hin as [->|Hin]; [exact H1|apply IH; assumption].
Qed.

Lemma r_add_position_fb r name s k :
  r_fb r = mkFilebased (Some name) false s (position (r_fb r)) ->
  r_fb (r_add_position r k)
  = mkFilebased (Some name) false s (position (r_fb (r_add_position r k))).
Proof. intros H. unfold r_add_position. cbn [r_fb position]. rewrite H. reflexivity. Qed.

Lemma Uint32_sentinelBytes : Uint32 sentinelBytes = 0.
Proof. reflexivity. Qed.

(** One turn of [Read] by a reader that stands in the log: it stays in the
    log with the same records pending, or returns the first pending record;
    it never fails; it sleeps, once everything is flushed, only when nothing
    is pending. Each turn that is not a sleep brings the end of the log
    nearer. *)
Lemma Read_step_log (closed : list segment) (cur : segment) wal
    (fs : gmap string (list byte)) chunk (i : nat) here pc r :
  log_inv closed cur wal fs ->
  reader_in closed cur i here pc r ->
  Forall (fun rec => 0 < Z.of_nat (length rec) < 2 ^ 32) here ->
  match Read_step snappy_decode wal fs chunk pc r with
  | st_continue pc' r' =>
      exists i' here',
        reader_in closed cur i' here' pc' r'
        /\ pending_of closed cur i' here' = pending_of closed cur i here
        /\ Forall (fun rec => 0 < Z.of_nat (length rec) < 2 ^ 32) here'
        /\ (turns_left closed cur i' r' < turns_left closed cur i r)%nat
  | st_return b r' =>
      exists here',
        here = b :: here'
        /\ reader_in closed cur i here' (at_length []) r'
        /\ (turns_left closed cur i r' < turns_left closed cur i r)%nat
  | st_sleep => writer wal = [] -> pending_of closed cur i here = []
  | st_fail _ _ => False
  end.
Proof.
  intros Hinv (seg & Hi & Hfb & Hcons & Hpc) Hrange.
  set (cl := bool_decide (i < length closed)%nat) in *.
  set (tail := if cl then sentinelBytes else []) in *.
  set (bytes := ideal cl seg) in *. cbv zeta in Hpc.
  destruct pc as [lenBuf| |len b]; cbn [Read_step].
  - (* reading the length *)
    destruct Hpc as [Hlen Hsplit].
    assert (Hw : (1 <= 4 - length lenBuf)%nat) by lia.
    pose proof (reader_Read_log closed cur wal fs i seg r _ chunk Hinv Hi Hfb Hw) as HR.
    cbv zeta in HR. fold cl bytes in HR.
    destruct (reader_Read snappy_decode r fs (4 - length lenBuf) chunk) as [[bs| |] r1].
    + destruct HR as (Hfb1 & Hc1 & Hn & Hle & Hdrop).
      set (r' := r_add_position r1 (length bs)).
      assert (Hfb' : r_fb r' = mkFilebased (Some (sequenceToFilename (seg_seq seg)))
                                 false (seg_seq seg) (position (r_fb r'))).
      { apply r_add_position_fb. rewrite Hfb1, Hfb. cbn [position]. reflexivity. }
      assert (Hcr : consumed r' = consumed r1) by reflexivity.
      assert (Hturn : (turns_left closed cur i r' < turns_left closed cur i r)%nat).
      { apply (turns_left_read closed cur i seg); [exact Hi|lia|]. fold cl bytes. lia. }
      assert (Hsplit' : (lenBuf ++ bs) ++ drop (consumed r') bytes = frames here ++ tail).
      { rewrite Hcr, <- app_assoc, <- Hdrop. exact Hsplit. }
      destruct (Nat.eqb_spec (length (lenBuf ++ bs)) 4) as [E4|E4].
      * destruct here as [|rec others].
        -- unfold frames in Hsplit'. cbn [map concat app] in Hsplit'.
           assert (Hcl : cl = true).
           { destruct cl; [reflexivity|]. unfold tail in Hsplit'.
             apply (f_equal length) in Hsplit'. rewrite length_app in Hsplit'.
             simpl in Hsplit'. lia. }
           unfold tail in Hsplit'. rewrite Hcl in Hsplit'.
           rewrite <- (app_nil_r sentinelBytes) in Hsplit'.
           apply app_inj_1 in Hsplit' as [Hl Hrest]; [|exact E4].
           rewrite Hl, Uint32_sentinelBytes. cbn [Z.ltb sentinel Z.compare].
           exists i, []. split; [|split; [reflexivity|split; [constructor|exact Hturn]]].
           exists seg. split; [exact Hi|]. split; [exact Hfb'|].
           split; [fold cl bytes; lia|]. cbv zeta. fold cl bytes.
           split; [unfold cl in Hcl; apply bool_decide_eq_true_1 in Hcl; exact Hcl|].
           split; [exact Hrest|reflexivity].
        -- assert (Hrhs : frames (rec :: others) ++ tail
                          = PutUint32 (uint32 (Z.of_nat (length rec)))
                            ++ (rec ++ frames others ++ tail)).
           { rewrite frames_cons. unfold frame. rewrite <- !app_assoc. reflexivity. }
           rewrite Hrhs in Hsplit'.
           apply app_inj_1 in Hsplit' as [Hl Hrest]; [|rewrite E4; reflexivity].
           apply Forall_cons in Hrange as Hrr. destruct Hrr as [Hrec _].
           rewrite Hl, Uint32_frame_prefix by lia.
           assert ((sentinel <? Z.of_nat (length rec)) = true) as ->
             by (apply Z.ltb_lt; unfold sentinel; lia).
           exists i, (rec :: others).
           split; [|split; [reflexivity|split; [exact Hrange|exact Hturn]]].
           exists seg. split; [exact Hi|]. split; [exact Hfb'|].
           split; [fold cl bytes; lia|]. cbv zeta. fold cl bytes tail.
           exists rec, others. split; [reflexivity|]. split; [reflexivity|].
           split; [simpl; lia|]. exact Hrest.
      * exists i, here.
        split; [|split; [reflexivity|split; [exact Hrange|exact Hturn]]].
        exists seg. split; [exact Hi|]. split; [exact Hfb'|].
        split; [fold cl bytes; lia|]. cbv zeta. fold cl bytes tail.
        split; [rewrite length_app in *; lia|exact Hsplit'].
    + destruct HR as [-> Hempty]. intros Hw0.
      rewrite (Hempty (or_intror Hw0)), app_nil_r in Hsplit.
      assert (Hhere : here = []).
      { destruct here as [|rec others]; [reflexivity|].
        apply (f_equal length) in Hsplit. rewrite frames_cons, !length_app, frame_length in Hsplit.
        lia. }
      subst here. unfold frames in Hsplit. cbn [map concat app] in Hsplit.
      assert (Hcl : cl = false).
      { destruct cl; [|reflexivity]. unfold tail in Hsplit.
        apply (f_equal length) in Hsplit. simpl in Hsplit. lia. }
      unfold cl in Hcl. apply bool_decide_eq_false_1 in Hcl.
      destruct (log_lookup_cases closed cur i seg Hi) as [[Hlt _]|[-> _]]; [lia|].
      unfold pending_of. rewrite drop_ge by (rewrite length_app; simpl; lia).
      reflexivity.
    + contradiction.
  - (* advancing *)
    destruct Hpc as (Hlt & Hrest & ->).
    assert (Hseg : seg ∈ closed ++ [cur]) by (apply list_elem_of_lookup; eauto).
    pose proof (log_seq_range _ _ _ _ seg Hinv Hseg) as Hsr.
    assert (Hseqr : fileSequence (r_fb r) = seg_seq seg) by (rewrite Hfb; reflexivity).
    destruct (lookup_lt_is_Some_2 (closed ++ [cur]) (S i)) as [seg' Hi'].
    { rewrite length_app. simpl. lia. }
    assert (Hseg' : seg' ∈ closed ++ [cur]) by (apply list_elem_of_lookup; eauto).
    pose proof (log_seq_lt _ _ _ _ i (S i) seg seg' Hinv Hi Hi' ltac:(lia)) as Hnext.
    assert (Hin' : seg_seq seg' ∈ sequences fs).
    { apply (log_sequences _ _ _ _ _ Hinv). eauto. }
    pose proof (Reader_advance_canonical snappy_decode r fs
                  (log_inv_canonical _ _ _ _ Hinv) ltac:(rewrite Hseqr; lia)) as Ha.
    rewrite Hseqr in Ha.
    destruct (Reader_advance snappy_decode r fs) as [r'| |].
    + destruct Ha as (s & z & -> & Hs & Hin & Hleast & Hex & Hraw).
      assert (s = seg_seq seg') as ->.
      { apply (log_sequences _ _ _ _ _ Hinv) in Hin as (segs & Hins & <-).
        apply list_elem_of_lookup in Hins as [j Hj].
        pose proof (log_seq_index _ _ _ _ i j seg segs Hinv Hi Hj ltac:(lia)) as Hij.
        destruct (decide (j = S i)) as [->|Hne]; [congruence|].
        pose proof (log_seq_lt _ _ _ _ (S i) j seg' segs Hinv Hi' Hj ltac:(lia)).
        specialize (Hleast _ Hin' Hnext). lia. }
      assert (z = false) as ->.
      { destruct z; [|reflexivity]. specialize (Hraw eq_refl).
        destruct (log_file_exists _ _ _ _ seg' Hinv Hseg') as [d Hd].
        unfold segment_name in Hraw. congruence. }
      exists (S i), (seg_records seg').
      split; [|split; [|split]].
      * exists seg'. split; [exact Hi'|]. split; [reflexivity|].
        split; [simpl; lia|]. cbv zeta. split; [simpl; lia|]. reflexivity.
      * unfold pending_of. rewrite (drop_S _ seg' (S i) Hi').
        unfold records_of. cbn [map concat app]. reflexivity.
      * apply (records_of_elem _ (closed ++ [cur])); [exact Hseg'|].
        destruct Hinv as (_ & _ & _ & _ & _ & _ & _ & Hrecs). exact Hrecs.
      * apply (turns_left_advance closed cur i seg'); [exact Hi'|reflexivity].
    + contradiction.
    + specialize (Ha _ Hin'). lia.
  - (* reading the data *)
    destruct Hpc as (rec & others & -> & -> & Hb & Hsplit).
    assert (Hw : (1 <= Z.to_nat (Z.of_nat (length rec)) - length b)%nat) by lia.
    pose proof (reader_Read_log closed cur wal fs i seg r _ chunk Hinv Hi Hfb Hw) as HR.
    cbv zeta in HR. fold cl bytes in HR.
    destruct (reader_Read snappy_decode r fs _ chunk) as [[bs| |] r1].
    + destruct HR as (Hfb1 & Hc1 & Hn & Hle & Hdrop).
      set (r' := r_add_position r1 (length bs)).
      assert (Hfb' : r_fb r' = mkFilebased (Some (sequenceToFilename (seg_seq seg)))
                                 false (seg_seq seg) (position (r_fb r'))).
      { apply r_add_position_fb. rewrite Hfb1, Hfb. cbn [position]. reflexivity. }
      assert (Hcr : consumed r' = consumed r1) by reflexivity.
      assert (Hturn : (turns_left closed cur i r' < turns_left closed cur i r)%nat).
      { apply (turns_left_read closed cur i seg); [exact Hi|lia|]. fold cl bytes. lia. }
      assert (Hsplit' : (b ++ bs) ++ drop (consumed r') bytes
                        = rec ++ frames others ++ tail).
      { rewrite Hcr, <- app_assoc, <- Hdrop. exact Hsplit. }
      destruct (Z.eqb_spec (Z.of_nat (length (b ++ bs))) (Z.of_nat (length rec))) as [E|E].
      * apply app_inj_1 in Hsplit' as [Hl Hrest]; [|lia].
        exists others. split; [rewrite Hl; reflexivity|]. split; [|exact Hturn].
        exists seg. split; [exact Hi|]. split; [exact Hfb'|].
        split; [fold cl bytes; lia|]. cbv zeta. fold cl bytes tail.
        split; [simpl; lia|exact Hrest].
      * exists i, (rec :: others).
        split; [|split; [reflexivity|split; [exact Hrange|exact Hturn]]].
        exists seg. split; [exact Hi|]. split; [exact Hfb'|].
        split; [fold cl bytes; lia|]. cbv zeta. fold cl bytes tail.
        exists rec, others. split; [reflexivity|]. split; [reflexivity|].
        split; [rewrite length_app in *; lia|exact Hsplit'].
    + destruct HR as [-> Hempty].
      assert (Hne : drop (consumed r) bytes <> []).
      { intros E. rewrite E, app_nil_r in Hsplit. apply (f_equal length) in Hsplit.
        rewrite !length_app in Hsplit. lia. }
      destruct (hasMovedBeyond wal (fileSequence (r_fb r))) eqn:Hm.
      * exfalso. apply Hne, Hempty. left.
        unfold hasMovedBeyond in Hm. apply Z.ltb_lt in Hm.
        destruct Hinv as (_ & Hseq & _). rewrite Hseq, Hfb in Hm. cbn in Hm.
        destruct (log_lookup_cases closed cur i seg Hi) as [[Hlt _]|[_ ->]]; [exact Hlt|lia].
      * intros Hw0. exfalso. apply Hne, Hempty. right. exact Hw0.
    + contradiction.
Qed.

End ReaderOnLog.

(** *** The reader while the log grows *)





Lemma records_of_grows (closed : list segment) (cur : segment) new next closed' cur' :
  log_grows closed cur new next closed' cur' ->
  records_of (closed' ++ [cur']) = records_of (closed ++ [cur]) ++ new
  /\ (seg_seq cur' = seg_seq cur \/ seg_seq cur' = next).
Proof.
  intros [[-> ->]|[-> ->]].
  - rewrite !records_of_app, !records_of_one. cbn [seg_records seg_seq].
    rewrite app_assoc. auto.
  - rewrite !records_of_app, !records_of_one. cbn [seg_records seg_seq].
    rewrite app_nil_r, app_assoc. auto.
Qed.

Section ReaderCatchesUp.

Variable snappy_decode : list byte -> list byte * bool.

(** *** A new reader on the log *)

Lemma log_no_compressed (closed : list segment) (cur : segment) wal
    (fs : gmap string (list byte)) s :
  log_inv closed cur wal fs -> fs !! segment_name s true = None.
Proof.
  intros Hinv. destruct (fs !! segment_name s true) as [data|] eqn:E; [|reflexivity].
  destruct Hinv as (_ & _ & _ & _ & _ & _ & Hnames & _).
  destruct (Hnames (segment_name s true)) as (seg & _ & Hname).
  { rewrite E. eauto. }
  pose proof (HasSuffix_app (sequenceToFilename s) compressedSuffix) as H1.
  change (sequenceToFilename s +:+ compressedSuffix) with (segment_name s true) in H1.
  rewrite Hname, HasSuffix_sequenceToFilename in H1. discriminate.
Qed.

(** [NewReader(nil)] stands at the start of the oldest segment, with every
    record of the log still to return. *)
Lemma NewReader_log (closed : list segment) (cur : segment) wal
    (fs : gmap string (list byte)) :
  log_inv closed cur wal fs ->
  exists r here,
    NewReader snappy_decode None fs = nr_ok r
    /\ reader_in closed cur 0 here (at_length []) r
    /\ pending_of closed cur 0 here = records_of (closed ++ [cur]).
Proof.
  intros Hinv.
  pose proof (NewReader_nil_oldest snappy_decode fs (log_inv_canonical _ _ _ _ Hinv)) as Hnew.
  destruct ((closed ++ [cur]) !! 0%nat) as [seg0|] eqn:H0.
  2:{ apply lookup_ge_None in H0. rewrite length_app in H0. simpl in H0. lia. }
  assert (Hin0 : seg0 ∈ closed ++ [cur]) by (eapply list_elem_of_lookup_2; exact H0).
  destruct (NewReader snappy_decode None fs) as [r|e|].
  - destruct Hnew as (s & z & -> & Hpos & Hs & Hleast & Hfile).
    assert (z = false) as ->.
    { destruct z; [|reflexivity].
      rewrite (log_no_compressed _ _ _ _ s Hinv) in Hfile. destruct Hfile; discriminate. }
    apply (log_sequences _ _ _ _ s Hinv) in Hs. destruct Hs as (seg & Hseg & Hseq).
    assert (s = seg_seq seg0) as ->.
    { apply list_elem_of_lookup_1 in Hseg. destruct Hseg as [j Hj].
      assert (Hle : s <= seg_seq seg0).
      { apply Hleast.
        - apply (log_sequences _ _ _ _ _ Hinv). eauto.
        - apply (log_seq_range _ _ _ _ _ Hinv Hin0). }
      destruct j as [|j].
      - rewrite H0 in Hj. injection Hj as ->. symmetry. exact Hseq.
      - pose proof (log_seq_lt _ _ _ _ 0%nat (S j) seg0 seg Hinv H0 Hj ltac:(lia)). lia. }
    exists (reader_at (seg_seq seg0) false), (seg_records seg0).
    split; [reflexivity|]. split.
    + exists seg0. split; [exact H0|]. split; [reflexivity|].
      split; [simpl; lia|]. cbv zeta. split; [simpl; lia|].
      cbn [reader_at consumed]. rewrite drop_0. unfold ideal. reflexivity.
    + unfold pending_of.
      rewrite <- (take_drop 1 (closed ++ [cur])) at 2.
      rewrite records_of_app. f_equal.
      destruct (closed ++ [cur]) as [|x l]; [discriminate|].
      injection H0 as ->. cbn [take]. rewrite records_of_one. reflexivity.
  - contradiction.
  - exfalso.
    assert (Hle : seg_seq seg0 <= 0).
    { apply Hnew. apply (log_sequences _ _ _ _ _ Hinv). eauto. }
    pose proof (log_seq_range _ _ _ _ _ Hinv Hin0). lia.
Qed.

(** *** A call of [Read] on a log that stands still *)

(** More turns do not change what a call returns. *)
Lemma Read_from_more_fuel fuel : forall extra chunks wal fs pc r res,
  Read_from snappy_decode fuel chunks wal fs pc r = Some res ->
  Read_from snappy_decode (fuel + extra) chunks wal fs pc r = Some res.
Proof.
  induction fuel as [|fuel IH]; intros extra chunks wal fs pc r res H; [discriminate|].
  cbn [Read_from Nat.add] in *.
  destruct (Read_step snappy_decode wal fs (chunks 0%nat) pc r); try exact H.
  apply IH. exact H.
Qed.

(** With the writer's buffer flushed, a call of [Read] returns the first of
    the pending records within [turns_left] turns. *)
Lemma Read_from_log (closed : list segment) (cur : segment) wal
    (fs : gmap string (list byte)) :
  log_inv closed cur wal fs -> writer wal = [] ->
  forall fuel chunks (i : nat) here pc r rec rest,
    (turns_left closed cur i r < fuel)%nat ->
    reader_in closed cur i here pc r ->
    Forall (fun rec => 0 < Z.of_nat (length rec) < 2 ^ 32) here ->
    pending_of closed cur i here = rec :: rest ->
    exists r' (i' : nat) here',
      Read_from snappy_decode fuel chunks wal fs pc r = Some (rd_ok rec r')
      /\ reader_in closed cur i' here' (at_length []) r'
      /\ Forall (fun rec => 0 < Z.of_nat (length rec) < 2 ^ 32) here'
      /\ pending_of closed cur i' here' = rest
      /\ (turns_left closed cur i' r' < turns_left closed cur i r)%nat.
Proof.
  intros Hinv Hflushed.
  induction fuel as [|fuel IH]; intros chunks i here pc r rec rest Hfuel Hin Hrange Hpend;
    [lia|].
  cbn [Read_from].
  pose proof (Read_step_log snappy_decode closed cur wal fs (chunks 0%nat) i here pc r
                Hinv Hin Hrange) as Hstep.
  destruct (Read_step snappy_decode wal fs (chunks 0%nat) pc r) as [pc' r'| |b r'|e r'].
  - destruct Hstep as (i' & here' & Hin' & Hpend' & Hrange' & Hturns).
    destruct (IH (fun k => chunks (S k)) i' here' pc' r' rec rest) as (r2 & i2 & here2 & H1 & H2 & H3 & H4 & H5).
    + lia.
    + exact Hin'.
    + exact Hrange'.
    + rewrite Hpend'. exact Hpend.
    + exists r2, i2, here2. split; [exact H1|]. split; [exact H2|].
      split; [exact H3|]. split; [exact H4|lia].
  - rewrite (Hstep Hflushed) in Hpend. discriminate.
  - destruct Hstep as (here' & -> & Hin' & Hturns).
    rewrite pending_of_cons in Hpend. injection Hpend as -> <-.
    exists r', i, here'. split; [reflexivity|]. split; [exact Hin'|].
    split; [inversion Hrange; assumption|]. split; [reflexivity|exact Hturns].
  - contradiction.
Qed.

(** As many calls of [Read] as there are pending records return them, in
    order. *)
Lemma Read_many_log (closed : list segment) (cur : segment) wal
    (fs : gmap string (list byte)) :
  log_inv closed cur wal fs -> writer wal = [] ->
  forall pending fuel chunks (i : nat) here r,
    (turns_left closed cur i r < fuel)%nat ->
    reader_in closed cur i here (at_length []) r ->
    Forall (fun rec => 0 < Z.of_nat (length rec) < 2 ^ 32) here ->
    pending_of closed cur i here = pending ->
    exists r',
      Read_many snappy_decode (length pending) fuel chunks wal fs r
      = Some (pending, r').
Proof.
  intros Hinv Hflushed.
  induction pending as [|rec rest IH]; intros fuel chunks i here r Hfuel Hin Hrange Hpend.
  - exists r. reflexivity.
  - destruct (Read_from_log closed cur wal fs Hinv Hflushed fuel (chunks 0%nat)
                i here (at_length []) r rec rest Hfuel Hin Hrange Hpend)
      as (r1 & i1 & here1 & H1 & H2 & H3 & H4 & H5).
    destruct (IH fuel (fun k => chunks (S k)) i1 here1 r1) as [r' Hr']; try assumption; [lia|].
    exists r'. cbn [Read_many length]. unfold Read. rewrite H1, Hr'. reflexivity.
Qed.

End ReaderCatchesUp.

Section SideBySide.

Variable snappy_decode : list byte -> list byte * bool.
Variable maxSegmentSize : Z.









End SideBySide.

Section RoundTrip.

Variable snappy_decode : list byte -> list byte * bool.
Variable maxSegmentSize : Z.


End RoundTrip.

(** * The theorems at work on small logs *)

(** The stand-in codec gives back what it was given. *)
Lemma stored_round_trip data : stored_decode (stored_encode data) = (data, false).
Proof. reflexivity. Qed.

(** C8 on a call of [Write] with two buffers of five bytes: it returns 5,
    and the frame has 14 bytes. *)
Lemma Write_returns_last_buffer_two_buffers :
  let res := Write 100 6000000 two_segments_writer two_segments [hello; world] in
  0 < total_length [hello; world]
  /\ res = ((5, None), snd (fst res), snd res)
  /\ (5 = Z.of_nat (length (List.last [hello; world] []))
      /\ 5 < 4 + total_length [hello; world]).
Proof.
  cbv zeta.
  assert (H1 : 0 < total_length [hello; world]) by (vm_compute; reflexivity).
  assert (H2 : Write 100 6000000 two_segments_writer two_segments [hello; world]
               = ((5, None),
                  snd (fst (Write 100 6000000 two_segments_writer two_segments [hello; world])),
                  snd (Write 100 6000000 two_segments_writer two_segments [hello; world])))
    by (vm_compute; reflexivity).
  split; [exact H1|]. split; [exact H2|].
  exact (Write_returns_last_buffer 100 6000000 two_segments_writer two_segments
           [hello; world] 5 _ _ H1 H2).
Defined.



(** C9 on the same call: five bytes, after a prefix that says 5. *)
Lemma Read_never_returns_empty_record_hello :
  Read stored_decode 2 whole_reads two_segments_writer two_segments (reader_in_first 0)
  = Some (rd_ok hello (reader_in_first 9))
  /\ ((0 < length hello)%nat
      /\ (exists pre hdr,
            take (consumed (reader_in_first 9))
                 (fst (stream stored_decode (reader_in_first 9) two_segments))
            = pre ++ hdr ++ hello
            /\ length hdr = 4%nat /\ Uint32 hdr = Z.of_nat (length hello))
      /\ (forall wal0 fs0 chunk lenBuf r0 bs r1,
            reader_Read stored_decode r0 fs0 (4 - length lenBuf) chunk = (io_ok bs, r1) ->
            length (lenBuf ++ bs) = 4%nat -> Uint32 (lenBuf ++ bs) = 0 ->
            Read_step stored_decode wal0 fs0 chunk (at_length lenBuf) r0
            = st_continue at_advance (r_add_position r1 (length bs)))).
Proof.
  assert (H : Read stored_decode 2 whole_reads two_segments_writer two_segments
                (reader_in_first 0) = Some (rd_ok hello (reader_in_first 9)))
    by (vm_compute; reflexivity).
  split; [exact H|].
  exact (Read_never_returns_empty_record stored_decode 2 whole_reads two_segments_writer
           two_segments (reader_in_first 0) hello (reader_in_first 9) H).
Defined.





(** C2 on the two segments, with the cutoff at the active one: the first
    segment is compressed. *)
Lemma CompressBefore_transparent_two_segments :
  canonical_dir two_segments /\ no_twins two_segments
  /\ exists fs',
       CompressBefore stored_encode (newOffset 9000 0) two_segments = (fs', None)
       /\ (forall name data,
             two_segments !! name = Some data -> fs' !! name = None ->
             exists packed, fs' !! (name +:+ compressedSuffix) = Some packed
                            /\ stored_decode packed = (data, false))
       /\ (forall offset,
             (forall off, offset = Some off ->
                0 <= FileSequence (legacy_offset off) < 2 ^ 63) ->
             NewReader_same stored_decode two_segments fs'
               (NewReader stored_decode offset two_segments)
               (NewReader stored_decode offset fs')
             /\ forall r r',
                  NewReader stored_decode offset two_segments = nr_ok r ->
                  NewReader stored_decode offset fs' = nr_ok r' ->
                  forall n fuel chunks wal,
                    fst <$> Read_many stored_decode n fuel chunks wal fs' r'
                    = fst <$> Read_many stored_decode n fuel chunks wal two_segments r).
Proof.
  assert (H1 : canonical_dir two_segments) by (vm_compute; reflexivity).
  assert (H2 : no_twins two_segments) by (vm_compute; reflexivity).
  split; [exact H1|]. split; [exact H2|].
  exact (CompressBefore_transparent stored_encode stored_decode stored_round_trip
           (newOffset 9000 0) two_segments H1 H2).
Defined.

(** The first segment is in fact replaced by its compressed form, and the
    records read afterwards are [hello] and [world]. *)
Example CompressBefore_two_segments_read_back :
  let fs' := fst (CompressBefore stored_encode (newOffset 9000 0) two_segments) in
  ReadDir fs' = [segment_name 5000 true; segment_name 9000 false]
  /\ match NewReader stored_decode None fs' with
     | nr_ok r =>
         fst <$> Read_many stored_decode 2 4 (fun _ => whole_reads) two_segments_writer fs' r
         = Some [hello; world]
     | _ => False
     end.
Proof. vm_compute. split; reflexivity. Qed.




(** What the reader of that run has returned after the events, and after
    three more turns. *)
Example rolling_events_read_back :
  match sys_init stored_decode 5000000 0 with
  | Some s0 =>
      sys_records (sys_run stored_decode 8 s0 rolling_events) = []
      /\ sys_records (sys_run stored_decode 8 s0
                        (rolling_events ++ repeat (ev_Read_turn 4096) 6))
         = [hello; world]
      /\ sequences (sys_fs (sys_run stored_decode 8 s0 rolling_events))
         = [5000; 6000; 7000]
  | None => False
  end.
Proof. vm_compute. repeat split; reflexivity. Qed.

(** * More of the code: names, sequences and offsets *)

Lemma after_slash_all_digits s : all_digits s = true -> after_slash s = None.
Proof.
  intros H. rewrite <- (string_app_empty_r s).
  rewrite (after_slash_digits s EmptyString H). reflexivity.
Qed.

Lemma minus_digits_no_suffix s :
  all_digits s = true -> HasSuffix (String "-" s) compressedSuffix = false.
Proof.
  intros H. cbn [HasSuffix]. rewrite (HasSuffix_digits s H). reflexivity.
Qed.

Lemma Split_file_minus s t :
  all_digits s = true -> after_slash t = None ->
  Split_file (String "-" s +:+ t) = String "-" s +:+ t.
Proof.
  intros H Ht. unfold Split_file. rewrite app_String. cbn [after_slash].
  rewrite (after_slash_digits s t H), Ht. reflexivity.
Qed.

Lemma ParseInt_minus_eq ds :
  ds <> EmptyString ->
  ParseInt (String "-" ds)
  = match parse_digits 0 ds with
    | None => None
    | Some un => if un <=? 2 ^ 63 then Some (- un) else None
    end.
Proof.
  intros Hds. unfold ParseInt.
  change (Ascii.eqb "-" "-") with true. change (Ascii.eqb "-" "+") with false.
  cbn [orb]. destruct ds; [contradiction|reflexivity].
Qed.

Lemma ParseInt_minus_pad (w : nat) n :
  (0 < w)%nat -> 0 <= n < 10 ^ Z.of_nat w -> n <= 2 ^ 63 ->
  ParseInt (String "-" (pad_digits w n)) = Some (- n).
Proof.
  intros Hw Hn Hmax. rewrite ParseInt_minus_eq.
  - rewrite parse_digits_pad. rewrite Z.mul_0_l, Z.add_0_l, Z.mod_small by lia.
    destruct (n <=? 2 ^ 63) eqn:E; [reflexivity|]. apply Z.leb_gt in E. lia.
  - destruct w; [lia|]. discriminate.
Qed.

Lemma filenameToSequence_minus (w : nat) n snappy :
  (0 < w)%nat -> 0 <= n < 10 ^ Z.of_nat w -> n <= 2 ^ 63 ->
  filenameToSequence
    (if snappy : bool then String "-" (pad_digits w n) +:+ compressedSuffix
     else String "-" (pad_digits w n))
  = - n.
Proof.
  intros Hw Hn Hmax. unfold filenameToSequence. cbv zeta.
  pose proof (pad_digits_all_digits w n) as Hd.
  destruct snappy.
  - rewrite (Split_file_minus _ compressedSuffix Hd eq_refl), TrimSuffix_app.
    rewrite (ParseInt_minus_pad w n Hw Hn Hmax). reflexivity.
  - rewrite <- (string_app_empty_r (String "-" (pad_digits w n))) at 1.
    rewrite (Split_file_minus _ EmptyString Hd eq_refl), string_app_empty_r.
    unfold TrimSuffix. rewrite (minus_digits_no_suffix _ Hd).
    rewrite (ParseInt_minus_pad w n Hw Hn Hmax). reflexivity.
Qed.

(** X1. Names and sequences round-trip for every [int64]: the sequence read
    back from the name [sequenceToFilename] gives a segment, raw or with the
    suffix of a compressed one, is the sequence the name was made from. *)
Theorem filenameToSequence_round_trip seq snappy :
  - 2 ^ 63 <= seq < 2 ^ 63 ->
  filenameToSequence (segment_name seq snappy) = seq.
Proof.
  intros Hseq. destruct (Z.leb_spec 0 seq) as [Hpos|Hneg].
  - apply filenameToSequence_segment_name. lia.
  - unfold segment_name, sequenceToFilename.
    destruct (0 <=? seq) eqn:E0; [apply Z.leb_le in E0; lia|].
    destruct (- seq <? 10 ^ 18) eqn:E18.
    + apply Z.ltb_lt in E18.
      rewrite (filenameToSequence_minus 18 (- seq) snappy); lia.
    + apply Z.ltb_ge in E18.
      rewrite (filenameToSequence_minus 19 (- seq) snappy); lia.
Qed.

(** X2. For sequences that are not negative, the only ones a clock after
    1970 gives, names have 19 characters and are ordered as their sequences
    are: the comparisons of names the code makes ([file.Name() >= cutoff],
    [fileInfo.Name() > cutoff]) are comparisons of sequences. *)
Theorem names_ordered_as_sequences a b :
  0 <= a < 2 ^ 63 -> 0 <= b < 2 ^ 63 ->
  String.length (sequenceToFilename a) = 19%nat
  /\ String.leb (sequenceToFilename a) (sequenceToFilename b) = (a <=? b)
  /\ String.ltb (sequenceToFilename a) (sequenceToFilename b) = (a <? b)
  /\ (sequenceToFilename a = sequenceToFilename b -> a = b).
Proof.
  intros Ha Hb.
  pose proof (sequenceToFilename_compare a b Ha Hb) as Hc.
  split; [apply sequenceToFilename_length; lia|].
  split; [|split].
  - unfold String.leb, Z.leb. rewrite Hc. reflexivity.
  - unfold String.ltb, Z.ltb. rewrite Hc. reflexivity.
  - intros E. rewrite E in Hc.
    assert (Hrefl : String.compare (sequenceToFilename b) (sequenceToFilename b) = Eq).
    { rewrite (sequenceToFilename_compare b b Hb Hb). apply Z.compare_refl. }
    rewrite Hrefl in Hc. symmetry in Hc. apply Z.compare_eq in Hc. exact Hc.
Qed.

(** Among negative sequences the order of names is the reverse. *)
Example names_of_negative_sequences :
  String.ltb (sequenceToFilename (-3)) (sequenceToFilename (-5)) = true
  /\ String.ltb (sequenceToFilename (-5)) (sequenceToFilename 3) = true.
Proof. split; reflexivity. Qed.

Lemma parse_digits_all_digits s : forall acc v,
  parse_digits acc s = Some v -> all_digits s = true.
Proof.
  induction s as [|c s IH]; intros acc v H; [reflexivity|].
  cbn [parse_digits all_digits] in *. unfold digit_val, is_digit in *.
  cbv zeta in *.
  destruct ((48 <=? Z.of_N (N_of_ascii c)) && (Z.of_N (N_of_ascii c) <=? 57));
    [|discriminate].
  cbn [andb]. eapply IH. exact H.
Qed.

Lemma ParseInt_shape s v :
  ParseInt s = Some v ->
  exists sign digits,
    s = sign +:+ digits
    /\ (sign = EmptyString \/ sign = "+"%string \/ sign = "-"%string)
    /\ digits <> EmptyString /\ all_digits digits = true.
Proof.
  unfold ParseInt. destruct s as [|c rest]; [discriminate|]. cbv zeta.
  destruct (Ascii.eqb c "+") eqn:Eplus; [|destruct (Ascii.eqb c "-") eqn:Eminus].
  - apply Ascii.eqb_eq in Eplus. subst c. cbn [orb].
    destruct rest as [|d rest]; [discriminate|].
    destruct (parse_digits 0 (String d rest)) as [un|] eqn:Ep; [|discriminate].
    intros _. exists "+"%string, (String d rest).
    split; [reflexivity|]. split; [auto|]. split; [discriminate|].
    eapply parse_digits_all_digits. exact Ep.
  - apply Ascii.eqb_eq in Eminus. subst c. cbn [orb].
    destruct rest as [|d rest]; [discriminate|].
    destruct (parse_digits 0 (String d rest)) as [un|] eqn:Ep; [|discriminate].
    intros _. exists "-"%string, (String d rest).
    split; [reflexivity|]. split; [auto|]. split; [discriminate|].
    eapply parse_digits_all_digits. exact Ep.
  - cbn [orb].
    destruct (parse_digits 0 (String c rest)) as [un|] eqn:Ep; [|discriminate].
    intros _. exists EmptyString, (String c rest).
    split; [reflexivity|]. split; [auto|]. split; [discriminate|].
    eapply parse_digits_all_digits. exact Ep.
Qed.

(** X3. [filenameToSequence] gives an [int64] for every name, and 0 for a
    name it cannot parse: a result other than 0 means that the file part of
    the name, without the suffix of compressed files, is a sign or none and
    then decimal digits, at least one and nothing else. *)
Theorem filenameToSequence_unparseable_is_zero name :
  - 2 ^ 63 <= filenameToSequence name < 2 ^ 63
  /\ (filenameToSequence name <> 0 ->
      exists sign digits,
        TrimSuffix (Split_file name) compressedSuffix = sign +:+ digits
        /\ (sign = EmptyString \/ sign = "+"%string \/ sign = "-"%string)
        /\ digits <> EmptyString /\ all_digits digits = true).
Proof.
  split; [apply filenameToSequence_range|].
  unfold filenameToSequence. cbv zeta.
  destruct (ParseInt (TrimSuffix (Split_file name) compressedSuffix)) as [v|] eqn:E.
  - intros _. eapply ParseInt_shape. exact E.
  - intros H. contradiction H. reflexivity.
Qed.

Lemma digit_eqb_zero d : 0 <= d <= 9 -> Ascii.eqb (digit d) "0" = (d =? 0).
Proof.
  intros Hd.
  assert (Hcases : d = 0 \/ d = 1 \/ d = 2 \/ d = 3 \/ d = 4 \/ d = 5 \/ d = 6
                   \/ d = 7 \/ d = 8 \/ d = 9) by lia.
  repeat (destruct Hcases as [->|Hcases]; [reflexivity|]). subst d. reflexivity.
Qed.

Lemma legacy_offset_small seq pos :
  0 <= seq < 10 ^ 18 -> legacy_offset (newOffset seq pos) = newOffset seq pos.
Proof.
  intros Hseq. unfold legacy_offset. cbn [FileSequence Position].
  rewrite sequenceToFilename_nonneg by lia.
  change (pad_digits 19 seq)
    with (String (digit ((seq / 10 ^ Z.of_nat 18) mod 10)) (pad_digits 18 seq)).
  change (Z.of_nat 18) with 18. rewrite Z.div_small by lia.
  reflexivity.
Qed.

(** X15. The legacy rescaling of [NewReader]: an offset is taken as it is
    when the name of its sequence starts with the character 0, which is when
    the sequence is not negative and below 10^18; any other sequence, one of
    19 digits or a negative one, is divided by 1000, the position kept. *)
Theorem legacy_offset_rescales seq pos :
  - 2 ^ 63 <= seq < 2 ^ 63 ->
  legacy_offset (newOffset seq pos)
  = if (0 <=? seq) && (seq <? 10 ^ 18) then newOffset seq pos
    else newOffset (Z.quot seq 1000) pos.
Proof.
  intros Hseq. unfold legacy_offset. cbn [FileSequence Position].
  unfold sequenceToFilename.
  destruct (0 <=? seq) eqn:E0.
  - apply Z.leb_le in E0. cbn [andb].
    change (pad_digits 19 seq)
      with (String (digit ((seq / 10 ^ Z.of_nat 18) mod 10)) (pad_digits 18 seq)).
    change (Z.of_nat 18) with 18.
    assert (Hq : 0 <= seq / 10 ^ 18 <= 9).
    { split; [apply Z.div_pos; lia|].
      apply Z.lt_succ_r. apply Z.div_lt_upper_bound; lia. }
    rewrite Z.mod_small by lia. rewrite digit_eqb_zero by lia.
    destruct (seq <? 10 ^ 18) eqn:E18.
    + apply Z.ltb_lt in E18. rewrite Z.div_small by lia. reflexivity.
    + apply Z.ltb_ge in E18.
      assert (1 <= seq / 10 ^ 18) by (apply Z.div_le_lower_bound; lia).
      destruct (seq / 10 ^ 18 =? 0) eqn:Ez; [apply Z.eqb_eq in Ez; lia|reflexivity].
  - cbn [andb]. destruct (- seq <? 10 ^ 18); reflexivity.
Qed.

(** * More of the code: the writer *)

Lemma int64_range v : - 2 ^ 63 <= int64 v < 2 ^ 63.
Proof. unfold int64. pose proof (Z.mod_pos_bound (v + 2 ^ 63) (2 ^ 64)). lia. Qed.

Lemma int64_add_l a b : int64 (int64 a + b) = int64 (a + b).
Proof.
  unfold int64.
  replace ((a + 2 ^ 63) mod 2 ^ 64 - 2 ^ 63 + b + 2 ^ 63)
    with ((a + 2 ^ 63) mod 2 ^ 64 + b) by lia.
  rewrite Zplus_mod_idemp_l. f_equal. f_equal. lia.
Qed.

Lemma write_bufs_position bufs : forall n wal (fs : gmap string (list byte)),
  - 2 ^ 63 <= position (wal_fb wal) < 2 ^ 63 ->
  position (wal_fb (snd (fst (write_bufs (n, wal, fs) bufs))))
  = int64 (position (wal_fb wal) + total_length bufs).
Proof.
  induction bufs as [|b bufs IH]; intros n wal fs Hp.
  - cbn. rewrite Z.add_0_r, int64_small by lia. reflexivity.
  - unfold write_bufs. cbn [foldl].
    destruct (writer_Write wal fs b) as [[n1 wal1] fs1] eqn:Ew.
    fold (write_bufs (n1, add_position wal1 n1, fs1) bufs).
    rewrite IH.
    + cbn [add_position wal_fb position].
      assert (Hp1 : position (wal_fb wal1) = position (wal_fb wal)).
      { unfold writer_Write in Ew. destruct (bufio_Write (writer wal) b).
        injection Ew as _ <- _. reflexivity. }
      assert (Hn1 : n1 = Z.of_nat (length b)).
      { pose proof (writer_Write_n wal fs b) as Hn. rewrite Ew in Hn. exact Hn. }
      rewrite int64_add_l, Hp1, Hn1, total_length_cons. f_equal. lia.
    + cbn [add_position wal_fb position]. apply int64_range.
Qed.

(** What a call of [Write] leaves, before it looks at [maxSegmentSize]. *)
Lemma Write_frame_full wal (fs : gmap string (list byte)) name content bufs :
  holds wal fs name content ->
  let '(n, wal', fs') := Write_frame wal fs bufs in
  holds wal' fs' name (content ++ frame (concat bufs))
  /\ same_but wal fs wal' fs' name
  /\ position (wal_fb wal')
     = int64 (position (wal_fb wal) + 4 + total_length bufs)
  /\ (syncImmediate wal = true ->
      fs' !! name = Some (content ++ frame (concat bufs)) /\ writer wal' = []).
Proof.
  intros H. unfold Write_frame.
  pose proof (writer_Write_holds wal fs name content
                (PutUint32 (uint32 (total_length bufs))) H) as Hw.
  destruct (writer_Write wal fs _) as [[n0 wal0] fs0].
  destruct Hw as (Hn0 & H0 & S0 & P0).
  pose proof (write_bufs_holds bufs n0 (add_position wal0 n0) fs0 name _
                (add_position_holds _ _ _ _ _ H0)) as Hb.
  pose proof (write_bufs_position bufs n0 (add_position wal0 n0) fs0) as Hpos.
  destruct (write_bufs (n0, add_position wal0 n0, fs0) bufs) as [[n1 wal1] fs1].
  cbn [fst snd] in Hpos.
  destruct Hb as [H1 S1].
  rewrite <- app_assoc, uint32_total_length in H1.
  assert (S01 : same_but wal fs wal1 fs1 name).
  { eapply same_but_trans; [|exact S1]. apply same_but_add_position. exact S0. }
  assert (P1 : position (wal_fb wal1)
               = int64 (position (wal_fb wal) + 4 + total_length bufs)).
  { rewrite Hpos by (cbn [add_position wal_fb position]; apply int64_range).
    cbn [add_position wal_fb position]. rewrite int64_add_l, P0, Hn0, PutUint32_length.
    f_equal. }
  assert (Hsync : syncImmediate wal1 = syncImmediate wal) by (apply S01).
  destruct (syncImmediate wal1) eqn:E1.
  - unfold doSync. pose proof (writer_Flush_holds wal1 fs1 name _ H1) as Hf.
    destruct (writer_Flush wal1 fs1) as [wal2 fs2].
    destruct Hf as (F2 & W2 & H2 & S2 & P2). split; [exact H2|].
    split; [eapply same_but_trans; eassumption|].
    split; [rewrite P2; exact P1|]. intros _. split; assumption.
  - split; [exact H1|]. split; [exact S01|]. split; [exact P1|].
    intros E. rewrite <- Hsync in E. discriminate.
Qed.

(** X6. A call of [Write] with a payload that is not empty, which leaves
    the position below [maxSegmentSize]: one frame, the four bytes of the
    length and then the buffers one after the other, is added to what the
    writer's file and buffer hold together; the position moves on by the
    size of the frame; no other file changes; and a writer that syncs on
    every write has the frame in the file when the call returns. *)
Theorem Write_appends_one_frame maxSegmentSize now wal
    (fs : gmap string (list byte)) name content bufs :
  holds wal fs name content ->
  0 < total_length bufs ->
  int64 (position (wal_fb wal) + 4 + total_length bufs) < maxSegmentSize ->
  exists n wal' fs',
    Write maxSegmentSize now wal fs bufs = ((n, None), wal', fs')
    /\ holds wal' fs' name
         (content ++ PutUint32 (uint32 (total_length bufs)) ++ concat bufs)
    /\ position (wal_fb wal')
       = int64 (position (wal_fb wal) + 4 + total_length bufs)
    /\ fileSequence (wal_fb wal') = fileSequence (wal_fb wal)
    /\ (forall x, x <> name -> fs' !! x = fs !! x)
    /\ (syncImmediate wal = true ->
        fs' !! name
        = Some (content ++ PutUint32 (uint32 (total_length bufs)) ++ concat bufs)
        /\ writer wal' = []).
Proof.
  intros H Hlen Hmax. unfold Write. cbv zeta.
  destruct (total_length bufs =? 0) eqn:E0; [apply Z.eqb_eq in E0; lia|].
  pose proof (Write_frame_full wal fs name content bufs H) as Hf.
  destruct (Write_frame wal fs bufs) as [[n wal1] fs1].
  destruct Hf as (H1 & (S1 & _ & S2) & P1 & Hsync).
  rewrite uint32_total_length.
  destruct (maxSegmentSize <=? position (wal_fb wal1)) eqn:Emax;
    [apply Z.leb_le in Emax; lia|].
  exists n, wal1, fs1. split; [reflexivity|]. split; [exact H1|].
  split; [exact P1|]. split; [exact S1|]. split; [exact S2|exact Hsync].
Qed.

(** X7. A call of [Write] that brings the position to [maxSegmentSize] or
    beyond rolls over: the file of the segment ends up with everything
    written to it, the new frame and the four zero bytes of the sentinel;
    the writer is on the segment named by the clock, at position 0 with an
    empty buffer; that segment's file is there, empty if it is new; and no
    other file changes. *)
Theorem Write_rolls_over maxSegmentSize now wal
    (fs : gmap string (list byte)) name content bufs :
  holds wal fs name content ->
  0 < total_length bufs ->
  maxSegmentSize <= int64 (position (wal_fb wal) + 4 + total_length bufs) ->
  let next := sequenceToFilename (newFileSequence now) in
  let closed := content ++ frame (concat bufs) ++ sentinelBytes in
  exists n wal' fs',
    Write maxSegmentSize now wal fs bufs = ((n, None), wal', fs')
    /\ wal_fb wal' = mkFilebased (Some next) false (newFileSequence now) 0
    /\ writer wal' = []
    /\ syncImmediate wal' = syncImmediate wal
    /\ fs' !! name = Some closed
    /\ fs' !! next = Some (if bool_decide (next = name) then closed
                           else default [] (fs !! next))
    /\ (forall x, x <> name -> x <> next -> fs' !! x = fs !! x).
Proof.
  intros H Hlen Hmax. cbv zeta. unfold Write. cbv zeta.
  destruct (total_length bufs =? 0) eqn:E0; [apply Z.eqb_eq in E0; lia|].
  pose proof (Write_frame_full wal fs name content bufs H) as Hf.
  destruct (Write_frame wal fs bufs) as [[n wal1] fs1].
  destruct Hf as (H1 & (S1 & Ssync & S2) & P1 & _).
  destruct (maxSegmentSize <=? position (wal_fb wal1)) eqn:Emax;
    [|apply Z.leb_gt in Emax; lia].
  unfold Write_rollover.
  pose proof (writer_Write_holds wal1 fs1 name _ sentinelBytes H1) as Hw.
  destruct (writer_Write wal1 fs1 sentinelBytes) as [[n2 wal2] fs2].
  destruct Hw as (_ & H2 & (_ & Ssync2 & S3) & _).
  pose proof (writer_Flush_holds wal2 fs2 name _ H2) as Hfl.
  destruct (writer_Flush wal2 fs2) as [wal3 fs3].
  destruct Hfl as (F3 & W3 & _ & (_ & Ssync3 & S4) & _).
  rewrite <- app_assoc in F3.
  unfold WAL_advance, openFile, filename. cbn [fileSequence position file compressed wal_fb].
  set (next := sequenceToFilename (newFileSequence now)).
  assert (Hother : forall x, x <> name -> fs3 !! x = fs !! x).
  { intros x Hx. rewrite S4, S3, S2 by exact Hx. reflexivity. }
  assert (Hs : syncImmediate wal3 = syncImmediate wal) by congruence.
  destruct (fs3 !! next) as [old|] eqn:Enext.
  - exists n, (mkWAL (mkFilebased (Some next) false (newFileSequence now) 0)
                    (syncImmediate wal3) []), fs3.
    split; [reflexivity|]. split; [reflexivity|]. split; [reflexivity|].
    split; [exact Hs|]. split; [exact F3|]. split.
    + rewrite Enext. f_equal. case_bool_decide as Hn.
      * rewrite Hn in Enext. rewrite F3 in Enext. injection Enext as <-. reflexivity.
      * rewrite Hother in Enext by exact Hn. rewrite Enext. reflexivity.
    + intros x Hx _. apply Hother. exact Hx.
  - assert (Hn : next <> name).
    { intros E. rewrite E, F3 in Enext. discriminate. }
    exists n, (mkWAL (mkFilebased (Some next) false (newFileSequence now) 0)
                    (syncImmediate wal3) []), (<[next := []]> fs3).
    split; [reflexivity|]. split; [reflexivity|]. split; [reflexivity|].
    split; [exact Hs|]. split.
    + rewrite lookup_insert_ne by exact Hn. exact F3.
    + split.
      * rewrite lookup_insert_eq. rewrite bool_decide_eq_false_2 by exact Hn.
        rewrite Hother in Enext by exact Hn. rewrite Enext. reflexivity.
      * intros x Hx Hx'. rewrite lookup_insert_ne by congruence.
        apply Hother. exact Hx.
Qed.

Lemma appendSentinels_loop files : forall (fs : gmap string (list byte)) name,
  NoDup files ->
  foldl (fun (fs : gmap string (list byte)) name =>
           if HasSuffix name compressedSuffix then fs
           else append_file (Some name) sentinelBytes fs) fs files !! name
  = if bool_decide (name ∈ files) && negb (HasSuffix name compressedSuffix)
    then (fun d => d ++ sentinelBytes) <$> fs !! name
    else fs !! name.
Proof.
  induction files as [|f files IH]; intros fs name Hnd.
  - cbn [foldl]. rewrite bool_decide_eq_false_2 by apply not_elem_of_nil. reflexivity.
  - apply NoDup_cons in Hnd. destruct Hnd as [Hf Hnd]. cbn [foldl].
    rewrite IH by exact Hnd.
    destruct (decide (name = f)) as [->|Hne].
    + rewrite (bool_decide_eq_false_2 (f ∈ files)) by exact Hf.
      rewrite (bool_decide_eq_true_2 (f ∈ f :: files)) by apply list_elem_of_here.
      cbn [andb]. destruct (HasSuffix f compressedSuffix); [reflexivity|].
      cbn [negb]. unfold append_file.
      destruct (fs !! f) as [old|] eqn:E.
      * rewrite lookup_insert_eq. reflexivity.
      * rewrite E. reflexivity.
    + assert (Hin : bool_decide (name ∈ f :: files) = bool_decide (name ∈ files)).
      { apply bool_decide_ext. rewrite elem_of_cons. tauto. }
      rewrite Hin.
      assert (Hsame : (if HasSuffix f compressedSuffix then fs
                       else append_file (Some f) sentinelBytes fs) !! name = fs !! name).
      { destruct (HasSuffix f compressedSuffix); [reflexivity|].
        unfold append_file. destruct (fs !! f); [|reflexivity].
        apply lookup_insert_ne. congruence. }
      rewrite Hsame. reflexivity.
Qed.

(** What [appendSentinels] leaves under each name. *)
Lemma appendSentinels_lookup (fs : gmap string (list byte)) name :
  appendSentinels fs !! name
  = if HasSuffix name compressedSuffix then fs !! name
    else (fun data => data ++ sentinelBytes) <$> fs !! name.
Proof.
  unfold appendSentinels. rewrite appendSentinels_loop by apply ReadDir_NoDup.
  destruct (fs !! name) as [data|] eqn:E.
  - rewrite bool_decide_eq_true_2 by (apply ReadDir_elem_of; eauto).
    destruct (HasSuffix name compressedSuffix); reflexivity.
  - destruct (bool_decide _ && _), (HasSuffix name compressedSuffix); reflexivity.
Qed.

(** X4. [appendSentinels] adds the four zero bytes of the sentinel to the
    end of every file of the directory but the compressed ones, which it
    leaves as they are; it adds and removes no file. *)
Theorem appendSentinels_appends_to_raw_files (fs : gmap string (list byte)) :
  (forall name data,
     fs !! name = Some data ->
     appendSentinels fs !! name
     = Some (if HasSuffix name compressedSuffix then data else data ++ sentinelBytes))
  /\ (forall name, fs !! name = None -> appendSentinels fs !! name = None)
  /\ dom (appendSentinels fs) = dom fs.
Proof.
  assert (H1 : forall name data,
             fs !! name = Some data ->
             appendSentinels fs !! name
             = Some (if HasSuffix name compressedSuffix then data
                     else data ++ sentinelBytes)).
  { intros name data E. rewrite appendSentinels_lookup, E.
    destruct (HasSuffix name compressedSuffix); reflexivity. }
  assert (H2 : forall name, fs !! name = None -> appendSentinels fs !! name = None).
  { intros name E. rewrite appendSentinels_lookup, E.
    destruct (HasSuffix name compressedSuffix); reflexivity. }
  split; [exact H1|]. split; [exact H2|].
  apply set_eq. intros name. rewrite !elem_of_dom.
  destruct (fs !! name) as [data|] eqn:E.
  - rewrite (H1 name data E). split; eauto.
  - rewrite (H2 name E). reflexivity.
Qed.

(** X5. [Open] gives a writer on the segment named by the clock, at
    position 0 with an empty buffer, that syncs on every write exactly when
    [syncInterval] is not positive. Every file of the directory that is not
    compressed has got a sentinel at its end, the file of the new segment
    too if it was there already (it is then written to after that
    sentinel); otherwise that file is created empty. *)
Theorem Open_marks_old_segments now syncInterval (fs : gmap string (list byte)) :
  let next := sequenceToFilename (newFileSequence now) in
  exists fs',
    Open now syncInterval fs
    = (Some (mkWAL (mkFilebased (Some next) false (newFileSequence now) 0)
                   (syncInterval <=? 0) []), fs', None)
    /\ fs' !! next = Some (default [] ((fun data => data ++ sentinelBytes) <$> fs !! next))
    /\ (forall name, name <> next ->
          fs' !! name
          = if HasSuffix name compressedSuffix then fs !! name
            else (fun data => data ++ sentinelBytes) <$> fs !! name).
Proof.
  cbv zeta. unfold Open. cbv zeta.
  unfold WAL_advance, openFile, filename.
  cbn [fileSequence position file compressed wal_fb writer syncImmediate].
  set (next := sequenceToFilename (newFileSequence now)).
  pose proof (appendSentinels_lookup fs next) as Hnext.
  unfold next in Hnext at 2. rewrite HasSuffix_sequenceToFilename in Hnext. fold next in Hnext.
  destruct (appendSentinels fs !! next) as [old|] eqn:E.
  - eexists. split; [reflexivity|]. split.
    + rewrite E. rewrite <- Hnext. reflexivity.
    + intros name _. apply appendSentinels_lookup.
  - eexists. split; [reflexivity|]. split.
    + rewrite lookup_insert_eq. rewrite <- Hnext. reflexivity.
    + intros name Hne. rewrite lookup_insert_ne by congruence.
      apply appendSentinels_lookup.
Qed.

(** The log through the calls of [Write] of a writer's lifetime. *)
Lemma run_writes_log_inv maxSegmentSize calls : forall wal (fs : gmap string (list byte))
    (closed : list segment) (cur : segment),
  log_inv closed cur wal fs ->
  StronglySorted Z.lt (seg_seq cur :: map tsToFileSequence (map fst calls)) ->
  Forall (fun now => tsToFileSequence now < 2 ^ 63) (map fst calls) ->
  Forall (fun bufs => total_length bufs < 2 ^ 32) (map snd calls) ->
  exists closed' cur',
    log_inv closed' cur' (fst (run_writes maxSegmentSize (wal, fs) calls))
            (snd (run_writes maxSegmentSize (wal, fs) calls))
    /\ records_of (closed' ++ [cur'])
       = records_of (closed ++ [cur])
         ++ flat_map (fun call : Z * list (list byte) =>
                        if total_length (snd call) =? 0 then []
                        else [concat (snd call)]) calls.
Proof.
  induction calls as [|[now bufs] calls IH]; intros wal fs closed cur Hinv Hclock Hmax Hlen.
  - exists closed, cur. split; [exact Hinv|]. cbn [flat_map]. rewrite app_nil_r. reflexivity.
  - cbn [map fst snd] in Hclock, Hmax, Hlen.
    apply StronglySorted_inv in Hclock. destruct Hclock as [Hsorted Hbelow].
    apply Forall_cons in Hmax. destruct Hmax as [Hnow Hmax].
    apply Forall_cons in Hlen. destruct Hlen as [Hbufs Hlen].
    pose proof Hbelow as Hbelow'.
    apply Forall_cons in Hbelow'. destruct Hbelow' as [Hcur Hrest].
    destruct (Write_log_inv maxSegmentSize now closed cur wal fs bufs Hinv)
      as (n & wal1 & fs1 & closed1 & cur1 & HW & Hinv1 & Hg).
    { unfold newFileSequence. lia. }
    { exact Hbufs. }
    destruct (records_of_grows _ _ _ _ _ _ Hg) as [Hall Hseq].
    destruct (IH wal1 fs1 closed1 cur1 Hinv1) as (closed' & cur' & Hinv' & Hrecs').
    { destruct Hseq as [-> | ->].
      - apply SSorted_cons; [|exact Hrest].
        apply StronglySorted_inv in Hsorted. tauto.
      - exact Hsorted. }
    { exact Hmax. }
    { exact Hlen. }
    exists closed', cur'. unfold run_writes in *. cbn [foldl]. rewrite HW.
    split; [exact Hinv'|].
    rewrite Hrecs', Hall. cbn [flat_map snd]. rewrite <- app_assoc. reflexivity.
Qed.

(** X8. The files a writer leaves. A writer opens an empty directory, is
    called with a clock whose microseconds are positive, below 2^63 and
    increase from call to call, with payloads shorter than 2^32 bytes, and is
    closed. Then the directory holds the files of a list of segments of
    increasing sequences and nothing else; the file of each segment but the
    last is the frames of its records and then the sentinel, the file of the
    last is the frames of its records; and the records of the segments, in
    order, are the payloads written, the empty ones left out. Nothing is
    left in the writer's buffer. *)
Theorem Close_leaves_the_records_on_disk maxSegmentSize now0 syncInterval
    (calls : list (Z * list (list byte))) :
  0 < tsToFileSequence now0 ->
  StronglySorted Z.lt (map tsToFileSequence (now0 :: map fst calls)) ->
  Forall (fun now => tsToFileSequence now < 2 ^ 63) (now0 :: map fst calls) ->
  Forall (fun bufs => total_length bufs < 2 ^ 32) (map snd calls) ->
  exists wal0 fs0,
    Open now0 syncInterval ∅ = (Some wal0, fs0, None)
    /\ let st := run_writes maxSegmentSize (wal0, fs0) calls in
       let wal' := fst (WAL_Close (fst st) (snd st)) in
       let fs' : gmap string (list byte) := snd (WAL_Close (fst st) (snd st)) in
       exists (closed : list segment) (cur : segment),
         writer wal' = []
         /\ StronglySorted Z.lt (map seg_seq (closed ++ [cur]))
         /\ (forall seg, seg ∈ closed ->
               fs' !! sequenceToFilename (seg_seq seg)
               = Some (frames (seg_records seg) ++ sentinelBytes))
         /\ fs' !! sequenceToFilename (seg_seq cur) = Some (frames (seg_records cur))
         /\ (forall name, is_Some (fs' !! name) ->
               exists seg, seg ∈ closed ++ [cur]
                           /\ name = sequenceToFilename (seg_seq seg))
         /\ records_of (closed ++ [cur])
            = flat_map (fun call : Z * list (list byte) =>
                          if total_length (snd call) =? 0 then []
                          else [concat (snd call)]) calls.
Proof.
  intros Hpos Hclock Hmax Hlen.
  cbn [map] in Hclock. apply Forall_cons in Hmax. destruct Hmax as [Hnow0 Hmax].
  destruct (Open_log_inv now0 syncInterval) as (wal0 & fs0 & HO & Hinv0).
  { unfold newFileSequence. lia. }
  exists wal0, fs0. split; [exact HO|]. cbv zeta.
  destruct (run_writes_log_inv maxSegmentSize calls wal0 fs0 [] _ Hinv0 Hclock Hmax Hlen)
    as (closed & cur & Hinv & Hrecs).
  cbn [app records_of map concat seg_records] in Hrecs.
  pose proof (doSync_log_inv closed cur _ _ Hinv) as Hsync.
  unfold WAL_Close. unfold doSync in Hsync.
  destruct (writer_Flush (fst (run_writes maxSegmentSize (wal0, fs0) calls))
              (snd (run_writes maxSegmentSize (wal0, fs0) calls))) as [wal' fs'].
  cbn [fst snd]. destruct Hsync as [Hinv' Hw].
  destruct Hinv' as (_ & _ & Hsorted & _ & Hclosed & (flushed & Hcur & Hfl) & Hnames & _).
  exists closed, cur. split; [exact Hw|]. split; [exact Hsorted|].
  split; [|split; [|split; [exact Hnames|exact Hrecs]]].
  - intros seg Hseg. rewrite Forall_forall in Hclosed. apply Hclosed. exact Hseg.
  - rewrite Hw, app_nil_r in Hfl. rewrite Hcur, Hfl. reflexivity.
Qed.

(** * More of the code: retention *)

(** The last name of the listing is the greatest name of the directory. *)
Lemma last_ReadDir_greatest (fs : gmap string (list byte)) m :
  is_Some (fs !! m) ->
  (forall x, is_Some (fs !! x) -> String.le x m) ->
  last (ReadDir fs) = Some m.
Proof.
  intros Hm Hmax.
  destruct (last (ReadDir fs)) as [m'|] eqn:El.
  - f_equal. apply (anti_symm String.le).
    + apply Hmax. apply ReadDir_elem_of. apply last_Some_elem_of. exact El.
    + apply (StronglySorted_last_max (ReadDir fs) m' (ReadDir_sorted fs) El).
      apply ReadDir_elem_of. exact Hm.
  - apply last_None in El. apply ReadDir_elem_of in Hm. rewrite El in Hm.
    inversion Hm.
Qed.

Lemma TruncateBefore_lookup (o : Offset) (fs : gmap string (list byte)) :
  exists fs',
    TruncateBefore o fs = (fs', None)
    /\ forall name,
         fs' !! name =
         if String.ltb name (sequenceToFilename (FileSequence o))
            && negb (bool_decide (last (ReadDir fs) = Some name))
         then None else fs !! name.
Proof.
  unfold TruncateBefore.
  destruct (truncate_loop_spec (sequenceToFilename (FileSequence o)) (ReadDir fs) fs
              (ReadDir_sorted fs) (ReadDir_NoDup fs)) as (fs' & Hrun & Hlook).
  { intros name. apply ReadDir_elem_of. }
  exists fs'. split; [exact Hrun|]. intros name. rewrite Hlook.
  destruct (decide (name ∈ ReadDir fs)) as [Hm|Hm].
  - rewrite (bool_decide_eq_true_2 _ Hm). reflexivity.
  - rewrite (bool_decide_eq_false_2 _ Hm). cbn.
    assert (fs !! name = None) as ->.
    { apply eq_None_not_Some. intros H. apply Hm, ReadDir_elem_of, H. }
    destruct (_ && _); reflexivity.
Qed.

(** Truncation keeps the last file of the listing last. *)
Lemma TruncateBefore_last (o : Offset) (fs : gmap string (list byte)) :
  last (ReadDir (fst (TruncateBefore o fs))) = last (ReadDir fs).
Proof.
  destruct (TruncateBefore_lookup o fs) as (fs' & Hrun & Hlook). rewrite Hrun.
  cbn [fst].
  destruct (last (ReadDir fs)) as [m|] eqn:El.
  - apply last_ReadDir_greatest.
    + rewrite Hlook. rewrite (bool_decide_eq_true_2 (Some m = Some m)) by reflexivity.
      rewrite andb_false_r. apply ReadDir_elem_of. apply last_Some_elem_of. exact El.
    + intros x Hx.
      apply (StronglySorted_last_max (ReadDir fs) m (ReadDir_sorted fs) El).
      apply ReadDir_elem_of. rewrite Hlook in Hx.
      destruct (_ && _); [destruct Hx; discriminate|exact Hx].
  - apply last_None in El. apply last_None.
    destruct (ReadDir fs') as [|x l] eqn:E'; [reflexivity|].
    assert (Hx : x ∈ ReadDir fs') by (rewrite E'; left).
    apply ReadDir_elem_of in Hx. rewrite Hlook in Hx.
    assert (Hx' : is_Some (fs !! x)).
    { destruct (_ && _); [destruct Hx; discriminate|exact Hx]. }
    apply ReadDir_elem_of in Hx'. rewrite El in Hx'. inversion Hx'.
Qed.

(** X9. Truncating twice, the second time at the same or a later sequence,
    leaves what truncating once at the later sequence leaves: no error, and
    the same files. In particular a second [TruncateBefore] at the same
    offset removes nothing. *)
Theorem TruncateBefore_twice (o1 o2 : Offset) (fs : gmap string (list byte)) :
  0 <= FileSequence o1 <= FileSequence o2 -> FileSequence o2 < 2 ^ 63 ->
  TruncateBefore o2 (fst (TruncateBefore o1 fs)) = TruncateBefore o2 fs
  /\ snd (TruncateBefore o2 fs) = None.
Proof.
  intros H1 H2.
  pose proof (TruncateBefore_last o1 fs) as Hlast.
  destruct (TruncateBefore_lookup o1 fs) as (fs1 & Hrun1 & Hlook1).
  rewrite Hrun1 in *. cbn [fst] in *.
  destruct (TruncateBefore_lookup o2 fs1) as (fs2 & Hrun2 & Hlook2).
  destruct (TruncateBefore_lookup o2 fs) as (fs2' & Hrun2' & Hlook2').
  rewrite Hrun2, Hrun2'. split; [|reflexivity]. f_equal.
  apply map_eq. intros name. rewrite Hlook2, Hlook2', Hlast, Hlook1.
  set (c1 := sequenceToFilename (FileSequence o1)).
  set (c2 := sequenceToFilename (FileSequence o2)).
  assert (Hc : String.leb c1 c2 = true).
  { unfold String.leb, c1, c2. rewrite sequenceToFilename_compare by lia.
    destruct (Z.compare_spec (FileSequence o1) (FileSequence o2)); try reflexivity. lia. }
  destruct (bool_decide (last (ReadDir fs) = Some name)) eqn:El.
  - rewrite !andb_false_r. reflexivity.
  - rewrite !andb_true_r.
    destruct (String.ltb name c2) eqn:E2; [reflexivity|].
    destruct (String.ltb name c1) eqn:E1; [|reflexivity].
    exfalso. rewrite ltb_negb_leb in E1, E2.
    apply negb_true_iff in E1. apply negb_false_iff in E2.
    apply le_leb in Hc, E2.
    assert (Hle : String.le c1 name) by (etrans; eassumption).
    apply le_leb in Hle. congruence.
Qed.

Lemma compress_picks_elem cutoff files n :
  StronglySorted String.le files -> NoDup files ->
  n ∈ compress_picks cutoff files
  <-> n ∈ files /\ String.ltb n cutoff = true /\ last files <> Some n
      /\ HasSuffix n compressedSuffix = false.
Proof.
  induction files as [|f rest IH]; intros Hs Hnd.
  - cbn. split; [intros H; inversion H|intros [H _]; inversion H].
  - apply StronglySorted_inv in Hs as [Hs Hall].
    apply NoDup_cons in Hnd as [Hf Hnd]. cbn [compress_picks].
    destruct (bool_decide (rest = []) || String.leb cutoff f) eqn:Hbrk.
    + split; [intros H; inversion H|]. intros (Hm & Hlt & Hl & _). exfalso.
      apply orb_prop in Hbrk as [Hr|Hc].
      * apply bool_decide_eq_true_1 in Hr. subst rest.
        apply list_elem_of_singleton in Hm. subst n. apply Hl. reflexivity.
      * rewrite ltb_negb_leb in Hlt. apply negb_true_iff in Hlt.
        assert (Hle : String.le cutoff n).
        { apply elem_of_cons in Hm as [->|Hm].
          - apply le_leb. exact Hc.
          - etrans; [apply le_leb; exact Hc|].
            rewrite Forall_forall in Hall. apply Hall. exact Hm. }
        apply le_leb in Hle. congruence.
    + apply orb_false_elim in Hbrk as [Hr Hc].
      apply bool_decide_eq_false_1 in Hr.
      rewrite (last_cons_ne f rest Hr).
      assert (Hflast : last rest <> Some f).
      { intros Hl. apply Hf. apply last_Some_elem_of. exact Hl. }
      assert (Hflt : String.ltb f cutoff = true).
      { rewrite ltb_negb_leb, Hc. reflexivity. }
      specialize (IH Hs Hnd).
      destruct (HasSuffix f compressedSuffix) eqn:Hsuf.
      * rewrite IH. rewrite elem_of_cons. split.
        -- intros (H1 & H2 & H3 & H4). auto.
        -- intros ([->|H1] & H2 & H3 & H4); [congruence|auto].
      * rewrite elem_of_cons, IH. rewrite elem_of_cons. split.
        -- intros [->|(H1 & H2 & H3 & H4)]; auto.
        -- intros ([->|H1] & H2 & H3 & H4); auto.
Qed.

Lemma HasSuffix_TrimSuffix s suffix :
  HasSuffix s suffix = true -> s = TrimSuffix s suffix +:+ suffix.
Proof.
  intros Hs. unfold TrimSuffix. rewrite Hs.
  induction s as [|c s IH].
  - cbn [HasSuffix] in Hs. rewrite orb_false_r in Hs.
    apply String.eqb_eq in Hs. subst suffix. reflexivity.
  - cbn [HasSuffix] in Hs. apply orb_prop in Hs as [Heq|Hs].
    + apply String.eqb_eq in Heq. rewrite <- Heq. rewrite Nat.sub_diag. reflexivity.
    + specialize (IH Hs).
      assert (Hlen : (String.length suffix <= String.length s)%nat).
      { apply (f_equal String.length) in IH. rewrite string_length_app in IH. lia. }
      replace (String.length (String c s) - String.length suffix)%nat
        with (S (String.length s - String.length suffix))
        by (cbn [String.length]; lia).
      cbn [substring]. rewrite app_String. f_equal. exact IH.
Qed.

Section CompressionExact.

Variable snappy_encode : list byte -> list byte.

(** The loop of [CompressBefore] replaces the files it picks, and those
    only, by their compressed twins. *)
Lemma compress_loop_picks cutoff files : forall (fs : gmap string (list byte)),
  NoDup files ->
  (forall n, n ∈ files -> is_Some (fs !! n)) ->
  (forall n, n ∈ files -> HasSuffix n compressedSuffix = false ->
     fs !! (n +:+ compressedSuffix) = None /\ (n +:+ compressedSuffix) ∉ files) ->
  exists fs',
    compress_loop snappy_encode cutoff files fs = (fs', None)
    /\ (forall n, n ∈ compress_picks cutoff files ->
          n ∈ files /\ HasSuffix n compressedSuffix = false /\ fs' !! n = None
          /\ exists d, fs !! n = Some d
                       /\ fs' !! (n +:+ compressedSuffix) = Some (snappy_encode d))
    /\ (forall x, x ∉ compress_picks cutoff files ->
          (forall n, n ∈ compress_picks cutoff files -> x <> n +:+ compressedSuffix) ->
          fs' !! x = fs !! x).
Proof.
  induction files as [|name rest IH]; intros fs Hnd Hin Htw.
  - exists fs. split; [reflexivity|]. split; [intros n Hn; inversion Hn|auto].
  - apply NoDup_cons in Hnd as [Hname Hnd]. cbn [compress_loop compress_picks].
    destruct (bool_decide (rest = []) || String.leb cutoff name).
    { exists fs. split; [reflexivity|]. split; [intros n Hn; inversion Hn|auto]. }
    destruct (HasSuffix name compressedSuffix) eqn:Hsuf.
    { destruct (IH fs Hnd) as (fs' & Hrun & Hdone & Hrest).
      - intros n Hn. apply Hin. right. exact Hn.
      - intros n Hn Hs. destruct (Htw n ltac:(right; exact Hn) Hs) as [H1 H2].
        split; [exact H1|]. intros H. apply H2. right. exact H.
      - exists fs'. split; [exact Hrun|]. split; [|exact Hrest].
        intros n Hn. destruct (Hdone n Hn) as (H1 & H2). split; [right; exact H1|exact H2]. }
    destruct (Hin name ltac:(left)) as [d Hd]. rewrite Hd.
    destruct (Htw name ltac:(left) Hsuf) as [Hout Hout'].
    rewrite Hout. cbn [default app].
    set (out := name +:+ compressedSuffix) in *.
    assert (Hno : name <> out) by (apply HasSuffix_app_neq; exact Hsuf).
    unfold os_Remove. rewrite lookup_insert_ne by congruence. rewrite Hd.
    set (fs1 := delete name (<[out := snappy_encode d]> fs)).
    assert (Hfs1 : forall x, x <> name -> x <> out -> fs1 !! x = fs !! x).
    { intros x H1 H2. unfold fs1. rewrite lookup_delete_ne by congruence.
      apply lookup_insert_ne. congruence. }
    destruct (IH fs1 Hnd) as (fs' & Hrun & Hdone & Hrest).
    { intros n Hn. rewrite Hfs1; [apply Hin; right; exact Hn| |].
      - intros ->. contradiction.
      - intros ->. apply Hout'. right. exact Hn. }
    { intros n Hn Hs. destruct (Htw n ltac:(right; exact Hn) Hs) as [H1 H2].
      split; [|intros H; apply H2; right; exact H].
      destruct (decide (n +:+ compressedSuffix = name)) as [E|E].
      - rewrite E. unfold fs1. apply lookup_delete_eq.
      - rewrite Hfs1; [exact H1|exact E|].
        intros E2. apply app_suffix_inj in E2. subst n. contradiction. }
    set (done := compress_picks cutoff rest) in *.
    exists fs'. split; [exact Hrun|]. split.
    + intros n Hn. apply elem_of_cons in Hn as [->|Hn].
      * split; [left|]. split; [exact Hsuf|].
        assert (Hnd' : name ∉ done).
        { intros H. apply Hdone in H as [H _]. contradiction. }
        split.
        -- rewrite Hrest; [unfold fs1; apply lookup_delete_eq|exact Hnd'|].
           intros n _. apply HasSuffix_app_neq. exact Hsuf.
        -- exists d. split; [exact Hd|]. fold out. rewrite Hrest.
           ++ unfold fs1. rewrite lookup_delete_ne by congruence. apply lookup_insert_eq.
           ++ intros H. apply Hdone in H as (_ & H & _). unfold out in H.
              rewrite HasSuffix_app in H. discriminate.
           ++ intros n Hn E. apply app_suffix_inj in E. subst n.
              apply Hdone in Hn as [Hn _]. contradiction.
      * destruct (Hdone n Hn) as (H1 & H2 & H3 & d' & H4 & H5).
        split; [right; exact H1|]. split; [exact H2|]. split; [exact H3|].
        exists d'. split; [|exact H5]. rewrite <- H4. symmetry. apply Hfs1.
        -- intros ->. contradiction.
        -- intros ->. unfold out in H2. rewrite HasSuffix_app in H2. discriminate.
    + intros x Hx Hx'. rewrite Hrest.
      * apply Hfs1.
        -- intros ->. apply Hx. left.
        -- apply Hx'. left.
      * intros H. apply Hx. right. exact H.
      * intros n Hn. apply Hx'. right. exact Hn.
Qed.

Lemma compressible_picks cutoff (fs : gmap string (list byte)) n :
  compressible cutoff fs n = true <-> n ∈ compress_picks cutoff (ReadDir fs).
Proof.
  rewrite (compress_picks_elem cutoff (ReadDir fs) n (ReadDir_sorted fs) (ReadDir_NoDup fs)).
  unfold compressible. rewrite !andb_true_iff, bool_decide_eq_true, ReadDir_elem_of.
  rewrite !negb_true_iff, bool_decide_eq_false. tauto.
Qed.

(** X10. What [CompressBefore] does to the files, in a directory in which
    no raw file has a compressed twin: it succeeds; every raw file below the
    cutoff that is not the last of the listing is removed, and its bytes,
    compressed, are found under its name with the suffix; every other file,
    the last one, those at or above the cutoff and those compressed before,
    is as it was. *)
Theorem CompressBefore_compresses_raw_files_below_cutoff (o : Offset)
    (fs : gmap string (list byte)) :
  no_twins fs ->
  let cutoff := sequenceToFilename (FileSequence o) in
  exists fs',
    CompressBefore snappy_encode o fs = (fs', None)
    /\ forall name,
         fs' !! name =
         if compressible cutoff fs name then None
         else if HasSuffix name compressedSuffix
                 && compressible cutoff fs (TrimSuffix name compressedSuffix)
         then snappy_encode <$> fs !! TrimSuffix name compressedSuffix
         else fs !! name.
Proof.
  intros Htw cutoff. unfold CompressBefore. fold cutoff.
  destruct (compress_loop_picks cutoff (ReadDir fs) fs) as (fs' & Hrun & Hdone & Hrest).
  - apply ReadDir_NoDup.
  - intros n. apply ReadDir_elem_of.
  - intros n Hn Hs. pose proof (no_twins_elem fs n Htw Hn Hs) as Hnone.
    split; [exact Hnone|]. intros H. apply ReadDir_elem_of in H.
    rewrite Hnone in H. destruct H. discriminate.
  - exists fs'. split; [exact Hrun|]. intros name.
    destruct (compressible cutoff fs name) eqn:E1.
    + apply compressible_picks in E1. apply Hdone in E1. tauto.
    + destruct (HasSuffix name compressedSuffix
                && compressible cutoff fs (TrimSuffix name compressedSuffix)) eqn:E2.
      * apply andb_prop in E2 as [Hs E2].
        pose proof (HasSuffix_TrimSuffix name compressedSuffix Hs) as Hname.
        apply compressible_picks in E2. apply Hdone in E2.
        destruct E2 as (_ & _ & _ & d & Hd & Hc).
        rewrite <- Hname in Hc. rewrite Hc, Hd. reflexivity.
      * apply Hrest.
        -- intros H. apply compressible_picks in H. congruence.
        -- intros n Hn ->. rewrite HasSuffix_app, TrimSuffix_app in E2.
           apply compressible_picks in Hn. rewrite Hn in E2. discriminate.
Qed.

End CompressionExact.

(** * More of the code: truncation of a writer's log *)

Lemma kept_segments_sorted (q : Z) (closed : list segment) (cur : segment) :
  StronglySorted Z.lt (map seg_seq (closed ++ [cur])) ->
  StronglySorted Z.lt
    (map seg_seq (filter (fun seg => q <= seg_seq seg) closed ++ [cur])).
Proof.
  induction closed as [|a closed IH]; intros Hs; [exact Hs|].
  cbn [app map] in Hs. apply StronglySorted_inv in Hs as [Hs Hall].
  rewrite filter_cons. destruct (decide (q <= seg_seq a)) as [Ha|Ha]; [|apply IH; exact Hs].
  cbn [app map]. apply SSorted_cons; [apply IH; exact Hs|].
  rewrite Forall_forall in Hall. apply Forall_forall. intros x Hx.
  apply Hall. apply list_elem_of_fmap in Hx. destruct Hx as (seg & -> & Hseg).
  apply list_elem_of_fmap. exists seg. split; [reflexivity|].
  apply elem_of_app in Hseg. apply elem_of_app.
  destruct Hseg as [Hseg|Hseg]; [left|right; exact Hseg].
  apply list_elem_of_filter in Hseg. tauto.
Qed.

Lemma kept_segments_elem (q : Z) (closed : list segment) (cur : segment) seg :
  seg ∈ filter (fun seg => q <= seg_seq seg) closed ++ [cur] ->
  seg ∈ closed ++ [cur].
Proof.
  rewrite !elem_of_app, list_elem_of_filter. tauto.
Qed.

Lemma Forall_records_of (P : list byte -> Prop) (segs : list segment) :
  (forall seg, seg ∈ segs -> Forall P (seg_records seg)) -> Forall P (records_of segs).
Proof.
  induction segs as [|a segs IH]; intros H; [constructor|].
  unfold records_of. cbn [map concat]. apply Forall_app. split.
  - apply H. left.
  - apply IH. intros seg Hseg. apply H. right. exact Hseg.
Qed.

(** In a writer's log the last name of the listing is the active
    segment's. *)
Lemma log_last_name (closed : list segment) (cur : segment) wal
    (fs : gmap string (list byte)) :
  log_inv closed cur wal fs ->
  last (ReadDir fs) = Some (sequenceToFilename (seg_seq cur)).
Proof.
  intros Hinv.
  assert (Hcur : cur ∈ closed ++ [cur]) by (apply elem_of_app; right; left).
  apply last_ReadDir_greatest.
  - apply (log_file_exists closed cur wal fs cur Hinv Hcur).
  - intros x Hx.
    pose proof Hinv as (_ & _ & Hsorted & _ & _ & _ & Hnames & _).
    destruct (Hnames x Hx) as (seg & Hseg & ->).
    pose proof (log_seq_range closed cur wal fs seg Hinv Hseg) as Hr.
    pose proof (log_seq_range closed cur wal fs cur Hinv Hcur) as Hrc.
    apply le_leb. unfold String.leb.
    rewrite sequenceToFilename_compare by lia.
    assert (Hle : seg_seq seg <= seg_seq cur).
    { apply elem_of_app in Hseg as [Hseg|Hseg].
      - pose proof (closed_below_cur closed cur Hsorted seg Hseg). lia.
      - apply list_elem_of_singleton in Hseg. subst seg. lia. }
    destruct (Z.compare_spec (seg_seq seg) (seg_seq cur)); try reflexivity. lia.
Qed.

(** Truncation leaves the log of the segments at or above the cutoff and of
    the active segment. *)
Lemma TruncateBefore_log_inv (o : Offset) (closed : list segment) (cur : segment) wal
    (fs : gmap string (list byte)) :
  log_inv closed cur wal fs -> 0 <= FileSequence o < 2 ^ 63 ->
  exists fs',
    TruncateBefore o fs = (fs', None)
    /\ log_inv (filter (fun seg => FileSequence o <= seg_seq seg) closed) cur wal fs'.
Proof.
  intros Hinv Hq.
  destruct (TruncateBefore_lookup o fs) as (fs' & Hrun & Hlook).
  exists fs'. split; [exact Hrun|].
  rewrite (log_last_name closed cur wal fs Hinv) in Hlook.
  assert (Hcur : cur ∈ closed ++ [cur]) by (apply elem_of_app; right; left).
  pose proof (log_seq_range closed cur wal fs cur Hinv Hcur) as Hrc.
  assert (Hseg_look : forall seg, seg ∈ closed ++ [cur] ->
            fs' !! sequenceToFilename (seg_seq seg)
            = if (seg_seq seg <? FileSequence o)
                 && negb (bool_decide (seg_seq seg = seg_seq cur))
              then None else fs !! sequenceToFilename (seg_seq seg)).
  { intros seg Hseg. rewrite Hlook.
    pose proof (log_seq_range closed cur wal fs seg Hinv Hseg) as Hr.
    assert (E1 : String.ltb (sequenceToFilename (seg_seq seg))
                            (sequenceToFilename (FileSequence o))
                 = (seg_seq seg <? FileSequence o)).
    { unfold String.ltb, Z.ltb. rewrite sequenceToFilename_compare by lia. reflexivity. }
    assert (E2 : bool_decide (Some (sequenceToFilename (seg_seq cur))
                              = Some (sequenceToFilename (seg_seq seg)))
                 = bool_decide (seg_seq seg = seg_seq cur)).
    { apply bool_decide_ext. split.
      - intros E. injection E as E. apply sequenceToFilename_inj in E; lia.
      - intros ->. reflexivity. }
    rewrite E1, E2. reflexivity. }
  pose proof Hinv as (Hfile & Hfseq & Hsorted & Hrange & Hclosed & Hflushed & Hnames & Hrecs).
  split; [exact Hfile|]. split; [exact Hfseq|].
  split; [apply kept_segments_sorted; exact Hsorted|].
  split; [|split; [|split; [|split]]].
  - rewrite Forall_forall in Hrange. apply Forall_forall. intros x Hx.
    apply Hrange. apply list_elem_of_fmap in Hx. destruct Hx as (seg & -> & Hseg).
    apply list_elem_of_fmap. exists seg. split; [reflexivity|].
    eapply kept_segments_elem. exact Hseg.
  - rewrite Forall_forall in Hclosed. apply Forall_forall. intros seg Hseg.
    apply list_elem_of_filter in Hseg. destruct Hseg as [Hge Hseg].
    rewrite Hseg_look by (apply elem_of_app; left; exact Hseg).
    destruct (seg_seq seg <? FileSequence o) eqn:E; [apply Z.ltb_lt in E; lia|].
    cbn [andb]. apply Hclosed. exact Hseg.
  - destruct Hflushed as (flushed & Hf1 & Hf2). exists flushed. split; [|exact Hf2].
    rewrite (Hseg_look cur Hcur).
    rewrite (bool_decide_eq_true_2 (seg_seq cur = seg_seq cur)) by reflexivity.
    rewrite andb_false_r. exact Hf1.
  - intros name Hname.
    assert (Hold : is_Some (fs !! name)).
    { rewrite Hlook in Hname. destruct (_ && _); [destruct Hname; discriminate|exact Hname]. }
    destruct (Hnames name Hold) as (seg & Hseg & ->).
    exists seg. split; [|reflexivity].
    rewrite (Hseg_look seg Hseg) in Hname.
    apply elem_of_app in Hseg. apply elem_of_app.
    destruct Hseg as [Hseg|Hseg]; [left|right; exact Hseg].
    apply list_elem_of_filter. split; [|exact Hseg].
    destruct (seg_seq seg <? FileSequence o) eqn:E; [|apply Z.ltb_ge in E; exact E].
    destruct (bool_decide (seg_seq seg = seg_seq cur)) eqn:Ec.
    + apply bool_decide_eq_true_1 in Ec.
      pose proof (closed_below_cur closed cur Hsorted seg Hseg). lia.
    + cbn in Hname. destruct Hname; discriminate.
  - apply Forall_records_of. intros seg Hseg.
    apply (records_of_elem _ (closed ++ [cur]) seg); [|exact Hrecs].
    eapply kept_segments_elem. exact Hseg.
Qed.

Section TruncatedLog.

Variable snappy_decode : list byte -> list byte * bool.

(** X17. Truncation of a writer's log drops whole old segments and nothing
    else. For the log of a writer whose buffer is flushed,
    [TruncateBefore(o)] succeeds, and a reader made with a nil offset
    afterwards returns, in order and from as many calls of [Read], exactly
    the records of the segments whose sequence is at or above the cutoff and
    of the active segment: every record of a segment that stays is still
    read, and no record of a segment below the cutoff is. *)
Theorem TruncateBefore_drops_whole_segments (o : Offset) (closed : list segment)
    (cur : segment) wal (fs : gmap string (list byte)) :
  log_inv closed cur wal fs -> writer wal = [] ->
  0 <= FileSequence o < 2 ^ 63 ->
  let kept := filter (fun seg => FileSequence o <= seg_seq seg) closed ++ [cur] in
  exists fs' r,
    TruncateBefore o fs = (fs', None)
    /\ (forall s, s ∈ sequences fs' <-> exists seg, seg ∈ kept /\ seg_seq seg = s)
    /\ NewReader snappy_decode None fs' = nr_ok r
    /\ forall chunks, exists fuel r',
         Read_many snappy_decode (length (records_of kept)) fuel chunks wal fs' r
         = Some (records_of kept, r').
Proof.
  intros Hinv Hw Hq kept.
  destruct (TruncateBefore_log_inv o closed cur wal fs Hinv Hq) as (fs' & Hrun & Hinv').
  destruct (NewReader_log snappy_decode _ cur wal fs' Hinv') as (r & here & HN & Hin & Hpend).
  exists fs', r. split; [exact Hrun|]. split; [|split; [exact HN|]].
  - intros s. apply (log_sequences _ cur wal fs' s Hinv').
  - intros chunks.
    assert (Hrange : Forall (fun rec => 0 < Z.of_nat (length rec) < 2 ^ 32) here).
    { destruct Hinv' as (_ & _ & _ & _ & _ & _ & _ & Hr). fold kept in Hr.
      fold kept in Hpend. rewrite <- Hpend in Hr.
      unfold pending_of in Hr. apply Forall_app in Hr. tauto. }
    destruct (Read_many_log snappy_decode
                (filter (fun seg => FileSequence o <= seg_seq seg) closed) cur wal fs'
                Hinv' Hw (records_of kept) _ chunks 0%nat here r
                (Nat.lt_succ_diag_r _) Hin Hrange Hpend)
      as [r' Hr'].
    eexists _, r'.
    exact Hr'.
Qed.

End TruncatedLog.

(** * More of the code: the reader at the end of the log *)

Section ReaderAtTheEnd.

Variable snappy_decode : list byte -> list byte * bool.

(** With nothing pending and the writer's buffer flushed, a call of [Read]
    goes to sleep: it returns neither a record nor an error. *)
Lemma Read_from_blocked (closed : list segment) (cur : segment) wal
    (fs : gmap string (list byte)) :
  log_inv closed cur wal fs -> writer wal = [] ->
  forall fuel chunks (i : nat) here pc r,
    (turns_left closed cur i r < fuel)%nat ->
    reader_in closed cur i here pc r ->
    Forall (fun rec => 0 < Z.of_nat (length rec) < 2 ^ 32) here ->
    pending_of closed cur i here = [] ->
    exists pc' r', Read_from snappy_decode fuel chunks wal fs pc r
                   = Some (rd_blocked pc' r').
Proof.
  intros Hinv Hflushed.
  induction fuel as [|fuel IH]; intros chunks i here pc r Hfuel Hin Hrange Hpend; [lia|].
  cbn [Read_from].
  pose proof (Read_step_log snappy_decode closed cur wal fs (chunks 0%nat) i here pc r
                Hinv Hin Hrange) as Hstep.
  destruct (Read_step snappy_decode wal fs (chunks 0%nat) pc r) as [pc' r'| |b r'|e r'].
  - destruct Hstep as (i' & here' & Hin' & Hpend' & Hrange' & Hturns).
    apply (IH _ i' here' pc' r'); [lia|exact Hin'|exact Hrange'|].
    rewrite Hpend'. exact Hpend.
  - eauto.
  - destruct Hstep as (here' & -> & _). rewrite pending_of_cons in Hpend. discriminate.
  - contradiction.
Qed.

(** The calls of [Read] that return the pending records leave a reader with
    nothing pending. *)
Lemma Read_many_log_end (closed : list segment) (cur : segment) wal
    (fs : gmap string (list byte)) :
  log_inv closed cur wal fs -> writer wal = [] ->
  forall pending fuel chunks (i : nat) here r,
    (turns_left closed cur i r < fuel)%nat ->
    reader_in closed cur i here (at_length []) r ->
    Forall (fun rec => 0 < Z.of_nat (length rec) < 2 ^ 32) here ->
    pending_of closed cur i here = pending ->
    exists r' (i' : nat) here',
      Read_many snappy_decode (length pending) fuel chunks wal fs r
      = Some (pending, r')
      /\ reader_in closed cur i' here' (at_length []) r'
      /\ Forall (fun rec => 0 < Z.of_nat (length rec) < 2 ^ 32) here'
      /\ pending_of closed cur i' here' = []
      /\ (turns_left closed cur i' r' < fuel)%nat.
Proof.
  intros Hinv Hflushed.
  induction pending as [|rec rest IH]; intros fuel chunks i here r Hfuel Hin Hrange Hpend.
  - exists r, i, here. split; [reflexivity|]. auto.
  - destruct (Read_from_log snappy_decode closed cur wal fs Hinv Hflushed fuel (chunks 0%nat)
                i here (at_length []) r rec rest Hfuel Hin Hrange Hpend)
      as (r1 & i1 & here1 & H1 & H2 & H3 & H4 & H5).
    destruct (IH fuel (fun k => chunks (S k)) i1 here1 r1)
      as (r' & i' & here' & Hr' & Hin' & Hrange' & Hpend' & Hturns'); try assumption; [lia|].
    exists r', i', here'. split; [|auto].
    cbn [Read_many length]. unfold Read. rewrite H1, Hr'. reflexivity.
Qed.

(** X18. After the last record [Read] blocks. On the log of a writer whose
    buffer is flushed, a reader made with a nil offset returns the records of
    the log, in order, from as many calls of [Read]; the call after those
    returns nothing, neither a record nor an error, however the reads are
    chunked: it sleeps until the writer writes again. *)
Theorem Read_blocks_after_the_last_record (closed : list segment) (cur : segment) wal
    (fs : gmap string (list byte)) :
  log_inv closed cur wal fs -> writer wal = [] ->
  exists r bound,
    NewReader snappy_decode None fs = nr_ok r
    /\ forall chunks, exists r',
         Read_many snappy_decode (length (records_of (closed ++ [cur]))) bound chunks
           wal fs r
         = Some (records_of (closed ++ [cur]), r')
         /\ forall chunks' (fuel : nat), (bound <= fuel)%nat ->
              exists pc r'',
                Read snappy_decode fuel chunks' wal fs r' = Some (rd_blocked pc r'').
Proof.
  intros Hinv Hw.
  destruct (NewReader_log snappy_decode closed cur wal fs Hinv) as (r & here & HN & Hin & Hpend).
  exists r, (S (turns_left closed cur 0 r)). split; [exact HN|]. intros chunks.
  assert (Hrange : Forall (fun rec => 0 < Z.of_nat (length rec) < 2 ^ 32) here).
  { destruct Hinv as (_ & _ & _ & _ & _ & _ & _ & Hr). rewrite <- Hpend in Hr.
    unfold pending_of in Hr. apply Forall_app in Hr. tauto. }
  destruct (Read_many_log_end closed cur wal fs Hinv Hw (records_of (closed ++ [cur]))
              (S (turns_left closed cur 0 r)) chunks 0%nat here r
              (Nat.lt_succ_diag_r _) Hin Hrange Hpend)
    as (r' & i' & here' & Hr' & Hin' & Hrange' & Hpend' & Hturns').
  exists r'. split; [exact Hr'|]. intros chunks' fuel Hfuel.
  apply (Read_from_blocked closed cur wal fs Hinv Hw fuel chunks' i' here'
           (at_length []) r'); [lia|exact Hin'|exact Hrange'|exact Hpend'].
Qed.

End ReaderAtTheEnd.

(** * More of the code: the reader *)

Section ReaderMore.

Variable snappy_decode : list byte -> list byte * bool.

(** X11. One round of [r.advance()] in a directory of segment files: the
    reader moves to the segment of the least sequence above its own, at
    position 0, on the raw file if there is one and else on the compressed
    one; with no segment above its own it sleeps; it returns no error. *)
Theorem Reader_advance_opens_next_segment r (fs : gmap string (list byte)) :
  canonical_dir fs -> 0 <= fileSequence (r_fb r) < 2 ^ 63 ->
  match Reader_advance snappy_decode r fs with
  | adv_ok r' =>
      exists s z,
        r' = mkReader (mkFilebased (Some (segment_name s z)) z s 0) 0
        /\ fileSequence (r_fb r) < s
        /\ is_Some (fs !! segment_name s z)
        /\ (z = true -> fs !! segment_name s false = None)
        /\ (forall x, x ∈ sequences fs -> fileSequence (r_fb r) < x -> s <= x)
  | adv_err _ _ => False
  | adv_sleep => forall x, x ∈ sequences fs -> x <= fileSequence (r_fb r)
  end.
Proof.
  intros Hc Hr. pose proof (Reader_advance_canonical snappy_decode r fs Hc Hr) as H.
  destruct (Reader_advance snappy_decode r fs) as [r'|e r'|]; [|exact H|exact H].
  destruct H as (s & z & -> & Hs & _ & Hleast & Hfile & Hraw).
  exists s, z. split; [reflexivity|]. split; [lia|]. auto.
Qed.

(** X14. In a directory of segment files [Read] returns no error: errors of
    reading are logged and the segment is left, and [advance] finds the file
    it opens. A reader that returns a record is again one of which this
    holds. *)
Theorem Read_returns_no_error fuel : forall chunks wal (fs : gmap string (list byte)) pc r,
  canonical_dir fs -> 0 <= fileSequence (r_fb r) < 2 ^ 63 ->
  match Read_from snappy_decode fuel chunks wal fs pc r with
  | Some (rd_err _ _) => False
  | Some (rd_ok _ r') => 0 <= fileSequence (r_fb r') < 2 ^ 63
  | _ => True
  end.
Proof.
  induction fuel as [|fuel IH]; intros chunks wal fs pc r Hc Hr; [exact I|].
  cbn [Read_from].
  assert (Hread : forall want res r1,
            reader_Read snappy_decode r fs want (chunks 0%nat) = (res, r1) ->
            r_fb r1 = r_fb r).
  { intros want res r1. unfold reader_Read.
    destruct (stream snappy_decode r fs) as [data bad].
    destruct (drop (consumed r) data); intros E; injection E as _ <-; reflexivity. }
  destruct pc as [lenBuf| |len b]; cbn [Read_step].
  - destruct (reader_Read snappy_decode r fs (4 - length lenBuf) (chunks 0%nat))
      as [[bs| |] r1] eqn:E; [| exact I |].
    + pose proof (Hread _ _ _ E) as Hfb.
      destruct (length (lenBuf ++ bs) =? 4)%nat;
        [destruct (sentinel <? Uint32 (lenBuf ++ bs))|];
        apply IH; try exact Hc;
        cbn [r_add_position r_fb fileSequence]; rewrite Hfb; exact Hr.
    + apply IH; [exact Hc|]. rewrite (Hread _ _ _ E). exact Hr.
  - pose proof (Reader_advance_canonical snappy_decode r fs Hc Hr) as Ha.
    destruct (Reader_advance snappy_decode r fs) as [r'|e r'|]; [|exact Ha|exact I].
    destruct Ha as (s & z & -> & Hs & _). apply IH; [exact Hc|].
    cbn [reader_at r_fb fileSequence]. lia.
  - destruct (reader_Read snappy_decode r fs (Z.to_nat len - length b) (chunks 0%nat))
      as [[bs| |] r1] eqn:E.
    + pose proof (Hread _ _ _ E) as Hfb.
      destruct (Z.of_nat (length (b ++ bs)) =? len).
      * cbn [r_add_position r_fb fileSequence]. rewrite Hfb. exact Hr.
      * apply IH; [exact Hc|].
        cbn [r_add_position r_fb fileSequence]. rewrite Hfb. exact Hr.
    + pose proof (Hread _ _ _ E) as Hfb.
      destruct (hasMovedBeyond wal (fileSequence (r_fb r1))); [|exact I].
      apply IH; [exact Hc|]. rewrite Hfb. exact Hr.
    + apply IH; [exact Hc|]. rewrite (Hread _ _ _ E). exact Hr.
Qed.

Lemma sequences_segment (fs : gmap string (list byte)) s z :
  canonical_dir fs -> 0 <= s < 2 ^ 63 -> is_Some (fs !! segment_name s z) ->
  s ∈ sequences fs.
Proof.
  intros Hc Hs Hf. apply (sequences_elem_of fs s Hc). split; [exact Hs|]. eauto.
Qed.

(** [r.open()] on a segment that is there, at a position within it. *)
Lemma Reader_open_at r (fs : gmap string (list byte)) s z (c : nat) :
  fileSequence (r_fb r) = s -> position (r_fb r) = Z.of_nat c ->
  is_Some (fs !! segment_name s z) ->
  (z = true -> fs !! segment_name s false = None) ->
  let r' := mkReader (mkFilebased (Some (segment_name s z)) z s (Z.of_nat c)) c in
  (c <= length (fst (stream snappy_decode r' fs)))%nat ->
  Reader_open snappy_decode r fs = (r', None).
Proof.
  intros Hs Hp [data Hdata] Hraw r' Hc.
  unfold Reader_open, openFile, filename. rewrite Hs, Hp.
  assert (Hstream : stream snappy_decode r' fs
                    = if z then snappy_decode data else (data, false)).
  { unfold stream, r'. cbn [r_fb file compressed]. rewrite Hdata. reflexivity. }
  destruct z.
  - pose proof (Hraw eq_refl) as Hnone.
    change (segment_name s false) with (sequenceToFilename s) in Hnone.
    rewrite Hnone.
    change (sequenceToFilename s +:+ compressedSuffix) with (segment_name s true).
    rewrite Hdata.
    cbn [position]. destruct (0 <? Z.of_nat c) eqn:E0.
    + unfold CopyN_discard.
      assert (Hst : stream snappy_decode
                      (mkReader (mkFilebased (Some (segment_name s true)) true s (Z.of_nat c)) 0) fs
                    = stream snappy_decode r' fs) by reflexivity.
      rewrite Hst. destruct (stream snappy_decode r' fs) as [bytes bad].
      cbn [consumed fst] in *. rewrite drop_0.
      destruct (Z.of_nat c <=? Z.of_nat (length bytes)) eqn:Ec;
        [|apply Z.leb_gt in Ec; lia].
      cbn [r_fb]. rewrite Nat2Z.id. reflexivity.
    + apply Z.ltb_ge in E0. assert (c = 0%nat) as -> by lia. reflexivity.
  - change (segment_name s false) with (sequenceToFilename s) in *.
    rewrite Hdata.
    cbn [position]. destruct (0 <? Z.of_nat c) eqn:E0.
    + unfold CopyN_discard.
      assert (Hst : stream snappy_decode
                      (mkReader (mkFilebased (Some (sequenceToFilename s)) false s (Z.of_nat c)) 0) fs
                    = stream snappy_decode r' fs) by reflexivity.
      rewrite Hst. destruct (stream snappy_decode r' fs) as [bytes bad].
      cbn [consumed fst] in *. rewrite drop_0.
      destruct (Z.of_nat c <=? Z.of_nat (length bytes)) eqn:Ec;
        [|apply Z.leb_gt in Ec; lia].
      cbn [r_fb]. rewrite Nat2Z.id. reflexivity.
    + apply Z.ltb_ge in E0. assert (c = 0%nat) as -> by lia. reflexivity.
Qed.

(** The scan of [NewReader] stops at the segment of the least sequence at or
    above the offset's. *)
Lemma NewReader_scan_least o (fs : gmap string (list byte)) s r :
  canonical_dir fs -> 0 <= FileSequence o < 2 ^ 63 ->
  s ∈ sequences fs -> FileSequence o <= s ->
  (forall x, x ∈ sequences fs -> FileSequence o <= x -> s <= x) ->
  NewReader_scan snappy_decode o (sequenceToFilename (FileSequence o)) (ReadDir fs) r fs
  = let pos := if s =? FileSequence o then Position o else 0 in
    match Reader_open snappy_decode
            (mkReader (mkFilebased (file (r_fb r)) (compressed (r_fb r)) s pos)
                      (consumed r)) fs with
    | (r, Some e) => (r, Some (Errorf "Unable to open existing log file" e))
    | (r, None) => (r, None)
    end.
Proof.
  intros Hc Ho Hs Hle Hleast.
  rewrite (NewReader_scan_find snappy_decode o (ReadDir fs) r fs Ho Hc).
  pose proof (find_sorted_least_le (sequences fs) (FileSequence o) (sequences_sorted fs Hc)) as Hf.
  fold (sequences fs).
  destruct (List.find (fun s0 => FileSequence o <=? s0) (sequences fs)) as [s'|].
  - destruct Hf as (Hs' & Hle' & Hleast').
    assert (s' = s) as -> by (pose proof (Hleast s' Hs' Hle'); pose proof (Hleast' s Hs Hle); lia).
    reflexivity.
  - specialize (Hf s Hs). lia.
Qed.

(** X13. An offset between two segments: [NewReader] given an offset whose
    sequence no segment has, and with a later segment in the directory,
    starts at the beginning of the earliest later segment, whatever the
    position of the offset. *)
Theorem NewReader_starts_at_next_segment o (fs : gmap string (list byte)) s z :
  canonical_dir fs ->
  0 <= FileSequence (legacy_offset o) < 2 ^ 63 ->
  FileSequence (legacy_offset o) < s < 2 ^ 63 ->
  is_Some (fs !! segment_name s z) ->
  (z = true -> fs !! segment_name s false = None) ->
  (forall x, x ∈ sequences fs -> FileSequence (legacy_offset o) <= x -> s <= x) ->
  NewReader snappy_decode (Some o) fs
  = nr_ok (mkReader (mkFilebased (Some (segment_name s z)) z s 0) 0).
Proof.
  intros Hc Ho Hs Hfile Hraw Hleast. unfold NewReader. cbv zeta.
  rewrite (NewReader_scan_least (legacy_offset o) fs s _ Hc Ho
             (sequences_segment fs s z Hc ltac:(lia) Hfile) ltac:(lia) Hleast).
  cbv zeta. destruct (s =? FileSequence (legacy_offset o)) eqn:E;
    [apply Z.eqb_eq in E; lia|].
  cbn [r_fb file compressed consumed].
  rewrite (Reader_open_at (mkReader (mkFilebased None false s 0) 0) fs s z 0
             eq_refl eq_refl Hfile Hraw); [reflexivity|].
  cbn [consumed]. lia.
Qed.

(** With its [Offset()] a settled reader is made again. *)
Lemma NewReader_at_Offset (fs : gmap string (list byte)) r :
  canonical_dir fs -> reader_settled snappy_decode fs r ->
  NewReader snappy_decode (Some (Reader_Offset r)) fs = nr_ok r.
Proof.
  intros Hc (s & z & Hfb & Hs & Hfile & Hraw & Hcons).
  unfold NewReader, Reader_Offset. cbv zeta. rewrite Hfb.
  cbn [fileSequence position]. rewrite legacy_offset_small by exact Hs.
  assert (Hs63 : 0 <= s < 2 ^ 63) by lia.
  rewrite (NewReader_scan_least (newOffset s (Z.of_nat (consumed r))) fs s _ Hc Hs63
             (sequences_segment fs s z Hc Hs63 Hfile) ltac:(cbn; lia)
             ltac:(cbn; intros; assumption)).
  cbv zeta. cbn [FileSequence Position]. rewrite Z.eqb_refl.
  cbn [r_fb file compressed consumed].
  assert (Hr : r = mkReader (mkFilebased (Some (segment_name s z)) z s
                                          (Z.of_nat (consumed r))) (consumed r)).
  { destruct r as [fb c]. cbn in *. rewrite Hfb. reflexivity. }
  rewrite (Reader_open_at (mkReader (mkFilebased None false s (Z.of_nat (consumed r))) 0)
             fs s z (consumed r) eq_refl eq_refl Hfile Hraw).
  - rewrite <- Hr. rewrite Hfb. reflexivity.
  - cbv zeta. rewrite <- Hr. exact Hcons.
Qed.

Lemma NewReader_nil_settled (fs : gmap string (list byte)) r :
  canonical_dir fs -> (forall x, x ∈ sequences fs -> x < 10 ^ 18) ->
  NewReader snappy_decode None fs = nr_ok r -> reader_settled snappy_decode fs r.
Proof.
  intros Hc Hsmall. unfold NewReader. cbn [r_fb file].
  pose proof (Reader_advance_canonical snappy_decode
                (mkReader (mkFilebased None false 0 0) 0) fs Hc ltac:(cbn; lia)) as Ha.
  destruct (Reader_advance snappy_decode (mkReader (mkFilebased None false 0 0) 0) fs)
    as [r'|e r'|]; [|contradiction|discriminate].
  intros E. injection E as <-.
  destruct Ha as (s & z & -> & Hs & Hin & _ & Hfile & Hraw).
  cbn [r_fb fileSequence] in Hs.
  exists s, z. split; [reflexivity|]. split; [specialize (Hsmall s Hin); lia|].
  split; [exact Hfile|]. split; [exact Hraw|]. cbn [reader_at consumed]. lia.
Qed.

Lemma reading_settled (fs : gmap string (list byte)) r want chunk bs r1 :
  dir_bounded snappy_decode fs -> reader_settled snappy_decode fs r ->
  reader_Read snappy_decode r fs want chunk = (io_ok bs, r1) ->
  reader_settled snappy_decode fs (r_add_position r1 (length bs)).
Proof.
  intros Hb (s & z & Hfb & Hs & Hfile & Hraw & Hcons) Hread.
  pose proof (stream_bounded snappy_decode r fs Hb) as Hbound.
  unfold reader_Read in Hread.
  destruct (stream snappy_decode r fs) as [data bad] eqn:Est. cbn [fst] in *.
  destruct (drop (consumed r) data) as [|x rest] eqn:Erest; [destruct bad; discriminate|].
  injection Hread as <- <-.
  set (n := Nat.min (Nat.max 1 chunk) (Nat.min want (S (length rest)))) in *.
  assert (Hn : (n <= length (x :: rest))%nat) by (cbn [length]; lia).
  assert (Hlen : (consumed r + length (x :: rest) = length data)%nat).
  { rewrite <- Erest, length_drop. lia. }
  assert (Hbs : length (take n (x :: rest)) = n) by (rewrite length_take; lia).
  rewrite Hbs.
  exists s, z. unfold r_add_position. cbn [r_fb consumed]. rewrite Hfb.
  cbn [file compressed fileSequence position].
  split; [|split; [exact Hs|split; [exact Hfile|split; [exact Hraw|]]]].
  - rewrite int64_small by lia. f_equal. lia.
  - assert (Hst : stream snappy_decode
                    (mkReader (mkFilebased (Some (segment_name s z)) z s
                                 (int64 (Z.of_nat (consumed r) + Z.of_nat n)))
                              (consumed r + n)) fs
                  = stream snappy_decode r fs).
    { unfold stream. rewrite Hfb. reflexivity. }
    rewrite Hst, Est. cbn [fst]. lia.
Qed.

Lemma Read_from_settled fuel : forall chunks wal (fs : gmap string (list byte)) pc r b r',
  canonical_dir fs -> dir_bounded snappy_decode fs ->
  (forall x, x ∈ sequences fs -> x < 10 ^ 18) ->
  reader_settled snappy_decode fs r ->
  Read_from snappy_decode fuel chunks wal fs pc r = Some (rd_ok b r') ->
  reader_settled snappy_decode fs r'.
Proof.
  induction fuel as [|fuel IH]; intros chunks wal fs pc r b r' Hc Hb Hsmall Hr;
    [discriminate|].
  cbn [Read_from].
  assert (Hseq : 0 <= fileSequence (r_fb r) < 2 ^ 63).
  { destruct Hr as (s & z & -> & Hs & _). cbn. lia. }
  destruct pc as [lenBuf| |len b0]; cbn [Read_step].
  - destruct (reader_Read snappy_decode r fs (4 - length lenBuf) (chunks 0%nat))
      as [[bs| |] r1] eqn:E; [|discriminate|].
    + pose proof (reading_settled fs r _ _ bs r1 Hb Hr E) as Hr1.
      destruct (length (lenBuf ++ bs) =? 4)%nat;
        [destruct (sentinel <? Uint32 (lenBuf ++ bs))|];
        apply IH; assumption.
    + rewrite (reader_Read_not_ok snappy_decode _ _ _ _ _ _ E) by discriminate.
      apply IH; assumption.
  - pose proof (Reader_advance_canonical snappy_decode r fs Hc Hseq) as Ha.
    destruct (Reader_advance snappy_decode r fs) as [r1|e r1|]; [|discriminate|discriminate].
    destruct Ha as (s & z & -> & Hs & Hin & _ & Hfile & Hraw).
    apply IH; try assumption.
    exists s, z. split; [reflexivity|]. split; [specialize (Hsmall s Hin); lia|].
    split; [exact Hfile|]. split; [exact Hraw|]. cbn [reader_at consumed]. lia.
  - destruct (reader_Read snappy_decode r fs (Z.to_nat len - length b0) (chunks 0%nat))
      as [[bs| |] r1] eqn:E.
    + pose proof (reading_settled fs r _ _ bs r1 Hb Hr E) as Hr1.
      destruct (Z.of_nat (length (b0 ++ bs)) =? len).
      * intros H. injection H as _ <-. exact Hr1.
      * apply IH; assumption.
    + rewrite (reader_Read_not_ok snappy_decode _ _ _ _ _ _ E) by discriminate.
      destruct (hasMovedBeyond wal (fileSequence (r_fb r))); [|discriminate].
      apply IH; assumption.
    + rewrite (reader_Read_not_ok snappy_decode _ _ _ _ _ _ E) by discriminate.
      apply IH; assumption.
Qed.

Lemma Read_many_settled n : forall fuel chunks wal (fs : gmap string (list byte)) r bs r',
  canonical_dir fs -> dir_bounded snappy_decode fs ->
  (forall x, x ∈ sequences fs -> x < 10 ^ 18) ->
  reader_settled snappy_decode fs r ->
  Read_many snappy_decode n fuel chunks wal fs r = Some (bs, r') ->
  reader_settled snappy_decode fs r'.
Proof.
  induction n as [|n IH]; intros fuel chunks wal fs r bs r' Hc Hb Hsmall Hr.
  - cbn. intros E. injection E as _ <-. exact Hr.
  - cbn [Read_many].
    destruct (Read snappy_decode fuel (chunks 0%nat) wal fs r) as [[b r1|e r1|pc r1]|] eqn:E;
      try discriminate.
    pose proof (Read_from_settled _ _ _ _ _ _ _ _ Hc Hb Hsmall Hr E) as Hr1.
    destruct (Read_many snappy_decode n fuel (fun i => chunks (S i)) wal fs r1)
      as [[bs1 r2]|] eqn:E2; [|discriminate].
    intros H. injection H as _ <-. eapply IH; eassumption.
Qed.

(** X12. Reading can be taken up where it was left. In a directory of
    segment files, each shorter than 2^63 bytes and of a sequence below
    10^18, a reader made with a nil offset that has returned some records
    has an [Offset()] from which [NewReader] makes the very same reader
    again: on the same segment, the raw file preferred, with the same bytes
    consumed, so that it returns the records that follow. *)
Theorem NewReader_resumes_at_Offset (n fuel : nat) chunks wal
    (fs : gmap string (list byte)) r0 bs r :
  canonical_dir fs -> dir_bounded snappy_decode fs ->
  (forall x, x ∈ sequences fs -> x < 10 ^ 18) ->
  NewReader snappy_decode None fs = nr_ok r0 ->
  Read_many snappy_decode n fuel chunks wal fs r0 = Some (bs, r) ->
  NewReader snappy_decode (Some (Reader_Offset r)) fs = nr_ok r.
Proof.
  intros Hc Hb Hsmall H0 Hreads.
  apply NewReader_at_Offset; [exact Hc|].
  eapply Read_many_settled; try eassumption.
  apply NewReader_nil_settled; assumption.
Qed.

(** X16. An offset into a segment. [NewReader] given the sequence of a
    segment that is there (below 10^18, so not rescaled) and a position
    within its logical bytes, those decoded when only the compressed file is
    there, gives a reader on that segment that has consumed as many bytes as
    the position says: positions count logical bytes, not bytes of the
    file. *)
Theorem NewReader_opens_at_position (fs : gmap string (list byte)) s z (p : nat) data :
  canonical_dir fs -> 0 <= s < 10 ^ 18 ->
  fs !! segment_name s z = Some data ->
  (z = true -> fs !! segment_name s false = None) ->
  (p <= length (if z then fst (snappy_decode data) else data))%nat ->
  NewReader snappy_decode (Some (newOffset s (Z.of_nat p))) fs
  = nr_ok (mkReader (mkFilebased (Some (segment_name s z)) z s (Z.of_nat p)) p).
Proof.
  intros Hc Hs Hdata Hraw Hp.
  apply (NewReader_at_Offset fs
           (mkReader (mkFilebased (Some (segment_name s z)) z s (Z.of_nat p)) p) Hc).
  exists s, z. split; [reflexivity|]. split; [exact Hs|]. split; [eauto|].
  split; [exact Hraw|]. unfold stream. cbn [r_fb file compressed consumed].
  rewrite Hdata. destruct z; exact Hp.
Qed.

End ReaderMore.

(** * The further theorems at work on small logs *)

(** X1 on the sequence -5 and the name of a compressed file. *)
Lemma filenameToSequence_round_trip_minus_five :
  - 2 ^ 63 <= -5 < 2 ^ 63
  /\ filenameToSequence (segment_name (-5) true) = -5.
Proof.
  assert (H : - 2 ^ 63 <= -5 < 2 ^ 63) by lia.
  split; [exact H|]. exact (filenameToSequence_round_trip (-5) true H).
Defined.

(** X2 on the sequences of the two segments. *)
Lemma names_ordered_as_sequences_two_segments :
  0 <= 5000 < 2 ^ 63 /\ 0 <= 9000 < 2 ^ 63
  /\ (String.length (sequenceToFilename 5000) = 19%nat
      /\ String.leb (sequenceToFilename 5000) (sequenceToFilename 9000) = (5000 <=? 9000)
      /\ String.ltb (sequenceToFilename 5000) (sequenceToFilename 9000) = (5000 <? 9000)
      /\ (sequenceToFilename 5000 = sequenceToFilename 9000 -> 5000 = 9000)).
Proof.
  assert (H1 : 0 <= 5000 < 2 ^ 63) by lia.
  assert (H2 : 0 <= 9000 < 2 ^ 63) by lia.
  split; [exact H1|]. split; [exact H2|].
  exact (names_ordered_as_sequences 5000 9000 H1 H2).
Defined.

(** X15 on a sequence of nanoseconds. *)
Lemma legacy_offset_rescales_nanoseconds :
  - 2 ^ 63 <= 1700000000000000000 < 2 ^ 63
  /\ legacy_offset (newOffset 1700000000000000000 5)
     = (if (0 <=? 1700000000000000000) && (1700000000000000000 <? 10 ^ 18)
        then newOffset 1700000000000000000 5
        else newOffset (Z.quot 1700000000000000000 1000) 5).
Proof.
  assert (H : - 2 ^ 63 <= 1700000000000000000 < 2 ^ 63) by lia.
  split; [exact H|]. exact (legacy_offset_rescales 1700000000000000000 5 H).
Defined.

Example legacy_offset_nanoseconds :
  legacy_offset (newOffset 1700000000000000000 5) = newOffset 1700000000000000 5.
Proof. reflexivity. Qed.

(** X6 on a call of [Write] with two buffers on the active segment. *)
Lemma Write_appends_one_frame_two_buffers :
  holds two_segments_writer two_segments (sequenceToFilename 9000) (frame world)
  /\ 0 < total_length [hello; world]
  /\ int64 (position (wal_fb two_segments_writer) + 4 + total_length [hello; world]) < 100
  /\ exists n wal' fs',
       Write 100 6000000 two_segments_writer two_segments [hello; world]
       = ((n, None), wal', fs')
       /\ holds wal' fs' (sequenceToFilename 9000)
            (frame world ++ PutUint32 (uint32 (total_length [hello; world]))
                         ++ concat [hello; world])
       /\ position (wal_fb wal')
          = int64 (position (wal_fb two_segments_writer) + 4 + total_length [hello; world])
       /\ fileSequence (wal_fb wal') = fileSequence (wal_fb two_segments_writer)
       /\ (forall x, x <> sequenceToFilename 9000 -> fs' !! x = two_segments !! x)
       /\ (syncImmediate two_segments_writer = true ->
           fs' !! sequenceToFilename 9000
           = Some (frame world ++ PutUint32 (uint32 (total_length [hello; world]))
                               ++ concat [hello; world])
           /\ writer wal' = []).
Proof.
  assert (H1 : holds two_segments_writer two_segments (sequenceToFilename 9000) (frame world)).
  { split; [reflexivity|]. exists (frame world).
    split; [vm_compute; reflexivity|apply app_nil_r]. }
  assert (H2 : 0 < total_length [hello; world]) by (vm_compute; reflexivity).
  assert (H3 : int64 (position (wal_fb two_segments_writer) + 4
                      + total_length [hello; world]) < 100)
    by (vm_compute; reflexivity).
  split; [exact H1|]. split; [exact H2|]. split; [exact H3|].
  exact (Write_appends_one_frame 100 6000000 two_segments_writer two_segments
           (sequenceToFilename 9000) (frame world) [hello; world] H1 H2 H3).
Defined.

(** X7 on the same call with segments of sixteen bytes. *)
Lemma Write_rolls_over_two_buffers :
  holds two_segments_writer two_segments (sequenceToFilename 9000) (frame world)
  /\ 0 < total_length [hello; world]
  /\ 16 <= int64 (position (wal_fb two_segments_writer) + 4 + total_length [hello; world])
  /\ exists n wal' fs',
       Write 16 9500000 two_segments_writer two_segments [hello; world]
       = ((n, None), wal', fs')
       /\ wal_fb wal'
          = mkFilebased (Some (sequenceToFilename (newFileSequence 9500000))) false
                        (newFileSequence 9500000) 0
       /\ writer wal' = []
       /\ syncImmediate wal' = syncImmediate two_segments_writer
       /\ fs' !! sequenceToFilename 9000
          = Some (frame world ++ frame (concat [hello; world]) ++ sentinelBytes)
       /\ fs' !! sequenceToFilename (newFileSequence 9500000)
          = Some (if bool_decide (sequenceToFilename (newFileSequence 9500000)
                                  = sequenceToFilename 9000)
                  then frame world ++ frame (concat [hello; world]) ++ sentinelBytes
                  else default [] (two_segments
                                   !! sequenceToFilename (newFileSequence 9500000)))
       /\ (forall x, x <> sequenceToFilename 9000 ->
             x <> sequenceToFilename (newFileSequence 9500000) ->
             fs' !! x = two_segments !! x).
Proof.
  assert (H1 : holds two_segments_writer two_segments (sequenceToFilename 9000) (frame world)).
  { split; [reflexivity|]. exists (frame world).
    split; [vm_compute; reflexivity|apply app_nil_r]. }
  assert (H2 : 0 < total_length [hello; world]) by (vm_compute; reflexivity).
  assert (H3 : 16 <= int64 (position (wal_fb two_segments_writer) + 4
                            + total_length [hello; world]))
    by (vm_compute; discriminate).
  split; [exact H1|]. split; [exact H2|]. split; [exact H3|].
  exact (Write_rolls_over 16 9500000 two_segments_writer two_segments
           (sequenceToFilename 9000) (frame world) [hello; world] H1 H2 H3).
Defined.

(** X8 on two calls of [Write] that both roll over. *)
Lemma Close_leaves_the_records_on_disk_three_segments :
  0 < tsToFileSequence 5000000
  /\ StronglySorted Z.lt
       (map tsToFileSequence
            (5000000 :: map fst [(6000000, [hello]); (7000000, [world])]))
  /\ Forall (fun now => tsToFileSequence now < 2 ^ 63)
            (5000000 :: map fst [(6000000, [hello]); (7000000, [world])])
  /\ Forall (fun bufs => total_length bufs < 2 ^ 32)
            (map snd [(6000000, [hello]); (7000000, [world])])
  /\ exists wal0 fs0,
       Open 5000000 0 ∅ = (Some wal0, fs0, None)
       /\ let st := run_writes 8 (wal0, fs0) [(6000000, [hello]); (7000000, [world])] in
          let wal' := fst (WAL_Close (fst st) (snd st)) in
          let fs' : gmap string (list byte) := snd (WAL_Close (fst st) (snd st)) in
          exists (closed : list segment) (cur : segment),
            writer wal' = []
            /\ StronglySorted Z.lt (map seg_seq (closed ++ [cur]))
            /\ (forall seg, seg ∈ closed ->
                  fs' !! sequenceToFilename (seg_seq seg)
                  = Some (frames (seg_records seg) ++ sentinelBytes))
            /\ fs' !! sequenceToFilename (seg_seq cur) = Some (frames (seg_records cur))
            /\ (forall name, is_Some (fs' !! name) ->
                  exists seg, seg ∈ closed ++ [cur]
                              /\ name = sequenceToFilename (seg_seq seg))
            /\ records_of (closed ++ [cur])
               = flat_map (fun call : Z * list (list byte) =>
                             if total_length (snd call) =? 0 then []
                             else [concat (snd call)])
                          [(6000000, [hello]); (7000000, [world])].
Proof.
  assert (H1 : 0 < tsToFileSequence 5000000) by (vm_compute; reflexivity).
  assert (H2 : StronglySorted Z.lt
                 (map tsToFileSequence
                      (5000000 :: map fst [(6000000, [hello]); (7000000, [world])])))
    by (vm_compute; repeat constructor).
  assert (H3 : Forall (fun now => tsToFileSequence now < 2 ^ 63)
                 (5000000 :: map fst [(6000000, [hello]); (7000000, [world])])).
  { cbn [map fst]. repeat (constructor; [vm_compute; reflexivity|]). constructor. }
  assert (H4 : Forall (fun bufs => total_length bufs < 2 ^ 32)
                 (map snd [(6000000, [hello]); (7000000, [world])])).
  { cbn [map snd]. repeat (constructor; [vm_compute; reflexivity|]). constructor. }
  split; [exact H1|]. split; [exact H2|]. split; [exact H3|]. split; [exact H4|].
  exact (Close_leaves_the_records_on_disk 8 5000000 0
           [(6000000, [hello]); (7000000, [world])] H1 H2 H3 H4).
Defined.

(** X9 on the two segments: truncating before 5000 and then before 9000. *)
Lemma TruncateBefore_twice_two_segments :
  0 <= FileSequence (newOffset 5000 0) <= FileSequence (newOffset 9000 0)
  /\ FileSequence (newOffset 9000 0) < 2 ^ 63
  /\ (TruncateBefore (newOffset 9000 0) (fst (TruncateBefore (newOffset 5000 0) two_segments))
      = TruncateBefore (newOffset 9000 0) two_segments
      /\ snd (TruncateBefore (newOffset 9000 0) two_segments) = None).
Proof.
  assert (H1 : 0 <= FileSequence (newOffset 5000 0) <= FileSequence (newOffset 9000 0))
    by (cbn; lia).
  assert (H2 : FileSequence (newOffset 9000 0) < 2 ^ 63) by (cbn; lia).
  split; [exact H1|]. split; [exact H2|].
  exact (TruncateBefore_twice (newOffset 5000 0) (newOffset 9000 0) two_segments H1 H2).
Defined.

(** What is left of the two segments is the active one. *)
Example TruncateBefore_two_segments_left :
  ReadDir (fst (TruncateBefore (newOffset 9000 0) two_segments)) = [sequenceToFilename 9000].
Proof. vm_compute. reflexivity. Qed.

(** X10 on the two segments, with the cutoff at the active one. *)
Lemma CompressBefore_compresses_first_segment :
  no_twins two_segments
  /\ exists fs',
       CompressBefore stored_encode (newOffset 9000 0) two_segments = (fs', None)
       /\ forall name,
            fs' !! name =
            if compressible (sequenceToFilename (FileSequence (newOffset 9000 0)))
                            two_segments name
            then None
            else if HasSuffix name compressedSuffix
                    && compressible (sequenceToFilename (FileSequence (newOffset 9000 0)))
                                    two_segments (TrimSuffix name compressedSuffix)
            then stored_encode <$> two_segments !! TrimSuffix name compressedSuffix
            else two_segments !! name.
Proof.
  assert (H : no_twins two_segments) by (vm_compute; reflexivity).
  split; [exact H|].
  exact (CompressBefore_compresses_raw_files_below_cutoff stored_encode
           (newOffset 9000 0) two_segments H).
Defined.

(** X11 on a reader at the end of the first segment. *)
Lemma Reader_advance_to_second_segment :
  canonical_dir two_segments
  /\ 0 <= fileSequence (r_fb (reader_in_first 13)) < 2 ^ 63
  /\ match Reader_advance stored_decode (reader_in_first 13) two_segments with
     | adv_ok r' =>
         exists s z,
           r' = mkReader (mkFilebased (Some (segment_name s z)) z s 0) 0
           /\ fileSequence (r_fb (reader_in_first 13)) < s
           /\ is_Some (two_segments !! segment_name s z)
           /\ (z = true -> two_segments !! segment_name s false = None)
           /\ (forall x, x ∈ sequences two_segments ->
                 fileSequence (r_fb (reader_in_first 13)) < x -> s <= x)
     | adv_err _ _ => False
     | adv_sleep =>
         forall x, x ∈ sequences two_segments -> x <= fileSequence (r_fb (reader_in_first 13))
     end.
Proof.
  assert (H1 : canonical_dir two_segments) by (vm_compute; reflexivity).
  assert (H2 : 0 <= fileSequence (r_fb (reader_in_first 13)) < 2 ^ 63) by (cbn; lia).
  split; [exact H1|]. split; [exact H2|].
  exact (Reader_advance_opens_next_segment stored_decode (reader_in_first 13)
           two_segments H1 H2).
Defined.

Example Reader_advance_two_segments :
  Reader_advance stored_decode (reader_in_first 13) two_segments
  = adv_ok (reader_at 9000 false).
Proof. vm_compute. reflexivity. Qed.

(** X14 on the first call of [Read] on the two segments. *)
Lemma Read_returns_no_error_two_segments :
  canonical_dir two_segments
  /\ 0 <= fileSequence (r_fb (reader_in_first 0)) < 2 ^ 63
  /\ match Read_from stored_decode 2 whole_reads two_segments_writer two_segments
             (at_length []) (reader_in_first 0) with
     | Some (rd_err _ _) => False
     | Some (rd_ok _ r') => 0 <= fileSequence (r_fb r') < 2 ^ 63
     | _ => True
     end.
Proof.
  assert (H1 : canonical_dir two_segments) by (vm_compute; reflexivity).
  assert (H2 : 0 <= fileSequence (r_fb (reader_in_first 0)) < 2 ^ 63) by (cbn; lia).
  split; [exact H1|]. split; [exact H2|].
  exact (Read_returns_no_error stored_decode 2 whole_reads two_segments_writer
           two_segments (at_length []) (reader_in_first 0) H1 H2).
Defined.

(** X12 on the two segments: after the first record the reader is at
    (5000, 9), and [NewReader] at that offset is that reader. *)
Lemma NewReader_resumes_after_first_record :
  canonical_dir two_segments
  /\ dir_bounded stored_decode two_segments
  /\ (forall x, x ∈ sequences two_segments -> x < 10 ^ 18)
  /\ NewReader stored_decode None two_segments = nr_ok (reader_in_first 0)
  /\ Read_many stored_decode 1 2 (fun _ => whole_reads) two_segments_writer
       two_segments (reader_in_first 0)
     = Some ([hello], reader_in_first 9)
  /\ NewReader stored_decode (Some (Reader_Offset (reader_in_first 9))) two_segments
     = nr_ok (reader_in_first 9).
Proof.
  assert (H1 : canonical_dir two_segments) by (vm_compute; reflexivity).
  assert (H2 : dir_bounded stored_decode two_segments) by (vm_compute; reflexivity).
  assert (H3 : forall x, x ∈ sequences two_segments -> x < 10 ^ 18).
  { assert (E : sequences two_segments = [5000; 9000]) by (vm_compute; reflexivity).
    rewrite E. apply Forall_forall. repeat (constructor; [lia|]). constructor. }
  assert (H4 : NewReader stored_decode None two_segments = nr_ok (reader_in_first 0))
    by (vm_compute; reflexivity).
  assert (H5 : Read_many stored_decode 1 2 (fun _ => whole_reads) two_segments_writer
                 two_segments (reader_in_first 0)
               = Some ([hello], reader_in_first 9)) by (vm_compute; reflexivity).
  split; [exact H1|]. split; [exact H2|]. split; [exact H3|]. split; [exact H4|].
  split; [exact H5|].
  exact (NewReader_resumes_at_Offset stored_decode 1 2 (fun _ => whole_reads)
           two_segments_writer two_segments (reader_in_first 0) [hello]
           (reader_in_first 9) H1 H2 H3 H4 H5).
Defined.

(** X13 on the two segments and the offset (7000, 3). *)
Lemma NewReader_starts_at_second_segment :
  canonical_dir two_segments
  /\ 0 <= FileSequence (legacy_offset (newOffset 7000 3)) < 2 ^ 63
  /\ FileSequence (legacy_offset (newOffset 7000 3)) < 9000 < 2 ^ 63
  /\ is_Some (two_segments !! segment_name 9000 false)
  /\ (forall x, x ∈ sequences two_segments ->
        FileSequence (legacy_offset (newOffset 7000 3)) <= x -> 9000 <= x)
  /\ NewReader stored_decode (Some (newOffset 7000 3)) two_segments
     = nr_ok (mkReader (mkFilebased (Some (segment_name 9000 false)) false 9000 0) 0).
Proof.
  assert (H1 : canonical_dir two_segments) by (vm_compute; reflexivity).
  assert (H2 : 0 <= FileSequence (legacy_offset (newOffset 7000 3)) < 2 ^ 63)
    by (vm_compute; split; [discriminate|reflexivity]).
  assert (H3 : FileSequence (legacy_offset (newOffset 7000 3)) < 9000 < 2 ^ 63)
    by (vm_compute; split; reflexivity).
  assert (H4 : is_Some (two_segments !! segment_name 9000 false))
    by (vm_compute; eauto).
  assert (H5 : forall x, x ∈ sequences two_segments ->
                 FileSequence (legacy_offset (newOffset 7000 3)) <= x -> 9000 <= x).
  { assert (E : sequences two_segments = [5000; 9000]) by (vm_compute; reflexivity).
    assert (E' : FileSequence (legacy_offset (newOffset 7000 3)) = 7000)
      by (vm_compute; reflexivity).
    rewrite E, E'.
    apply (proj1 (Forall_forall (fun x => 7000 <= x -> 9000 <= x) [5000; 9000])).
    repeat (constructor; [lia|]). constructor. }
  split; [exact H1|]. split; [exact H2|]. split; [exact H3|]. split; [exact H4|].
  split; [exact H5|].
  exact (NewReader_starts_at_next_segment stored_decode (newOffset 7000 3) two_segments
           9000 false H1 H2 H3 H4
           (fun E : false = true => False_ind _ (Bool.diff_false_true E)) H5).
Defined.

(** X16 on the offset (5000, 9): the end of the first record. *)
Lemma NewReader_opens_at_position_nine :
  canonical_dir two_segments
  /\ 0 <= 5000 < 10 ^ 18
  /\ two_segments !! segment_name 5000 false = Some (frame hello ++ sentinelBytes)
  /\ (9 <= length (frame hello ++ sentinelBytes))%nat
  /\ NewReader stored_decode (Some (newOffset 5000 (Z.of_nat 9))) two_segments
     = nr_ok (mkReader (mkFilebased (Some (segment_name 5000 false)) false 5000
                                    (Z.of_nat 9)) 9).
Proof.
  assert (H1 : canonical_dir two_segments) by (vm_compute; reflexivity).
  assert (H2 : 0 <= 5000 < 10 ^ 18) by lia.
  assert (H3 : two_segments !! segment_name 5000 false
               = Some (frame hello ++ sentinelBytes)) by (vm_compute; reflexivity).
  assert (H4 : (9 <= length (frame hello ++ sentinelBytes))%nat) by (vm_compute; lia).
  split; [exact H1|]. split; [exact H2|]. split; [exact H3|]. split; [exact H4|].
  exact (NewReader_opens_at_position stored_decode two_segments 5000 false 9
           (frame hello ++ sentinelBytes) H1 H2 H3
           (fun E : false = true => False_ind _ (Bool.diff_false_true E)) H4).
Defined.

(** The two segments are the log of their writer. *)
Lemma two_segments_log :
  log_inv [mkSegment 5000 [hello]] (mkSegment 9000 [world])
          two_segments_writer two_segments.
Proof.
  split; [reflexivity|]. split; [reflexivity|].
  split; [cbn; repeat constructor|].
  split; [cbn; repeat (constructor; [lia|]); constructor|].
  split; [repeat constructor|].
  split; [exists (frame world); split; [vm_compute; reflexivity|apply app_nil_r]|].
  split.
  - intros name Hname. apply ReadDir_elem_of in Hname.
    assert (E : ReadDir two_segments = [sequenceToFilename 5000; sequenceToFilename 9000])
      by (vm_compute; reflexivity).
    rewrite E in Hname.
    apply elem_of_cons in Hname as [->|Hname];
      [|apply list_elem_of_singleton in Hname; subst name].
    + exists (mkSegment 5000 [hello]). split; [left|reflexivity].
    + exists (mkSegment 9000 [world]). split; [right; left|reflexivity].
  - cbn. repeat (constructor; [cbn; lia|]). constructor.
Qed.

(** X17 on the two segments, with the cutoff at the active one: the record
    of the first segment is gone, that of the active one is read. *)
Lemma TruncateBefore_drops_first_segment :
  log_inv [mkSegment 5000 [hello]] (mkSegment 9000 [world])
          two_segments_writer two_segments
  /\ writer two_segments_writer = []
  /\ 0 <= FileSequence (newOffset 9000 0) < 2 ^ 63
  /\ let kept := filter (fun seg => FileSequence (newOffset 9000 0) <= seg_seq seg)
                        [mkSegment 5000 [hello]] ++ [mkSegment 9000 [world]] in
     exists fs' r,
       TruncateBefore (newOffset 9000 0) two_segments = (fs', None)
       /\ (forall s, s ∈ sequences fs' <-> exists seg, seg ∈ kept /\ seg_seq seg = s)
       /\ NewReader stored_decode None fs' = nr_ok r
       /\ forall chunks, exists fuel r',
            Read_many stored_decode (length (records_of kept)) fuel chunks
              two_segments_writer fs' r
            = Some (records_of kept, r').
Proof.
  assert (H2 : writer two_segments_writer = []) by reflexivity.
  assert (H3 : 0 <= FileSequence (newOffset 9000 0) < 2 ^ 63) by (cbn; lia).
  split; [exact two_segments_log|]. split; [exact H2|]. split; [exact H3|].
  exact (TruncateBefore_drops_whole_segments stored_decode (newOffset 9000 0)
           [mkSegment 5000 [hello]] (mkSegment 9000 [world])
           two_segments_writer two_segments two_segments_log H2 H3).
Defined.

Example TruncateBefore_two_segments_read_back :
  match NewReader stored_decode None
          (fst (TruncateBefore (newOffset 9000 0) two_segments)) with
  | nr_ok r =>
      fst <$> Read_many stored_decode 1 2 (fun _ => whole_reads) two_segments_writer
                (fst (TruncateBefore (newOffset 9000 0) two_segments)) r
      = Some [world]
  | _ => False
  end.
Proof. vm_compute. reflexivity. Qed.

(** X18 on the two segments. *)
Lemma Read_blocks_after_world :
  log_inv [mkSegment 5000 [hello]] (mkSegment 9000 [world])
          two_segments_writer two_segments
  /\ writer two_segments_writer = []
  /\ exists r bound,
       NewReader stored_decode None two_segments = nr_ok r
       /\ forall chunks, exists r',
            Read_many stored_decode
              (length (records_of ([mkSegment 5000 [hello]] ++ [mkSegment 9000 [world]])))
              bound chunks two_segments_writer two_segments r
            = Some (records_of ([mkSegment 5000 [hello]] ++ [mkSegment 9000 [world]]), r')
            /\ forall chunks' (fuel : nat), (bound <= fuel)%nat ->
                 exists pc r'',
                   Read stored_decode fuel chunks' two_segments_writer two_segments r'
                   = Some (rd_blocked pc r'').
Proof.
  assert (H2 : writer two_segments_writer = []) by reflexivity.
  split; [exact two_segments_log|]. split; [exact H2|].
  exact (Read_blocks_after_the_last_record stored_decode
           [mkSegment 5000 [hello]] (mkSegment 9000 [world])
           two_segments_writer two_segments two_segments_log H2).
Defined.

Example Read_two_segments_then_blocks :
  Read_many stored_decode 2 4 (fun _ => whole_reads) two_segments_writer two_segments
    (reader_in_first 0)
  = Some ([hello; world], mkReader (mkFilebased (Some (sequenceToFilename 9000)) false 9000 9) 9)
  /\ Read stored_decode 4 whole_reads two_segments_writer two_segments
       (mkReader (mkFilebased (Some (sequenceToFilename 9000)) false 9000 9) 9)
     = Some (rd_blocked (at_length [])
               (mkReader (mkFilebased (Some (sequenceToFilename 9000)) false 9000 9) 9)).
Proof. split; vm_compute; reflexivity. Qed.
